(** * Lexical scanner (work1.py) and LR(1) analyzer (work2.py)

    A shallow embedding of the two analyzers.  Python [str] values are lists
    of Unicode code points ([N]); Python [int] is [Z]; a [dict] is stdpp's
    [gmap] and a [set] of strings its [gset]; a set of LR(1) items is the
    list of its members; Python exceptions are the [Raise] results of a small
    error monad, and a method that updates [self] returns the updated
    object. *)

From Stdlib Require Import ZArith NArith List Bool Ascii String DecimalString Lia.
From stdpp Require Import base option list gmap sets fin_maps.
Import ListNotations.

Local Open Scope Z_scope.
#[local] Set Warnings "-clear-no-such-hyp".

(** ** Characters and strings *)

Abbreviation char := N.
Abbreviation str := (list N).

(** Code point of an ASCII character, and the text of an ASCII literal. *)
Definition ch (a : ascii) : char := N_of_ascii a.
Arguments ch : simpl never.
Definition u (s : string) : str := map N_of_ascii (list_ascii_of_string s).

Definition NL : char := 10%N.     (* '\n' *)
Definition TAB : char := 9%N.     (* '\t' *)
Definition CR : char := 13%N.     (* '\r' *)
Definition DQUOTE : char := 34%N. (* the double quote *)
Definition BACKSLASH : char := 92%N.
Definition ARROW : char := 8594%N.   (* U+2192, the rule arrow *)
Definition EPSILON : char := 949%N.  (* U+03B5 *)

Definition len {A} (l : list A) : Z := Z.of_nat (length l).

Definition char_in (c : char) (l : list char) : bool := existsb (N.eqb c) l.
Definition in_range (lo hi c : N) : bool := ((lo <=? c) && (c <=? hi))%N.

(** ** String methods *)

(** [str.isspace] on one character: the white space of the Unicode
    database. *)
Definition isspace (c : char) : bool :=
  in_range 9 13 c || in_range 28 32 c
  || char_in c [133; 160; 5760; 8232; 8233; 8239; 8287; 12288]%N
  || in_range 8192 8202 c.

Fixpoint lstrip_by (p : char -> bool) (s : str) : str :=
  match s with
  | c :: s' => if p c then lstrip_by p s' else s
  | [] => []
  end.

Definition strip_by (p : char -> bool) (s : str) : str :=
  List.rev (lstrip_by p (List.rev (lstrip_by p s))).

(** [s.strip()] and [s.strip(chars)]. *)
Definition strip (s : str) : str := strip_by isspace s.
Definition strip_chars (chars : str) (s : str) : str := strip_by (fun c => char_in c chars) s.

Definition startswith (s : str) (c : char) : bool :=
  match s with
  | c0 :: _ => (c0 =? c)%N
  | [] => false
  end.
Definition endswith (s : str) (c : char) : bool := startswith (List.rev s) c.

(** [s.split(sep)] for a one-character separator: the pieces between the
    separators, at least one piece. *)
Fixpoint split_on (sep : char) (s : str) : list str :=
  match s with
  | [] => [[]]
  | c :: s' =>
      if (c =? sep)%N then [] :: split_on sep s'
      else match split_on sep s' with
           | piece :: pieces => (c :: piece) :: pieces
           | [] => [[c]]
           end
  end.

(** [s.split(sep, 1)]: at most one cut, at the first separator. *)
Fixpoint split_once (sep : char) (s : str) : list str :=
  match s with
  | [] => [[]]
  | c :: s' =>
      if (c =? sep)%N then [[]; s']
      else match split_once sep s' with
           | piece :: pieces => (c :: piece) :: pieces
           | [] => [[c]]
           end
  end.

(** [s.split()]: the maximal runs of characters that are not white space. *)
Fixpoint split_ws_aux (s : str) (cur : str) : list str :=
  match s with
  | [] => match cur with [] => [] | _ => [cur] end
  | c :: s' =>
      if isspace c then
        match cur with
        | [] => split_ws_aux s' []
        | _ => cur :: split_ws_aux s' []
        end
      else split_ws_aux s' (cur ++ [c])
  end.
Definition split_ws (s : str) : list str := split_ws_aux s [].

(** [sep.join(pieces)]. *)
Fixpoint join (sep : str) (pieces : list str) : str :=
  match pieces with
  | [] => []
  | [p] => p
  | p :: rest => p ++ sep ++ join sep rest
  end.

(** ** Exceptions *)

(** The Python exceptions the analyzers can raise.  [LoopBound] is not one of
    them: a loop of the model that is given a bound on its turns answers it
    when the bound is used up. *)
Inductive exn := IndexError | KeyError | ValueError | SystemExit | ReError | LoopBound.

Inductive result (A : Type) : Type :=
| Ok (a : A)
| Raise (e : exn).
Arguments Ok {A} a.
Arguments Raise {A} e.

#[global] Instance result_ret : MRet result := fun A a => Ok a.
#[global] Instance result_bind : MBind result := fun A B f m =>
  match m with Ok a => f a | Raise e => Raise e end.

(** [l[i]] for a Python sequence: negative indices count from the end, an
    index out of range raises IndexError. *)
Definition getitem {A} (l : list A) (i : Z) : result A :=
  let j := if i <? 0 then len l + i else i in
  if j <? 0 then Raise IndexError
  else match nth_error l (Z.to_nat j) with
       | Some a => Ok a
       | None => Raise IndexError
       end.

(** [d[k]] for a dict. *)
Definition lookup_key `{Countable K} {V} (d : gmap K V) (k : K) : result V :=
  match d !! k with
  | Some v => Ok v
  | None => Raise KeyError
  end.

(** A [for] loop over a list whose body can raise. *)
Fixpoint for_each {A S} (body : A -> S -> result S) (l : list A) (s : S) : result S :=
  match l with
  | [] => Ok s
  | a :: l' => s' ← body a s; for_each body l' s'
  end.

(** ** The Unicode character database

    [str.isalpha], [str.isdigit], [str.isalnum] and the [\d], [\w] classes of
    [re] consult the Unicode database.  The ASCII range is written out; the
    properties of the code points from 128 on are a parameter. *)

Record UnicodeData := {
  uc_alpha : N -> bool;
  uc_decimal : N -> bool;
  uc_digit : N -> bool;
  uc_numeric : N -> bool;
  uc_upper : N -> bool;
}.

Definition ascii_upper (c : char) : bool := in_range 65 90 c.
Definition ascii_lower (c : char) : bool := in_range 97 122 c.
Definition ascii_digit (c : char) : bool := in_range 48 57 c.

Section Unicode.
Context (U : UnicodeData).

Definition isalpha (c : char) : bool :=
  if (c <? 128)%N then ascii_upper c || ascii_lower c else uc_alpha U c.
Definition isdecimal (c : char) : bool :=
  if (c <? 128)%N then ascii_digit c else uc_decimal U c.
Definition isdigit (c : char) : bool :=
  if (c <? 128)%N then ascii_digit c else uc_digit U c.
Definition isnumeric (c : char) : bool :=
  if (c <? 128)%N then ascii_digit c else uc_numeric U c.
Definition isalnum (c : char) : bool :=
  isalpha c || isdecimal c || isdigit c || isnumeric c.
Definition isupper (c : char) : bool :=
  if (c <? 128)%N then ascii_upper c else uc_upper U c.

(** ** Regular expressions of [determine_token_type]

    The patterns are anchored with [^] and [$]; they are matched by
    derivatives, which decides the same language as the backtracking
    matcher. *)

Inductive regex :=
| RNone
| REps
| RChr (p : char -> bool)
| RCat (r1 r2 : regex)
| RAlt (r1 r2 : regex)
| RStar (r : regex).

Fixpoint nullable (r : regex) : bool :=
  match r with
  | RNone => false
  | REps => true
  | RChr _ => false
  | RCat r1 r2 => nullable r1 && nullable r2
  | RAlt r1 r2 => nullable r1 || nullable r2
  | RStar _ => true
  end.

Fixpoint deriv (c : char) (r : regex) : regex :=
  match r with
  | RNone => RNone
  | REps => RNone
  | RChr p => if p c then REps else RNone
  | RCat r1 r2 =>
      if nullable r1 then RAlt (RCat (deriv c r1) r2) (deriv c r2)
      else RCat (deriv c r1) r2
  | RAlt r1 r2 => RAlt (deriv c r1) (deriv c r2)
  | RStar r1 => RCat (deriv c r1) (RStar r1)
  end.

Fixpoint full_match (r : regex) (s : str) : bool :=
  match s with
  | [] => nullable r
  | c :: s' => full_match (deriv c r) s'
  end.

(** [re.match('^r$', s)]: [$] matches at the end of the string and also just
    before a newline that ends the string. *)
Definition re_match (r : regex) (s : str) : bool :=
  full_match r s ||
  match List.rev s with
  | c :: s' => (c =? NL)%N && full_match r (List.rev s')
  | [] => false
  end.

Definition RPlus (r : regex) : regex := RCat r (RStar r).
Definition ROpt (r : regex) : regex := RAlt r REps.
Definition RLit (c : char) : regex := RChr (N.eqb c).

Definition re_d : regex := RChr isdecimal.                         (* \d *)
Definition re_w : regex := RChr (fun c => isalnum c || (c =? ch "_")%N). (* \w *)
Definition re_dot : regex := RChr (fun c => negb (c =? NL)%N).            (* . *)
Definition re_sign : regex := RChr (fun c => char_in c [ch "+"; ch "-"]). (* [+-] *)
(* (\d+\.\d+|\d+) *)
Definition re_num : regex :=
  RAlt (RCat (RPlus re_d) (RCat (RLit (ch ".")) (RPlus re_d))) (RPlus re_d).

(* ^[a-zA-Z_]\w*$ *)
Definition identifier_pattern : regex :=
  RCat (RChr (fun c => ascii_lower c || ascii_upper c || (c =? ch "_")%N))
       (RStar re_w).
(* ^[+-]?(\d+\.\d+|\d+)[Ee][+-]?\d+$ *)
Definition scientific_pattern : regex :=
  RCat (ROpt re_sign)
    (RCat re_num
      (RCat (RChr (fun c => char_in c [ch "E"; ch "e"]))
        (RCat (ROpt re_sign) (RPlus re_d)))).
(* ^[+-]?(\d+\.\d+|\d+)[+-](\d+\.\d+|\d+)i$ *)
Definition complex_pattern : regex :=
  RCat (ROpt re_sign)
    (RCat re_num (RCat re_sign (RCat re_num (RLit (ch "i"))))).
(* ^([1-9]\d*|0)$ *)
Definition integer_pattern : regex :=
  RAlt (RCat (RChr (in_range 49 57)) (RStar re_d)) (RLit (ch "0")).
(* ^[+-]?\d+\.\d+$ *)
Definition float_pattern : regex :=
  RCat (ROpt re_sign) (RCat (RPlus re_d) (RCat (RLit (ch ".")) (RPlus re_d))).
(* ^".*"$ and ^'.*'$ *)
Definition dq_string_pattern : regex :=
  RCat (RLit DQUOTE) (RCat (RStar re_dot) (RLit DQUOTE)).
Definition sq_string_pattern : regex :=
  RCat (RLit (ch "'")) (RCat (RStar re_dot) (RLit (ch "'"))).

End Unicode.

(** ** Tokens (work1.py, class Token and enum TokenType) *)

Inductive TokenType := KEYWORD | IDENTIFIER | CONSTANT | DELIMITER | OPERATOR | ERROR.

#[global] Instance TokenType_eq_dec : EqDecision TokenType.
Proof. solve_decision. Defined.

Record Token := mkToken {
  tok_line : Z;
  tok_type : TokenType;
  tok_value : str;
}.

#[global] Instance Token_eq_dec : EqDecision Token.
Proof. solve_decision. Defined.

(** ** The scanner (work1.py, class Lexer) *)

(** The keys of [dfa_states]; [current_state] only ever holds one of them, so
    the [handle_unknown] default of the dispatch is never selected. *)
Inductive DfaState :=
| St_START | St_IDENTIFIER | St_NUMBER | St_SCIENTIFIC | St_COMPLEX | St_STRING.

#[global] Instance DfaState_eq_dec : EqDecision DfaState.
Proof. solve_decision. Defined.

Record Lexer := mkLexer {
  keywords : gset str;          (* self.grammar.keywords *)
  line : Z;
  pos : Z;
  tokens : list Token;
  current_state : DfaState;
  buffer : str;                 (* a list of one-character strings *)
  current_input : str;
}.

Definition set_line (n : Z) (s : Lexer) : Lexer :=
  mkLexer (keywords s) n (pos s) (tokens s) (current_state s) (buffer s) (current_input s).
Definition set_pos (p : Z) (s : Lexer) : Lexer :=
  mkLexer (keywords s) (line s) p (tokens s) (current_state s) (buffer s) (current_input s).
Definition set_tokens (ts : list Token) (s : Lexer) : Lexer :=
  mkLexer (keywords s) (line s) (pos s) ts (current_state s) (buffer s) (current_input s).
Definition set_state (st : DfaState) (s : Lexer) : Lexer :=
  mkLexer (keywords s) (line s) (pos s) (tokens s) st (buffer s) (current_input s).
Definition set_buffer (b : str) (s : Lexer) : Lexer :=
  mkLexer (keywords s) (line s) (pos s) (tokens s) (current_state s) b (current_input s).
Definition set_input (code : str) (s : Lexer) : Lexer :=
  mkLexer (keywords s) (line s) (pos s) (tokens s) (current_state s) (buffer s) code.

(** [Lexer.__init__], given the keyword set of the loaded grammar.  The
    attributes that [tokenize] assigns before reading them start out with
    placeholder values. *)
Definition Lexer_init (kws : gset str) : Lexer :=
  mkLexer kws 1 0 [] St_START [] [].

Section Scanner.
Context (U : UnicodeData).

(** [determine_token_type]; of the instance it reads the keyword set only. *)
Definition determine_token_type (kws : gset str) (value : str) : TokenType :=
  if bool_decide (value ∈ kws) then KEYWORD
  else if re_match (identifier_pattern U) value then IDENTIFIER
  else if re_match (scientific_pattern U) value then CONSTANT
  else if re_match (complex_pattern U) value then CONSTANT
  else if re_match (integer_pattern U) value then CONSTANT
  else if re_match (float_pattern U) value then CONSTANT
  else if re_match dq_string_pattern value || re_match sq_string_pattern value
       then CONSTANT
  else ERROR.

Definition append_token (t : Token) (s : Lexer) : Lexer :=
  set_tokens (tokens s ++ [t]) s.

Definition add_operator (c : str) (s : Lexer) : Lexer :=
  append_token (mkToken (line s) OPERATOR c) s.
Definition add_delimiter (c : str) (s : Lexer) : Lexer :=
  append_token (mkToken (line s) DELIMITER c) s.
Definition add_error (c : str) (s : Lexer) : Lexer :=
  append_token (mkToken (line s) ERROR c) s.

Definition finalize_token (s : Lexer) : Lexer :=
  let value := buffer s in
  let token_type := determine_token_type (keywords s) value in
  set_buffer [] (append_token (mkToken (line s) token_type value) s).

Definition operator_chars : list char :=
  [ch "+"; ch "-"; ch "*"; ch "/"; ch "="; ch "<"; ch ">"; ch "!"; ch "&"; ch "|"].
Definition delimiter_chars : list char :=
  [ch ";"; ch ","; ch "("; ch ")"; ch "{"; ch "}"; ch "["; ch "]"].
Definition blank_chars : list char := [ch " "; TAB; CR].

Definition handle_start (c : char) (s : Lexer) : result Lexer :=
  if isalpha U c || (c =? ch "_")%N then
    Ok (set_buffer (buffer s ++ [c]) (set_state St_IDENTIFIER s))
  else if isdigit U c then
    Ok (set_buffer (buffer s ++ [c]) (set_state St_NUMBER s))
  else if (c =? DQUOTE)%N then
    Ok (set_buffer (buffer s ++ [c]) (set_state St_STRING s))
  else if char_in c operator_chars then Ok (add_operator [c] s)
  else if char_in c delimiter_chars then Ok (add_delimiter [c] s)
  else if char_in c blank_chars then Ok s
  else Ok s.   (* the closing [else: self.add_error(char)] is commented out *)

Definition handle_string (c : char) (s : Lexer) : result Lexer :=
  let s := set_buffer (buffer s ++ [c]) s in
  unescaped_quote ←
    (if (c =? DQUOTE)%N
     then prev ← getitem (buffer s) (-2); Ok (negb (prev =? BACKSLASH)%N)
     else Ok false);
  if (unescaped_quote : bool) then Ok (set_state St_START (finalize_token s))
  else if (c =? NL)%N then
    Ok (set_state St_START (set_buffer [] (add_error (buffer s) s)))
  else Ok s.

Definition handle_identifier (c : char) (s : Lexer) : result Lexer :=
  if isalnum U c || (c =? ch "_")%N then Ok (set_buffer (buffer s ++ [c]) s)
  else
    let s := finalize_token s in
    Ok (set_state St_START (set_pos (pos s - 1) s)).

(** The inner [while] of the leading-zero rule: it appends the digits that
    follow and moves the position past them. *)
Fixpoint zero_run (fuel : nat) (code : str) (p : Z) (buf : str) : result (Z * str) :=
  match fuel with
  | O => Ok (p, buf)
  | S fuel' =>
      if p <? len code then
        c ← getitem code p;
        if isdigit U c then zero_run fuel' code (p + 1) (buf ++ [c])
        else Ok (p, buf)
      else Ok (p, buf)
  end.

(** ['e' in buffer_str.lower()]: the only characters that lower-case to [e]
    are [e] and [E]. *)
Definition has_e (b : str) : bool := existsb (fun c => char_in c [ch "e"; ch "E"]) b.
Definition lower_is_e (c : char) : bool := char_in c [ch "e"; ch "E"].

Definition handle_number (c : char) (s : Lexer) : result Lexer :=
  let buffer_str := buffer s in
  if match buffer_str with
     | [c0] => (c0 =? ch "0")%N && isdigit U c
     | _ => false
     end
  then
    let s := set_buffer (buffer s ++ [c]) s in
    '(p, b) ← zero_run (Z.to_nat (len (current_input s) - pos s))
                       (current_input s) (pos s) (buffer s);
    let s := set_buffer b (set_pos p s) in
    Ok (set_state St_START (set_buffer [] (add_error (buffer s) s)))
  else if isdigit U c then Ok (set_buffer (buffer s ++ [c]) s)
  else if (c =? ch ".")%N && negb (char_in (ch ".") buffer_str) && negb (has_e buffer_str)
  then Ok (set_buffer (buffer s ++ [c]) s)
  else if lower_is_e c && negb (has_e buffer_str) then
    Ok (set_state St_SCIENTIFIC (set_buffer (buffer s ++ [c]) s))
  else if char_in c [ch "+"; ch "-"] then
    last ← getitem buffer_str (-1);
    if lower_is_e last then Ok (set_buffer (buffer s ++ [c]) s)
    else Ok (set_state St_COMPLEX (set_buffer (buffer s ++ [c]) s))
  else
    let s := finalize_token s in
    Ok (set_state St_START (set_pos (pos s - 1) s)).

Definition handle_scientific (c : char) (s : Lexer) : result Lexer :=
  if isdigit U c || char_in c [ch "+"; ch "-"] then Ok (set_buffer (buffer s ++ [c]) s)
  else
    let s := finalize_token s in
    Ok (set_state St_START (set_pos (pos s - 1) s)).

(** [s.split(sep)[-1]]: what follows the last occurrence of [sep]. *)
Fixpoint split_last (sep : char) (s : str) : str :=
  match s with
  | [] => []
  | c :: s' => if char_in sep s' then split_last sep s'
               else if (c =? sep)%N then s' else s
  end.

(** The guard of the last branch of [handle_complex]: none of the three
    continuations of a complex literal applies. *)
Definition complex_falls_back (c : char) (s : Lexer) : bool :=
  let buffer_str := buffer s in
  negb (isdigit U c)
  && negb ((c =? ch ".")%N
           && negb (char_in (ch ".") (split_last (ch "-") (split_last (ch "+") buffer_str))))
  && negb ((c =? ch "i")%N && (1 <? len buffer_str)).

Definition handle_complex (c : char) (s : Lexer) : result Lexer :=
  let buffer_str := buffer s in
  if isdigit U c then Ok (set_buffer (buffer s ++ [c]) s)
  else if (c =? ch ".")%N
          && negb (char_in (ch ".") (split_last (ch "-") (split_last (ch "+") buffer_str)))
  then Ok (set_buffer (buffer s ++ [c]) s)
  else if (c =? ch "i")%N && (1 <? len buffer_str) then
    Ok (set_state St_START (finalize_token (set_buffer (buffer s ++ [c]) s)))
  else
    let value := removelast buffer_str in
    let s := match value with
             | [] => s
             | _ => finalize_token (set_buffer value s)
             end in
    Ok (set_buffer [] (set_state St_START (set_pos (pos s - 2) s))).

Definition dispatch (c : char) (s : Lexer) : result Lexer :=
  match current_state s with
  | St_START => handle_start c s
  | St_IDENTIFIER => handle_identifier c s
  | St_NUMBER => handle_number c s
  | St_SCIENTIFIC => handle_scientific c s
  | St_COMPLEX => handle_complex c s
  | St_STRING => handle_string c s
  end.

(** One turn of the [while] loop of [tokenize]. *)
Definition step (s : Lexer) : result Lexer :=
  c ← getitem (current_input s) (pos s);
  let s := set_pos (pos s + 1) s in
  let s := if (c =? NL)%N then set_line (line s + 1) s else s in
  dispatch c s.

Definition rank (st : DfaState) : Z :=
  match st with
  | St_START => 0
  | St_COMPLEX => 5
  | _ => 2
  end.

(** A bound on the number of turns left: a turn that backs the position up
    also returns to START. *)
Definition turns_left (s : Lexer) : Z :=
  4 * (len (current_input s) - pos s) + rank (current_state s).

Fixpoint run (fuel : nat) (s : Lexer) : result Lexer :=
  if pos s <? len (current_input s) then
    match fuel with
    | O => Raise LoopBound
    | S fuel' => s' ← step s; run fuel' s'
    end
  else Ok s.

(** [tokenize]: the token list it returns is the [tokens] attribute of the
    instance, which the call leaves updated. *)
Definition tokenize_reset (code : str) (s : Lexer) : Lexer :=
  set_input code (set_pos 0 (set_buffer [] (set_state St_START s))).

Definition tokenize (code : str) (s : Lexer) : result Lexer :=
  let s := tokenize_reset code s in
  s ← run (Z.to_nat (turns_left s)) s;
  Ok (match buffer s with [] => s | _ => finalize_token s end).

(** What [tokenize] returns: the token list of the instance. *)
Definition tokenize_tokens (code : str) (s : Lexer) : result (list Token) :=
  s' ← tokenize code s; Ok (tokens s').

(** The states the loop of [tokenize] goes through on the input [code]. *)
Inductive reachable (code : str) : Lexer -> Prop :=
| reach_reset s : reachable code (tokenize_reset code s)
| reach_step s s' :
    reachable code s -> pos s < len code -> step s = Ok s' -> reachable code s'.

End Scanner.

Arguments determine_token_type : simpl never.

(** A character database that knows no character outside ASCII; it serves
    where a concrete database is needed and the text is ASCII. *)
Definition ascii_only : UnicodeData :=
  Build_UnicodeData (fun _ => false) (fun _ => false) (fun _ => false)
                    (fun _ => false) (fun _ => false).

(** A new instance whose line counter stands at [n]. *)
Definition Lexer_at (kws : gset str) (n : Z) : Lexer := mkLexer kws n 0 [] St_START [] [].




(** ** The loader of the lexical grammar (work1.py, class GrammarParser) *)

(** [re.escape] on one character. *)
Definition re_special_chars : list char :=
  [ch "("; ch ")"; ch "["; ch "]"; ch "{"; ch "}"; ch "?"; ch "*"; ch "+"; ch "-";
   ch "|"; ch "^"; ch "$"; BACKSLASH; ch "."; ch "&"; ch "~"; ch "#"; ch " ";
   TAB; NL; CR; 11%N; 12%N].
Definition re_escape (c : char) : str :=
  if char_in c re_special_chars then [BACKSLASH; c] else [c].

Definition regex_metachars : list char :=
  [ch "+"; ch "*"; ch "?"; ch "("; ch ")"; ch "["; ch "]"; ch "."].

(** The [while i < len(expr)] loop of [build_regex], joined. *)
Fixpoint regex_of_expr (expr : str) : str :=
  match expr with
  | [] => []
  | c :: rest =>
      match rest with
      | c2 :: rest2 =>
          if (c =? BACKSLASH)%N then re_escape c2 ++ regex_of_expr rest2
          else (if char_in c regex_metachars then [BACKSLASH; c] else [c])
                 ++ regex_of_expr rest
      | [] => if char_in c regex_metachars then [BACKSLASH; c] else [c]
      end
  end.

Definition build_regex (expressions : list str) : str :=
  u "^(" ++ join (u "|") (map regex_of_expr expressions) ++ u ")$".

Section GrammarParser.
(** [re.compile] answers a pattern object or raises; it is a parameter. *)
Context {pattern : Type} (re_compile : str -> result pattern).

Record GrammarParser := mkGrammarParser {
  gp_keywords : gset str;
  regex_rules : list (str * pattern);
}.

(** The body of [for line in f]. *)
Definition load_line (line : str) (gp : GrammarParser) : result GrammarParser :=
  let line := strip line in
  if bool_decide (line = []) || startswith line (ch "#") then Ok gp
  else
    match split_once ARROW line with
    | [lhs; rhs] =>
        let lhs := strip lhs in
        let rhs := map (fun s => strip_chars (u "'") (strip s)) (split_on (ch "|") rhs) in
        if bool_decide (lhs = u "Keyword")
        then Ok (mkGrammarParser (gp_keywords gp ∪ list_to_set rhs) (regex_rules gp))
        else
          compiled ← re_compile (build_regex rhs);
          Ok (mkGrammarParser (gp_keywords gp) (regex_rules gp ++ [(lhs, compiled)]))
    | _ => Raise ValueError     (* lhs, rhs = [line]: not enough values to unpack *)
    end.

(** [load_grammar]: [file] is the list of the lines of the file, or None
    when there is no file at the path. *)
Definition load_grammar (file : option (list str)) (gp : GrammarParser)
  : result GrammarParser :=
  match file with
  | Some lines => for_each load_line lines gp
  | None => Raise SystemExit       (* the message is printed, then sys.exit(1) *)
  end.

Definition GrammarParser_init (file : option (list str)) : result GrammarParser :=
  load_grammar file (mkGrammarParser ∅ []).

(** [Lexer(grammar_path)]. *)
Definition Lexer_new (file : option (list str)) : result Lexer :=
  gp ← GrammarParser_init file;
  Ok (Lexer_init (gp_keywords gp)).

End GrammarParser.

(** ** Grammars and LR(1) items (work2.py) *)

Record Production := mkProduction {
  left : str;
  right : list str;
}.

#[global] Instance Production_eq_dec : EqDecision Production.
Proof. solve_decision. Defined.

#[global] Instance Production_countable : Countable Production.
Proof.
  refine (inj_countable' (fun p => (left p, right p))
                         (fun lr => mkProduction lr.1 lr.2) _).
  by intros [].
Defined.

Record LR1Item := mkItem {
  production : Production;
  dot_position : nat;
  lookahead : str;
}.

#[global] Instance LR1Item_eq_dec : EqDecision LR1Item.
Proof. solve_decision. Defined.

#[global] Instance LR1Item_countable : Countable LR1Item.
Proof.
  refine (inj_countable' (fun i => (production i, dot_position i, lookahead i))
                         (fun t => mkItem t.1.1 t.1.2 t.2) _).
  by intros [].
Defined.

Definition get_next_symbol (item : LR1Item) : option str :=
  right (production item) !! dot_position item.

Definition is_complete (item : LR1Item) : bool :=
  bool_decide (length (right (production item)) ≤ dot_position item)%nat.

Record Grammar := mkGrammar {
  productions : list Production;
  terminals : gset str;
  non_terminals : gset str;
  start_symbol : option str;   (* None until the first rule is read *)
}.

Definition eps : str := [EPSILON].
Definition dollar : str := u "$".

(** ** FIRST sets ([LR1Parser._compute_first_sets]) *)

Abbreviation first_map := (gmap str (gset str)).

(** The dict comprehension and the loop that seeds the terminals. *)
Definition first_init (g : Grammar) : first_map :=
  set_fold (fun t first => <[t := default ∅ (first !! t) ∪ {[t]}]> first)
           (gset_to_gmap ∅ (terminals g ∪ non_terminals g))
           (terminals g).

(** The [for symbol in prod.right] loop with its [else] clause.  The set
    [first_symbol] is the set stored under [symbol]; when [symbol] is
    [lhs] itself the update adds nothing, so the value read before the
    update is the one tested after it. *)
Fixpoint first_symbols (lhs : str) (syms : list str) (st : first_map * bool)
  : result (first_map * bool) :=
  let '(first, changed) := st in
  match syms with
  | [] =>
      fl ← lookup_key first lhs;
      if decide (eps ∈ fl) then Ok (first, changed)
      else Ok (<[lhs := fl ∪ {[eps]}]> first, true)
  | symbol :: rest =>
      first_symbol ← lookup_key first symbol;
      fl ← lookup_key first lhs;
      let prev_size := size fl in
      let fl' := fl ∪ (first_symbol ∖ {[eps]}) in
      let first' := <[lhs := fl']> first in
      let changed' := if (prev_size <? size fl')%nat then true else changed in
      if decide (eps ∈ first_symbol) then first_symbols lhs rest (first', changed')
      else Ok (first', changed')
  end.

(** The body of [for prod in self.grammar.productions]. *)
Definition first_production (prod : Production) (st : first_map * bool)
  : result (first_map * bool) :=
  match right prod with
  | [] =>
      let '(first, changed) := st in
      fl ← lookup_key first (left prod);
      if decide (eps ∈ fl) then Ok (first, changed)
      else Ok (<[left prod := fl ∪ {[eps]}]> first, true)
  | _ => first_symbols (left prod) (right prod) st
  end.

Definition first_pass (g : Grammar) (first : first_map) : result (first_map * bool) :=
  for_each first_production (productions g) (first, false).

(** The [while changed] loop. *)
Fixpoint first_loop (fuel : nat) (g : Grammar) (first : first_map) : result first_map :=
  match fuel with
  | O => Raise LoopBound
  | S fuel' =>
      '(first', changed) ← first_pass g first;
      if (changed : bool) then first_loop fuel' g first' else Ok first'
  end.

(** Every pair (symbol, member of its FIRST set) the loop can ever hold. *)
Definition first_universe (g : Grammar) : gset (str * str) :=
  set_bind (fun k => set_map (pair k) (terminals g ∪ {[eps]}) : gset (str * str))
           (terminals g ∪ non_terminals g).

Definition _compute_first_sets (g : Grammar) : result first_map :=
  first_loop (S (size (first_universe g))) g (first_init g).

(** ** Item sets ([_compute_lookaheads], [_closure], [_goto], [_build_states])

    A set of items is the list of its members, each once; a frozenset used as
    a dict key is looked up by comparing members. *)

Abbreviation item_set := (list LR1Item).

Definition item_in (x : LR1Item) (s : item_set) : bool := bool_decide (x ∈ s).
Definition item_add (s : item_set) (x : LR1Item) : item_set :=
  if item_in x s then s else s ++ [x].
Definition same_items (a b : item_set) : bool :=
  forallb (fun x => item_in x b) a && forallb (fun x => item_in x a) b.

Fixpoint lookaheads_of (first_sets : first_map) (beta : list str) (la : str)
                       (first : gset str) : result (gset str) :=
  match beta with
  | [] => Ok (first ∪ {[la]})
  | symbol :: rest =>
      fs ← lookup_key first_sets symbol;
      let first := first ∪ fs in
      if decide (eps ∈ fs) then lookaheads_of first_sets rest la first
      else Ok first
  end.

Definition _compute_lookaheads (first_sets : first_map) (item : LR1Item)
  : result (gset str) :=
  if len (right (production item)) - 1 <=? Z.of_nat (dot_position item)
  then Ok {[lookahead item]}
  else
    let beta := drop (dot_position item + 1) (right (production item)) in
    first ← lookaheads_of first_sets beta (lookahead item) ∅;
    Ok (first ∖ {[eps]}).

(** The items one item of [result] contributes to [new_items]. *)
Definition closure_item (g : Grammar) (first_sets : first_map) (res : item_set)
                        (item : LR1Item) (new_items : item_set) : result item_set :=
  match get_next_symbol item with
  | Some next_sym =>
      if decide (next_sym ∈ non_terminals g) then
        lookaheads ← _compute_lookaheads first_sets item;
        Ok (foldl (fun new_items prod =>
                     if decide (left prod = next_sym) then
                       foldl (fun new_items la =>
                                let new_item := mkItem prod 0 la in
                                if item_in new_item res then new_items
                                else item_add new_items new_item)
                             new_items (elements lookaheads)
                     else new_items)
                  new_items (productions g))
      else Ok new_items
  | None => Ok new_items
  end.

Fixpoint closure_loop (fuel : nat) (g : Grammar) (first_sets : first_map)
                      (res : item_set) : result item_set :=
  match fuel with
  | O => Raise LoopBound
  | S fuel' =>
      new_items ← for_each (closure_item g first_sets res) res [];
      match new_items with
      | [] => Ok res
      | _ => closure_loop fuel' g first_sets (foldl item_add res new_items)
      end
  end.

Definition _closure (fuel : nat) (g : Grammar) (first_sets : first_map)
                    (items : item_set) : result item_set :=
  closure_loop fuel g first_sets items.

Definition _goto (fuel : nat) (g : Grammar) (first_sets : first_map)
                 (items : item_set) (symbol : str) : result item_set :=
  let next_items :=
    foldl (fun next_items item =>
             if decide (get_next_symbol item = Some symbol)
             then item_add next_items
                    (mkItem (production item) (dot_position item + 1) (lookahead item))
             else next_items)
          [] items in
  _closure fuel g first_sets next_items.

(** [sorted] on strings: the order of the code points. *)
Fixpoint str_leb (a b : str) : bool :=
  match a, b with
  | [], _ => true
  | _ :: _, [] => false
  | x :: a', y :: b' => (x <? y)%N || ((x =? y)%N && str_leb a' b')
  end.

Fixpoint insert_sorted (x : str) (l : list str) : list str :=
  match l with
  | [] => [x]
  | y :: l' => if str_leb x y then x :: l else y :: insert_sorted x l'
  end.

Definition sorted (l : list str) : list str := foldr insert_sorted [] l.

Abbreviation goto_map := (gmap (nat * str) nat).

Record states_acc := mkAcc {
  acc_states : list item_set;
  acc_state_map : list (item_set * nat);
  acc_goto : goto_map;
}.

(** [state_map[next_state]], if the key is there. *)
Definition state_map_get (state_map : list (item_set * nat)) (key : item_set) : option nat :=
  snd <$> find (fun kv => same_items kv.1 key) state_map.

(** The body of [for symbol in sorted(symbols)]. *)
Definition build_symbol (fuel : nat) (g : Grammar) (first_sets : first_map)
                        (index : nat) (state : item_set) (symbol : str)
                        (a : states_acc) : result states_acc :=
  next_state ← _goto fuel g first_sets state symbol;
  match next_state with
  | [] => Ok a
  | _ =>
      match state_map_get (acc_state_map a) next_state with
      | Some j => Ok (mkAcc (acc_states a) (acc_state_map a)
                            (<[(index, symbol) := j]> (acc_goto a)))
      | None =>
          let states := acc_states a ++ [next_state] in
          Ok (mkAcc states
                    (acc_state_map a ++ [(next_state, (length states - 1)%nat)])
                    (<[(index, symbol) := (length states - 1)%nat]> (acc_goto a)))
      end
  end.

(** The symbols right of a dot in a state; an empty symbol is skipped. *)
Definition next_symbols (state : item_set) : gset str :=
  list_to_set (omap (fun item => match get_next_symbol item with
                                 | Some (c :: s) => Some (c :: s)
                                 | _ => None
                                 end) state).

Fixpoint build_loop (fuel : nat) (cfuel : nat) (g : Grammar) (first_sets : first_map)
                    (index : nat) (a : states_acc) : result states_acc :=
  match acc_states a !! index with
  | None => Ok a                       (* index = len(states) *)
  | Some state =>
      match fuel with
      | O => Raise LoopBound
      | S fuel' =>
          a' ← for_each (build_symbol cfuel g first_sets index state)
                        (sorted (elements (next_symbols state))) a;
          build_loop fuel' cfuel g first_sets (S index) a'
      end
  end.

Definition _build_states (fuel : nat) (g : Grammar) (first_sets : first_map)
  : result (list item_set * goto_map) :=
  start_prod ← getitem (filter (fun p => Some (left p) = start_symbol g) (productions g)) 0;
  let initial_item := mkItem start_prod 0 dollar in
  initial_state ← _closure fuel g first_sets [initial_item];
  a ← build_loop fuel fuel g first_sets 0
                 (mkAcc [initial_state] [(initial_state, 0%nat)] ∅);
  Ok (acc_states a, acc_goto a).

(** ** ACTION and GOTO tables ([_build_parsing_tables]) *)

Inductive Action :=
| Shift (next_state : nat)
| Reduce (p : Production)
| Accept.

#[global] Instance Action_eq_dec : EqDecision Action.
Proof. solve_decision. Defined.

Abbreviation action_map := (gmap (nat * str) Action).

(** The body of the loop over [terminals | non_terminals] for state [i]. *)
Definition table_symbol (g : Grammar) (goto : goto_map) (i : nat) (symbol : str)
                        (t : action_map * goto_map) : action_map * goto_map :=
  match goto !! (i, symbol) with
  | Some next_state =>
      if decide (symbol ∈ terminals g)
      then (<[(i, symbol) := Shift next_state]> t.1, t.2)
      else (t.1, <[(i, symbol) := next_state]> t.2)
  | None => t
  end.

(** The body of [for item in state]. *)
Definition table_item (g : Grammar) (i : nat) (action : action_map) (item : LR1Item)
  : action_map :=
  if is_complete item then
    if decide (Some (left (production item)) = start_symbol g)
    then <[(i, dollar) := Accept]> action
    else match action !! (i, lookahead item) with
         | Some (Shift _) => action      (* the shift is kept *)
         | _ => <[(i, lookahead item) := Reduce (production item)]> action
         end
  else action.

(** [for item in state] visits the members in the order of the list: the
    order in which a frozenset is iterated is not determined by the source,
    and every order is some list. *)
Definition table_state (g : Grammar) (goto : goto_map) (t : action_map * goto_map)
                       (i : nat) (state : item_set) : action_map * goto_map :=
  let t1 := set_fold (table_symbol g goto i) t (terminals g ∪ non_terminals g) in
  (foldl (table_item g i) t1.1 state, t1.2).

Fixpoint table_states (g : Grammar) (goto : goto_map) (i : nat) (states : list item_set)
                      (t : action_map * goto_map) : action_map * goto_map :=
  match states with
  | [] => t
  | state :: rest => table_states g goto (S i) rest (table_state g goto t i state)
  end.

Definition _build_parsing_tables (g : Grammar) (states : list item_set) (goto : goto_map)
  : action_map * goto_map :=
  table_states g goto 0 states (∅, ∅).

(** ** The loader of the parser grammar ([Grammar._load_grammar]) *)

Section GrammarLoader.
Context (U : UnicodeData).

(** The body of [for part in parts]. *)
Definition load_part (part : str) (st : list str * Grammar) : result (list str * Grammar) :=
  let '(symbols, g) := st in
  let part := strip part in
  if bool_decide (part = eps) then Ok st
  else if bool_decide (part = u "ID") || bool_decide (part = u "CONSTANT") then
    Ok (symbols ++ [part],
        mkGrammar (productions g) ({[part]} ∪ terminals g) (non_terminals g) (start_symbol g))
  else if startswith part (ch "'") && endswith part (ch "'") then
    Ok (symbols ++ [part],
        mkGrammar (productions g) ({[part]} ∪ terminals g) (non_terminals g) (start_symbol g))
  else
    c0 ← getitem part 0;
    if isupper U c0 then
      Ok (symbols ++ [part],
          mkGrammar (productions g) (terminals g) ({[part]} ∪ non_terminals g) (start_symbol g))
    else
      let symbol := u "'" ++ part ++ u "'" in
      Ok (symbols ++ [symbol],
          mkGrammar (productions g) ({[symbol]} ∪ terminals g) (non_terminals g) (start_symbol g)).

(** The body of [for alternative in alternatives]. *)
Definition load_alternative (lhs : str) (alternative : str) (g : Grammar) : result Grammar :=
  '(symbols, g) ← for_each load_part (split_ws (strip alternative)) ([], g);
  Ok (mkGrammar (productions g ++ [mkProduction lhs symbols])
                (terminals g) (non_terminals g) (start_symbol g)).

(** The body of [for line in lines]. *)
Definition load_rule (line : str) (g : Grammar) : result Grammar :=
  match split_on ARROW line with
  | [lhs; rhs] =>
      let lhs := strip lhs in
      let start := match start_symbol g with
                   | None | Some [] => Some lhs
                   | Some s => Some s
                   end in
      let g := mkGrammar (productions g) (terminals g) ({[lhs]} ∪ non_terminals g) start in
      for_each (load_alternative lhs) (map strip (split_on (ch "|") rhs)) g
  | _ => Raise ValueError
  end.

Definition _load_grammar (file : option (list str)) (g : Grammar) : result Grammar :=
  match file with
  | Some lines =>
      for_each load_rule (filter (fun l => l <> []) (map strip lines)) g
  | None => Raise SystemExit
  end.

Definition Grammar_init (file : option (list str)) : result Grammar :=
  _load_grammar file (mkGrammar [] ∅ ∅ None).

End GrammarLoader.

(** ** The parser object and the parse driver ([LR1Parser]) *)

Record LR1Parser := mkParser {
  grammar : Grammar;
  first_sets : first_map;
  states : list item_set;
  goto : goto_map;
  action_table : action_map;
  goto_table : goto_map;
}.

(** [LR1Parser.__init__] once the grammar is loaded.  [fuel] bounds the turns
    of the closure loop and of the loop over the states. *)
Definition LR1Parser_init (fuel : nat) (g : Grammar)
  : result LR1Parser :=
  first ← _compute_first_sets g;
  '(sts, gt) ← _build_states fuel g first;
  let '(action, goto_tab) := _build_parsing_tables g sts gt in
  Ok (mkParser g first sts gt action goto_tab).

(** A scanner token as the parser receives it: (line, type, value). *)
Abbreviation ptoken := (Z * TokenType * str)%type.

Definition quoted (s : str) : str := u "'" ++ s ++ u "'".

Definition _convert_tokens (tokens : list ptoken) : list str :=
  map (fun t : ptoken =>
         match t.1.2 with
         | KEYWORD => quoted t.2
         | IDENTIFIER => u "ID"
         | CONSTANT => u "CONSTANT"
         | DELIMITER => quoted t.2
         | OPERATOR => quoted t.2
         | ERROR => quoted t.2
         end) tokens.

(** [str(n)] for an int. *)
Definition str_of_int (n : Z) : str := u (NilEmpty.string_of_int (Z.to_int n)).

Definition syntax_error_message (line_no : Z) (current_token : str) : str :=
  u "Line " ++ str_of_int line_no ++ u ": Syntax error, unexpected token '"
    ++ current_token ++ u "'".

(** [stack.pop()] repeated [n] times. *)
Fixpoint pop_n {A} (n : nat) (stack : list A) : result (list A) :=
  match n with
  | O => Ok stack
  | S n' => match stack with
            | [] => Raise IndexError
            | _ => pop_n n' (removelast stack)
            end
  end.

(** The [while True] loop of [parse]; it returns the pair (success, errors).
    The table builder enters only shift, reduce and accept actions, so the
    closing [else] of the driver has no entry to run on. *)
Fixpoint parse_loop (fuel : nat) (p : LR1Parser) (tokens : list ptoken)
                    (input_tokens : list str) (stack : list (nat * str))
                    (errors : list str) (pos : Z) : result (bool * list str) :=
  match fuel with
  | O => Raise LoopBound
  | S fuel' =>
      top ← getitem stack (-1);
      let state := top.1 in
      current_token ← getitem input_tokens pos;
      match action_table p !! (state, current_token) with
      | None =>
          line_no ← (if pos <? len tokens
                     then t ← getitem tokens pos; Ok t.1.1
                     else t ← getitem tokens (-1); Ok t.1.1);
          Ok (false, errors ++ [syntax_error_message line_no current_token])
      | Some (Shift value) =>
          parse_loop fuel' p tokens input_tokens (stack ++ [(value, current_token)])
                     errors (pos + 1)
      | Some (Reduce value) =>
          stack ← pop_n (length (right value)) stack;
          prev ← getitem stack (-1);
          let prev_state := prev.1 in
          goto_state ← lookup_key (goto_table p) (prev_state, left value);
          parse_loop fuel' p tokens input_tokens (stack ++ [(goto_state, left value)])
                     errors pos
      | Some Accept => Ok (true, errors)
      end
  end.

Definition parse (fuel : nat) (p : LR1Parser) (tokens : list ptoken)
  : result (bool * list str) :=
  parse_loop fuel p tokens (_convert_tokens tokens ++ [dollar]) [(0%nat, dollar)] [] 0.


(** ** Vocabulary of the properties *)

(** FIRST of a symbol in a dict of sets; a missing key has no member. *)
Definition first_of (first : first_map) (k : str) : gset str := default ∅ (first !! k).

Definition first_le (f1 f2 : first_map) : Prop :=
  dom f1 = dom f2 /\ forall k, first_of f1 k ⊆ first_of f2 k.

Definition first_lt (f1 f2 : first_map) : Prop :=
  first_le f1 f2 /\ exists k x, x ∈ first_of f2 k /\ x ∉ first_of f1 k.

(** The conditions of the fixed point on one production. *)
Definition prod_closed (F : str -> gset str) (lhs : str) (rhs : list str) : Prop :=
  (forall pre X post, rhs = pre ++ X :: post ->
     (forall Y, Y ∈ pre -> eps ∈ F Y) -> F X ∖ {[eps]} ⊆ F lhs) /\
  ((forall Y, Y ∈ rhs -> eps ∈ F Y) -> eps ∈ F lhs).

(** The fixed-point specification of FIRST. *)
Definition first_spec (g : Grammar) (F : str -> gset str) : Prop :=
  (forall t, t ∈ terminals g -> F t = {[t]}) /\
  (forall prod pre X post, prod ∈ productions g -> right prod = pre ++ X :: post ->
     (forall Y, Y ∈ pre -> eps ∈ F Y) -> F X ∖ {[eps]} ⊆ F (left prod)) /\
  (forall A, A ∈ non_terminals g ->
     eps ∈ F A <->
       (exists prod, prod ∈ productions g /\ left prod = A /\ right prod = []) \/
       (exists prod, prod ∈ productions g /\ left prod = A /\
                     forall Y, Y ∈ right prod -> eps ∈ F Y)).

(** One addition to the dict, licensed by a production. *)
Inductive first_update (g : Grammar) : first_map -> first_map -> Prop :=
| fu_symbol first prod pre X post fl fx :
    prod ∈ productions g -> right prod = pre ++ X :: post ->
    (forall Y, Y ∈ pre -> eps ∈ first_of first Y) ->
    first !! left prod = Some fl -> first !! X = Some fx ->
    first_update g first (<[left prod := fl ∪ (fx ∖ {[eps]})]> first)
| fu_eps first prod fl :
    prod ∈ productions g ->
    (forall Y, Y ∈ right prod -> eps ∈ first_of first Y) ->
    first !! left prod = Some fl ->
    first_update g first (<[left prod := fl ∪ {[eps]}]> first).

(** The pairs (symbol, member) of a dict, to count its members. *)
Definition first_pairs (first : first_map) : gset (str * str) :=
  set_bind (fun k => set_map (pair k) (first_of first k) : gset (str * str)) (dom first).

(** The dict holds terminals and the empty-string marker only, under the
    symbols of the grammar. *)
Definition first_bounded (g : Grammar) (first : first_map) : Prop :=
  dom first = terminals g ∪ non_terminals g /\
  forall k, first_of first k ⊆ terminals g ∪ {[eps]}.

(** Where the empty-string marker in a FIRST set comes from. *)
Definition eps_justified (g : Grammar) (first : first_map) : Prop :=
  forall k, eps ∈ first_of first k ->
    k ∈ terminals g \/
    exists prod, prod ∈ productions g /\ left prod = k /\
                 forall Y, Y ∈ right prod -> eps ∈ first_of first Y.

(** The facts about the position and the buffer that hold between two turns
    of the loop. *)
Definition scan_inv (s : Lexer) : Prop :=
  0 <= pos s /\
  match current_state s with
  | St_START => buffer s = []
  | St_NUMBER => 1 <= pos s /\ buffer s <> []
  | St_COMPLEX => 2 <= pos s
  | St_STRING => buffer s <> []
  | _ => True
  end.

(** The position stays at or above [b] once the scanner is in START at
    [b]: a back-step is made from a state that is further ahead. *)
Definition scan_floor (b : Z) (s : Lexer) : Prop :=
  b <= pos s /\
  match current_state s with
  | St_NUMBER => b + 1 <= pos s
  | St_COMPLEX => b + 2 <= pos s
  | _ => True
  end.

(** One turn of the loop of [tokenize], as a relation. *)
Definition turn (U : UnicodeData) (s s' : Lexer) : Prop :=
  pos s < len (current_input s) /\ step U s = Ok s'.

(** Two items agree when the entries they write in the loop of a state do
    not compete: one of them is not complete, or they write under different
    keys, or they write the same entry. *)
Definition writes_agree (g : Grammar) (x y : LR1Item) : bool :=
  negb (is_complete x) || negb (is_complete y) ||
  match bool_decide (Some (left (production x)) = start_symbol g),
        bool_decide (Some (left (production y)) = start_symbol g) with
  | true, true => true
  | true, false => negb (bool_decide (lookahead y = dollar))
  | false, true => negb (bool_decide (lookahead x = dollar))
  | false, false => negb (bool_decide (lookahead x = lookahead y))
                    || bool_decide (production x = production y)
  end.

(** No two items of a state compete. *)
Definition order_free (g : Grammar) (state : item_set) : bool :=
  forallb (fun x => forallb (writes_agree g x) state) state.

(** ** Grammars and inputs of the scenarios *)

(** The bound given to the loops of the constructor and of the driver in the
    scenarios. *)
Definition scenario_fuel : nat := 100.

Definition rule (lhs rhs : string) : str := u lhs ++ u " " ++ [ARROW] ++ u " " ++ u rhs ++ [NL].

(** The arithmetic grammar of scenarios S5 and S6, as a grammar file and as
    the value [_load_grammar] makes of it. *)
Definition arith_file : list str :=
  [ rule "E" "E '+' T | T"; rule "T" "T '*' F | F"; rule "F" "'(' E ')' | ID" ].

Definition G_arith : Grammar := mkGrammar
  [ mkProduction (u "E") [u "E"; u "'+'"; u "T"];
    mkProduction (u "E") [u "T"];
    mkProduction (u "T") [u "T"; u "'*'"; u "F"];
    mkProduction (u "T") [u "F"];
    mkProduction (u "F") [u "'('"; u "E"; u "')'"];
    mkProduction (u "F") [u "ID"] ]
  (list_to_set [u "'+'"; u "'*'"; u "'('"; u "')'"; u "ID"])
  (list_to_set [u "E"; u "T"; u "F"])
  (Some (u "E")).

(** The token sequence ID '+' '+' ID of scenario S6, every token on line 1. *)
Definition tokens_S6 (x y : str) : list ptoken :=
  [ (1, IDENTIFIER, x); (1, OPERATOR, u "+"); (1, OPERATOR, u "+"); (1, IDENTIFIER, y) ].

(** A grammar file in which the token name ID is also the left-hand side of
    a rule. *)
Definition id_rule_file : list str := [ rule "S" "ID"; rule "ID" "'x'" ].

(** A grammar file with a reduce-reduce conflict: after [a], both
    A -> 'a' and B -> 'a' are complete with the lookahead $ . *)
Definition rr_file : list str :=
  [ rule "S" "X"; rule "X" "A | B"; rule "A" "'a'"; rule "B" "'a'" ].

Definition prod_A : Production := mkProduction (u "A") [u "'a'"].
Definition prod_B : Production := mkProduction (u "B") [u "'a'"].

Definition G_rr : Grammar := mkGrammar
  [ mkProduction (u "S") [u "X"]; mkProduction (u "X") [u "A"];
    mkProduction (u "X") [u "B"]; prod_A; prod_B ]
  {[ u "'a'" ]}
  (list_to_set [u "S"; u "X"; u "A"; u "B"])
  (Some (u "S")).

(** The states and the goto function [_build_states] makes for it. *)
Definition rr_automaton : list item_set * goto_map :=
  match (first ← _compute_first_sets G_rr; _build_states scenario_fuel G_rr first) with
  | Ok r => r
  | Raise _ => ([], ∅)
  end.


(** [LR1Parser(grammar_file)], and the constructor followed by
    [parse(tokens)]. *)
Definition LR1Parser_new (U : UnicodeData) (file : list str) : result LR1Parser :=
  g ← Grammar_init U (Some file);
  LR1Parser_init scenario_fuel g.

Definition load_and_parse (U : UnicodeData) (file : list str) (tokens : list ptoken)
  : result (bool * list str) :=
  p ← LR1Parser_new U file;
  parse scenario_fuel p tokens.

(** Whether no state of the automaton built for a grammar file has competing
    items. *)
Definition states_order_free (U : UnicodeData) (file : list str) : result bool :=
  g ← Grammar_init U (Some file);
  first ← _compute_first_sets g;
  '(sts, _) ← _build_states scenario_fuel g first;
  Ok (forallb (order_free g) sts).
(** ** Vocabulary of the scanner's output *)

(** The characters of the tokens, in the order of the tokens. *)
Definition lexemes (ts : list Token) : str := concat (map tok_value ts).

(** What the type of a token says about its lexeme. *)
Definition lexeme_ok (U : UnicodeData) (kws : gset str) (t : Token) : Prop :=
  tok_value t <> [] /\
  match tok_type t with
  | OPERATOR => exists c, tok_value t = [c] /\ char_in c operator_chars = true
  | DELIMITER => exists c, tok_value t = [c] /\ char_in c delimiter_chars = true
  | ERROR => True
  | ty => determine_token_type U kws (tok_value t) = ty
  end.

(** The buffer is empty in START and holds the begun lexeme elsewhere. *)
Definition scan_buf (s : Lexer) : Prop :=
  match current_state s with
  | St_START => buffer s = []
  | _ => buffer s <> []
  end.

(** The characters that continue an identifier, and the characters START
    passes over. *)
Definition word_char (U : UnicodeData) (c : char) : bool :=
  isalnum U c || (c =? ch "_")%N.
Definition skipped_char (U : UnicodeData) (c : char) : bool :=
  negb (isalpha U c || (c =? ch "_")%N) && negb (isdigit U c) && negb (c =? DQUOTE)%N
  && negb (char_in c operator_chars) && negb (char_in c delimiter_chars).

(** The number of newlines of a text. *)
Definition newlines (code : str) : Z := len (filter (fun c => c = NL) code).

(** The slice [code[p:p+n]]. *)
Definition slice (code : str) (p : Z) (n : nat) : str := take n (drop (Z.to_nat p) code).

(** The buffer flushed at the end of [tokenize]. *)
Definition flush (U : UnicodeData) (s : Lexer) : Lexer :=
  match buffer s with [] => s | _ => finalize_token U s end.

(** The line stamps of a token list never go down. *)
Definition lines_ascend (out : list Token) : Prop :=
  forall i j t1 t2, (i <= j)%nat -> out !! i = Some t1 -> out !! j = Some t2 ->
                    tok_line t1 <= tok_line t2.

(** What holds of the instance [s] and of the tokens [out] it has emitted
    since [tokenize] was entered on [s0] with the text [code]. *)
Definition scan_out (U : UnicodeData) (code : str) (s0 s : Lexer) (out : list Token) : Prop :=
  keywords s = keywords s0 /\ current_input s = code /\
  line s0 <= line s /\ 0 <= pos s <= len code /\ scan_buf s /\
  tokens s = tokens s0 ++ out /\
  Forall (lexeme_ok U (keywords s0)) out /\
  Forall (fun t => line s0 <= tok_line t <= line s) out /\
  lines_ascend out /\
  sublist (lexemes out ++ buffer s) (take (Z.to_nat (pos s)) code).

(** ** Vocabulary of the loaders *)

(** A line the loader of the lexical grammar passes over: blank, or a
    comment. *)
Definition skipped_line (l : str) : bool :=
  bool_decide (strip l = []) || startswith (strip l) (ch "#").

(** The number of rule arrows of a line. *)
Definition arrows (l : str) : nat := length (filter (fun c => c = ARROW) l).

(** A line the loader of the parser grammar accepts: blank, or with exactly
    one arrow. *)
Definition rule_line_ok (l : str) : bool :=
  bool_decide (strip l = []) || (arrows (strip l) =? 1)%nat.

(** Every left-hand side is a non-terminal and every symbol of a right-hand
    side is a terminal or a non-terminal. *)
Definition symbols_declared (g : Grammar) : bool :=
  forallb (fun prod => bool_decide (left prod ∈ non_terminals g)
                       && forallb (fun X => bool_decide (X ∈ terminals g ∪ non_terminals g))
                                  (right prod))
          (productions g).

(** The start symbol is set and has a production, and no right-hand side
    holds the empty-string marker. *)
Definition start_declared (g : Grammar) : bool :=
  match start_symbol g with
  | Some s => bool_decide (s ∈ non_terminals g)
              && existsb (fun prod => bool_decide (left prod = s)) (productions g)
  | None => false
  end.
Definition eps_free (g : Grammar) : bool :=
  forallb (fun prod => forallb (fun X => negb (bool_decide (X = eps))) (right prod))
          (productions g).

(** The symbols of the productions are declared and none is the
    empty-string marker. *)
Definition prods_ok (g : Grammar) : Prop :=
  forall prod, prod ∈ productions g ->
    left prod ∈ non_terminals g /\
    Forall (fun X => X ∈ terminals g ∪ non_terminals g /\ X <> eps) (right prod).

Definition syms_ok (g : Grammar) (syms : list str) : Prop :=
  Forall (fun X => X ∈ terminals g ∪ non_terminals g /\ X <> eps) syms.

Definition grows (g g' : Grammar) : Prop :=
  terminals g ⊆ terminals g' /\ non_terminals g ⊆ non_terminals g' /\
  start_symbol g' = start_symbol g.

(** The start symbol is set, is a non-terminal and has a production. *)
Definition start_ok (g : Grammar) : Prop :=
  exists s, start_symbol g = Some s /\ s ∈ non_terminals g /\
            exists prod, prod ∈ productions g /\ left prod = s.


(** ** Vocabulary of the item sets *)

(** An item of the grammar: its production is one of the grammar, the dot
    stands inside the right-hand side or at its end, and the lookahead is a
    terminal or the end marker. *)
Definition item_ok (g : Grammar) (item : LR1Item) : Prop :=
  production item ∈ productions g /\
  (dot_position item <= length (right (production item)))%nat /\
  lookahead item ∈ terminals g ∪ {[dollar]}.

(** The item with the dot moved over one symbol. *)
Definition advance (item : LR1Item) : LR1Item :=
  mkItem (production item) (dot_position item + 1) (lookahead item).

(** [res] holds, for each of its items with the dot before a non-terminal,
    the initial items of the productions of that non-terminal under every
    lookahead [_compute_lookaheads] gives. *)
Definition closed_items (g : Grammar) (first_sets : first_map) (res : item_set) : Prop :=
  forall item B las prod la,
    item ∈ res -> get_next_symbol item = Some B -> B ∈ non_terminals g ->
    _compute_lookaheads first_sets item = Ok las ->
    prod ∈ productions g -> left prod = B -> la ∈ las ->
    mkItem prod 0 la ∈ res.

(** The grammar [_load_grammar] makes of the file with the rules S -> ID
    and ID -> 'x': ID is a terminal and a non-terminal. *)
Definition G_id : Grammar := mkGrammar
  [ mkProduction (u "S") [u "ID"]; mkProduction (u "ID") [u "'x'"] ]
  (list_to_set [u "ID"; u "'x'"])
  (list_to_set [u "S"; u "ID"])
  (Some (u "S")).

(** What holds of the states, of the dict of the states and of the goto
    function while [_build_states] runs: a state is not empty, holds each
    item once and is closed, the dict maps a state to its index, and a
    transition leads from a state to the state that is the [_goto] of it. *)
Definition acc_ok (cfuel : nat) (g : Grammar) (first_sets : first_map) (a : states_acc)
  : Prop :=
  Forall (fun st : item_set => st <> [] /\ NoDup st /\ closed_items g first_sets st)
         (acc_states a) /\
  (forall key j, (key, j) ∈ acc_state_map a -> acc_states a !! j = Some key) /\
  (forall i X j, acc_goto a !! (i, X) = Some j ->
     exists st tgt r, acc_states a !! i = Some st /\ acc_states a !! j = Some tgt /\
                      _goto cfuel g first_sets st X = Ok r /\ r <> [] /\
                      same_items tgt r = true).

(** ** Vocabulary of the tables *)

(** The entry [e] under the lookahead [a] is written by an item of
    [items]: the accept by a complete item of the start symbol, under the
    end marker, or a reduce by a complete item of another symbol with the
    lookahead [a]. *)
Definition item_entry (g : Grammar) (items : item_set) (a : str) (e : Action) : Prop :=
  match e with
  | Shift _ => False
  | Reduce p =>
      exists item, item ∈ items /\ is_complete item = true /\ production item = p /\
                   lookahead item = a /\ Some (left p) <> start_symbol g
  | Accept =>
      a = dollar /\
      exists item, item ∈ items /\ is_complete item = true /\
                   Some (left (production item)) = start_symbol g
  end.

(** Where the entry [e] of ACTION under state [i] and symbol [a] comes
    from: a shift from a transition of state [i] under a terminal, the others
    from an item of the state. *)
Definition entry_source (g : Grammar) (goto : goto_map) (i : nat) (state : item_set)
                        (a : str) (e : Action) : Prop :=
  match e with
  | Shift n => a ∈ terminals g /\ goto !! (i, a) = Some n
  | _ => item_entry g state a e
  end.

(** The state holds a complete item of the start symbol. *)
Definition accepts (g : Grammar) (state : item_set) : Prop :=
  exists item, item ∈ state /\ is_complete item = true /\
               Some (left (production item)) = start_symbol g.

(** ** Parsers of the scenarios *)

(** The parser of the arithmetic grammar file, and the parser of the file
    with the one rule S -> ε. *)
Definition arith_parser : LR1Parser :=
  match LR1Parser_new ascii_only arith_file return LR1Parser with
  | Ok p => p
  | Raise _ => mkParser G_arith ∅ [] ∅ ∅ ∅
  end.

Definition eps_rule_file : list str := [ u "S " ++ [ARROW] ++ u " " ++ [EPSILON; NL] ].

Definition eps_parser : LR1Parser :=
  match LR1Parser_new ascii_only eps_rule_file return LR1Parser with
  | Ok p => p
  | Raise _ => mkParser G_arith ∅ [] ∅ ∅ ∅
  end.

(** The FIRST sets, the first state and the automaton of the arithmetic
    grammar, and the first state of the automaton of the grammar with the
    reduce-reduce conflict. *)
Definition arith_first : first_map :=
  match _compute_first_sets G_arith return first_map with
  | Ok f => f
  | Raise _ => ∅
  end.

Definition arith_item0 : LR1Item :=
  mkItem (mkProduction (u "E") [u "E"; u "'+'"; u "T"]) 0 dollar.

Definition arith_state0 : item_set :=
  match _closure scenario_fuel G_arith arith_first [arith_item0] return item_set with
  | Ok r => r
  | Raise _ => []
  end.

Definition arith_goto_ID : item_set :=
  match _goto scenario_fuel G_arith arith_first arith_state0 (u "ID")
        return item_set with
  | Ok r => r
  | Raise _ => []
  end.

Definition arith_automaton : list item_set * goto_map :=
  match _build_states scenario_fuel G_arith arith_first
        return list item_set * goto_map with
  | Ok r => r
  | Raise _ => ([], ∅)
  end.

Definition rr_state0 : item_set := default [] (rr_automaton.1 !! 0%nat).

(** The characters that continue a number, and the characters of the inside
    of a string literal. *)
Definition number_char (U : UnicodeData) (c : char) : bool :=
  isdigit U c || (c =? ch ".")%N || lower_is_e c || char_in c [ch "+"; ch "-"].
Definition string_char (c : char) : bool := negb (c =? DQUOTE)%N && negb (c =? NL)%N.

(** The initial items the closure can add: every production of the grammar
    under every terminal and the end marker. *)
Definition candidates (g : Grammar) : item_set :=
  flat_map (fun prod => map (mkItem prod 0) (elements (terminals g ∪ {[dollar]})))
           (productions g).

(** The operator and delimiter characters, and the token START makes of
    one of them. *)
Definition punct_char (c : char) : bool :=
  char_in c operator_chars || char_in c delimiter_chars.
Definition punct_token (ln : Z) (c : char) : Token :=
  mkToken ln (if char_in c operator_chars then OPERATOR else DELIMITER) [c].

(** ** Vocabulary of repeated calls of the scanner *)

(** A token with its line stamp moved by [d], and an instance whose line
    counter stands [d] higher and whose tokens are [pre] followed by the
    tokens of [s] moved by [d]. *)
Definition shift_line (d : Z) (t : Token) : Token :=
  mkToken (tok_line t + d) (tok_type t) (tok_value t).
Definition shifted (d : Z) (pre : list Token) (s : Lexer) : Lexer :=
  mkLexer (keywords s) (line s + d) (pos s) (pre ++ map (shift_line d) (tokens s))
          (current_state s) (buffer s) (current_input s).

(** ** Vocabulary of the conflicts of a state *)

(** The shift the loop over the symbols enters for state [i] under [a]. *)
Definition shift_entered (g : Grammar) (goto : goto_map) (i : nat) (a : str) : option nat :=
  if decide (a ∈ terminals g) then goto !! (i, a) else None.

(** [items] holds a complete item of the start symbol: the loop over the
    items writes the accept under the end marker when it visits it. *)
Definition accepting (g : Grammar) (items : item_set) : bool :=
  existsb (fun x => is_complete x
                    && bool_decide (Some (left (production x)) = start_symbol g)) items.

(** The item proposes a reduce under the lookahead [a]. *)
Definition proposes_reduce (g : Grammar) (a : str) (x : LR1Item) : bool :=
  is_complete x && bool_decide (lookahead x = a)
  && negb (bool_decide (Some (left (production x)) = start_symbol g)).

(** The entry of a state under [a] when [last] is the last of its items
    that proposes a reduce under [a], the items [before] are visited before
    it and the items [after] behind it: the accept, written behind it; or
    the shift, entered before all items and not overwritten by an accept;
    or the reduce of [last]. *)
Definition conflict_winner (g : Grammar) (goto : goto_map) (i : nat) (a : str)
                           (before : item_set) (last : LR1Item) (after : item_set)
  : Action :=
  if bool_decide (a = dollar) && accepting g after then Accept
  else match shift_entered g goto i a with
       | Some n => if bool_decide (a = dollar) && accepting g before
                   then Reduce (production last) else Shift n
       | None => Reduce (production last)
       end.

(** ** Vocabulary of the FIRST sets of a grammar with shared symbols *)

(** What the loop of [_compute_first_sets] closes its dict under: the seed
    of every terminal, and the conditions of every production. *)
Definition first_closed (g : Grammar) (F : str -> gset str) : Prop :=
  (forall t, t ∈ terminals g -> t ∈ F t) /\
  (forall prod, prod ∈ productions g -> prod_closed F (left prod) (right prod)).

(** Where the empty-string marker in a FIRST set comes from: the seed of a
    terminal that is the marker itself, or a production whose right-hand
    side can vanish. *)
Definition eps_source (g : Grammar) (first : first_map) : Prop :=
  forall k, eps ∈ first_of first k ->
    (k = eps /\ eps ∈ terminals g) \/
    exists prod, prod ∈ productions g /\ left prod = k /\
                 forall Y, Y ∈ right prod -> eps ∈ first_of first Y.

(** ** Vocabulary of the number of states *)

(** Every item of the grammar: a production of the grammar, the dot inside
    the right-hand side or at its end, a terminal or the end marker as
    lookahead. *)
Definition all_items (g : Grammar) : item_set :=
  flat_map (fun prod =>
              flat_map (fun d => map (mkItem prod d) (elements (terminals g ∪ {[dollar]})))
                       (seq 0 (S (length (right prod)))))
           (productions g).

(** The lists of [n] truth values, and the list that tells of each item of
    [univ] whether the set [st] holds it. *)
Fixpoint all_vecs (n : nat) : list (list bool) :=
  match n with
  | O => [[]]
  | S n' => map (cons true) (all_vecs n') ++ map (cons false) (all_vecs n')
  end.
Definition char_vec (univ st : item_set) : list bool := map (fun x => item_in x st) univ.

(** No two states of the list hold the same items. *)
Definition states_distinct (sts : list item_set) : Prop :=
  forall i j si sj, sts !! i = Some si -> sts !! j = Some sj ->
                    same_items si sj = true -> i = j.

(** What holds of the states and of their dict while [_build_states] runs:
    the states hold items of the grammar, every state is a key of the dict,
    and no two states hold the same items. *)
Definition acc_counted (g : Grammar) (a : states_acc) : Prop :=
  Forall (Forall (item_ok g)) (acc_states a) /\
  (forall j st, acc_states a !! j = Some st -> (st, j) ∈ acc_state_map a) /\
  states_distinct (acc_states a).

(** A bound that is enough for the loops of [_build_states]: the closure
    loop adds a new initial item in every turn but the last, and the loop
    over the states visits every set of items at most once. *)
Definition states_bound (g : Grammar) : nat :=
  length (candidates g) + 2 ^ length (all_items g).

(** ** Vocabulary of the runs of the driver *)

(** The stack and the position that a turn of the loop of [parse] hands to
    the next turn: after a shift, or after a reduce whose pops and lookups
    succeed.  A turn that ends the parse, by returning or by raising, hands
    on nothing. *)
Definition parse_next (p : LR1Parser) (input_tokens : list str)
                      (c : list (nat * str) * Z) : option (list (nat * str) * Z) :=
  match getitem c.1 (-1), getitem input_tokens c.2 with
  | Ok top, Ok current_token =>
      match action_table p !! (top.1, current_token) with
      | Some (Shift value) => Some (c.1 ++ [(value, current_token)], c.2 + 1)
      | Some (Reduce value) =>
          match (stack ← pop_n (length (right value)) c.1;
                 prev ← getitem stack (-1);
                 goto_state ← lookup_key (goto_table p) (prev.1, left value);
                 Ok (stack ++ [(goto_state, left value)])) with
          | Ok stack => Some (stack, c.2)
          | Raise _ => None
          end
      | _ => None
      end
  | _, _ => None
  end.

(** The stack and the position after [n] turns. *)
Fixpoint parse_after (n : nat) (p : LR1Parser) (input_tokens : list str)
                     (c : list (nat * str) * Z) : option (list (nat * str) * Z) :=
  match n with
  | O => Some c
  | S n' => match parse_next p input_tokens c with
            | Some c' => parse_after n' p input_tokens c'
            | None => None
            end
  end.

(** The turn at the stack and the position [c] ends the parse with the
    result [(b, errs)]: with success and no error at an accept entry, with
    failure and one message where the state on top of the stack has no entry
    under the current symbol.  The message names that symbol and the line of
    the token at the position, or of the last token behind the tokens. *)
Definition parse_ends (p : LR1Parser) (tokens : list ptoken) (input_tokens : list str)
                      (c : list (nat * str) * Z) (b : bool) (errs : list str) : Prop :=
  exists top current_token,
    getitem c.1 (-1) = Ok top /\ getitem input_tokens c.2 = Ok current_token /\
    ((b = true /\ errs = [] /\
      action_table p !! (top.1, current_token) = Some Accept) \/
     (b = false /\ action_table p !! (top.1, current_token) = None /\
      exists t, getitem tokens (if c.2 <? len tokens then c.2 else -1) = Ok t /\
                errs = [syntax_error_message t.1.1 current_token])).

(** * Properties of the scanner *)

Section ScannerFacts.
Context (U : UnicodeData).

Lemma bind_Ok {A B} (m : result A) (f : A -> result B) (b : B) :
  (m ≫= f) = Ok b -> exists a, m = Ok a /\ f a = Ok b.
Proof. destruct m as [a|e]; simpl; [eauto | discriminate]. Qed.

Lemma len_app {A} (l1 l2 : list A) : len (l1 ++ l2) = len l1 + len l2.
Proof. unfold len. rewrite length_app. lia. Qed.

Lemma len_nonneg {A} (l : list A) : 0 <= len l.
Proof. unfold len. lia. Qed.

Lemma len_cons {A} (a : A) (l : list A) : len (a :: l) = 1 + len l.
Proof. unfold len. simpl. lia. Qed.

Lemma getitem_app_mid {A} (l1 l2 : list A) (a : A) :
  getitem (l1 ++ a :: l2) (len l1) = Ok a.
Proof.
  unfold getitem. pose proof (len_nonneg l1) as H.
  destruct (len l1 <? 0) eqn:E; [apply Z.ltb_lt in E; lia |]. rewrite E.
  unfold len. rewrite Nat2Z.id.
  rewrite nth_error_app2 by lia. by rewrite Nat.sub_diag.
Qed.

Lemma getitem_in_range {A} (l : list A) (i : Z) :
  0 <= i < len l -> exists a, getitem l i = Ok a.
Proof.
  intros [H0 H1]. unfold getitem.
  destruct (i <? 0) eqn:E; [apply Z.ltb_lt in E; lia |]. rewrite E.
  destruct (nth_error l (Z.to_nat i)) eqn:En; [eauto |].
  apply nth_error_None in En. unfold len in H1. lia.
Qed.

Lemma getitem_last {A} (l : list A) (a : A) : getitem (l ++ [a]) (-1) = Ok a.
Proof.
  unfold getitem. simpl. rewrite len_app. pose proof (len_nonneg l).
  change (len [a]) with 1.
  destruct (len l + 1 + -1 <? 0) eqn:E; [apply Z.ltb_lt in E; lia |].
  replace (Z.to_nat (len l + 1 + -1)) with (length l) by (unfold len; lia).
  rewrite nth_error_app2 by lia. by rewrite Nat.sub_diag.
Qed.

Lemma getitem_before_last {A} (l : list A) (a b : A) :
  getitem (l ++ [a; b]) (-2) = Ok a.
Proof.
  unfold getitem. simpl. rewrite len_app. pose proof (len_nonneg l).
  change (len [a; b]) with 2.
  destruct (len l + 2 + -2 <? 0) eqn:E; [apply Z.ltb_lt in E; lia |].
  replace (Z.to_nat (len l + 2 + -2)) with (length l) by (unfold len; lia).
  rewrite nth_error_app2 by lia. by rewrite Nat.sub_diag.
Qed.

Lemma nonempty_snoc {A} (l : list A) : l <> [] -> exists l' a, l = l' ++ [a].
Proof.
  intros H. destruct (exists_last H) as (l' & a & ->). eauto.
Qed.

Lemma zero_run_mono fuel code p buf p' buf' :
  zero_run U fuel code p buf = Ok (p', buf') -> p <= p'.
Proof.
  revert p buf. induction fuel as [|fuel IH]; intros p buf H; simpl in H.
  - injection H as <- <-. lia.
  - destruct (p <? len code); [| injection H as <- <-; lia].
    apply bind_Ok in H as (c & _ & H).
    destruct (isdigit U c); [apply IH in H; lia | injection H as <- <-; lia].
Qed.

Lemma zero_run_total fuel code p buf :
  0 <= p -> exists p' buf', zero_run U fuel code p buf = Ok (p', buf').
Proof.
  revert p buf. induction fuel as [|fuel IH]; intros p buf Hp; simpl; [eauto |].
  destruct (p <? len code) eqn:E; [| eauto]. apply Z.ltb_lt in E.
  destruct (getitem_in_range code p) as [c ->]; [lia |]. simpl.
  destruct (isdigit U c); [apply IH; lia | eauto].
Qed.

(** Case analysis on the branches a handler took to reach its result. *)
Ltac handler_cases H :=
  repeat (first [ discriminate
                | match type of H with
                  | (_ ≫= _) = Ok _ => apply bind_Ok in H as (? & ? & H)
                  | context [if ?b then _ else _] => destruct b eqn:?
                  | context [match ?b with _ => _ end] => destruct b eqn:?
                  | Ok _ = Ok _ => injection H as <-
                  end ]; simpl in * ).

Ltac unfold_handlers H :=
  unfold dispatch, handle_start, handle_identifier, handle_number, handle_scientific,
    handle_complex, handle_string in H.

(** Every handler leaves the input alone and, when it moves the position
    back, returns to START: the bound on the turns left goes down. *)
Lemma step_decreases s s' :
  pos s < len (current_input s) -> step U s = Ok s' ->
  current_input s' = current_input s /\ turns_left s' < turns_left s.
Proof.
  intros Hpos H. unfold step in H. apply bind_Ok in H as (c & _ & H).
  unfold_handlers H.
  destruct s as [kw ln p ts st buf inp]; unfold turns_left; simpl in *.
  destruct st; simpl in H; handler_cases H;
    try match goal with Hz : zero_run _ _ _ _ _ = Ok _ |- _ => apply zero_run_mono in Hz end;
    (split; [reflexivity | simpl; lia]).
Qed.

Lemma snoc_not_nil {A} (l : list A) (a : A) : l ++ [a] <> [].
Proof. destruct l; discriminate. Qed.

Lemma scan_inv_reset code s : scan_inv (tokenize_reset code s).
Proof. unfold scan_inv. simpl. split; [lia | done]. Qed.

Lemma scan_inv_step s s' :
  scan_inv s -> step U s = Ok s' -> scan_inv s'.
Proof.
  intros [Hp Hst] H. unfold step in H. apply bind_Ok in H as (c & _ & H).
  unfold_handlers H.
  destruct s as [kw ln p ts st buf inp]; unfold scan_inv; simpl in *.
  destruct st; simpl in H; handler_cases H;
    try match goal with Hz : zero_run _ _ _ _ _ = Ok _ |- _ => apply zero_run_mono in Hz end;
    repeat split; try lia; try apply snoc_not_nil; try tauto; try done.
Qed.

Lemma scan_floor_step b s s' :
  scan_floor b s -> step U s = Ok s' -> scan_floor b s'.
Proof.
  intros [Hp Hst] H. unfold step in H. apply bind_Ok in H as (c & _ & H).
  unfold_handlers H.
  destruct s as [kw ln p ts st buf inp]; unfold scan_floor; simpl in *.
  destruct st; simpl in H; handler_cases H;
    try match goal with Hz : zero_run _ _ _ _ _ = Ok _ |- _ => apply zero_run_mono in Hz end;
    repeat split; try lia; try done.
Qed.

(** The scanner never goes back before a position at which it was in
    START. *)
Lemma start_position_is_floor s s' :
  current_state s = St_START -> rtc (turn U) s s' -> pos s <= pos s'.
Proof.
  intros Hst Hrtc.
  assert (Hfloor : scan_floor (pos s) s) by (unfold scan_floor; rewrite Hst; split; [lia | done]).
  revert Hfloor. generalize (pos s) as b. clear Hst.
  induction Hrtc as [s|s1 s2 s3 [_ Hstep] _ IH]; intros b Hfloor; [apply Hfloor |].
  apply IH. by eapply scan_floor_step.
Qed.

Lemma reachable_inv code s :
  reachable U code s -> current_input s = code /\ scan_inv s.
Proof.
  induction 1 as [s | s s' _ [Hin Hinv] Hpos Hstep].
  - split; [reflexivity | apply scan_inv_reset].
  - split; [| by eapply scan_inv_step].
    subst code. by apply step_decreases in Hstep as [-> _].
Qed.

(** Under these facts no turn of the loop raises. *)
Lemma step_total s :
  scan_inv s -> pos s < len (current_input s) -> exists s', step U s = Ok s'.
Proof.
  intros [Hp Hst] Hlt. unfold step.
  destruct (getitem_in_range (current_input s) (pos s)) as [c ->]; [lia |]. simpl.
  destruct s as [kw ln p ts st buf inp]; simpl in *.
  set (s1 := if (c =? NL)%N then _ else _).
  assert (Hs1 : pos s1 = p + 1 /\ buffer s1 = buf /\ current_state s1 = st
                /\ current_input s1 = inp).
  { subst s1. by destruct (c =? NL)%N. }
  destruct Hs1 as (Hp1 & Hb1 & Hst1 & Hin1). clearbody s1.
  unfold dispatch. rewrite Hst1. destruct st.
  - unfold handle_start. repeat case_match; eauto.
  - unfold handle_identifier. repeat case_match; eauto.
  - destruct Hst as [_ Hne]. unfold handle_number.
    destruct (nonempty_snoc buf Hne) as (b' & a & Hbuf). rewrite Hb1, Hbuf.
    rewrite getitem_last. simpl.
    repeat case_match; eauto;
      match goal with
      | |- context [zero_run U ?f ?c ?q ?b] =>
          destruct (zero_run_total f c q b) as (? & ? & ->); [simpl; lia |]
      end; simpl; eauto.
  - unfold handle_scientific. repeat case_match; eauto.
  - unfold handle_complex. repeat case_match; eauto.
  - unfold handle_string. rewrite Hb1.
    destruct (nonempty_snoc buf Hst) as (b' & a & Hbuf). rewrite Hbuf.
    simpl. rewrite <- app_assoc. simpl. rewrite getitem_before_last. simpl.
    repeat case_match; simpl; repeat case_match; eauto.
Qed.

Lemma run_total fuel s :
  scan_inv s -> turns_left s <= Z.of_nat fuel -> exists s', run U fuel s = Ok s'.
Proof.
  revert s. induction fuel as [|fuel IH]; intros s Hinv Hfuel; simpl.
  - destruct (pos s <? len (current_input s)) eqn:E; [| eauto].
    apply Z.ltb_lt in E. unfold turns_left in Hfuel.
    destruct (current_state s); simpl in Hfuel; lia.
  - destruct (pos s <? len (current_input s)) eqn:E; [| eauto].
    apply Z.ltb_lt in E.
    destruct (step_total s Hinv E) as [s' Hstep]. rewrite Hstep. simpl.
    apply IH; [by eapply scan_inv_step |].
    apply step_decreases in Hstep as [_ Hlt]; [lia | done].
Qed.

(** [tokenize] returns on every input, whatever the instance it is called
    on. *)
Lemma tokenize_total code s : exists s', tokenize U code s = Ok s'.
Proof.
  unfold tokenize.
  destruct (run_total (Z.to_nat (turns_left (tokenize_reset code s)))
                      (tokenize_reset code s)) as [s1 ->].
  - apply scan_inv_reset.
  - unfold turns_left. simpl. pose proof (len_nonneg code). lia.
  - simpl. eauto.
Qed.

End ScannerFacts.

Section ScannerClaims.
Context (U : UnicodeData).

Lemma isdigit_not_newline c : isdigit U c = true -> (c =? NL)%N = false.
Proof.
  intros H. destruct (c =? NL)%N eqn:E; [| reflexivity].
  apply N.eqb_eq in E. subst c. discriminate.
Qed.

Lemma zero_run_digits ds pre rest buf fuel :
  forallb (isdigit U) ds = true ->
  match rest with [] => true | c :: _ => negb (isdigit U c) end = true ->
  (length ds <= fuel)%nat ->
  zero_run U fuel (pre ++ ds ++ rest) (len pre) buf = Ok (len pre + len ds, buf ++ ds).
Proof.
  revert pre buf fuel. induction ds as [|d ds IH]; intros pre buf fuel Hds Hrest Hfuel.
  - rewrite app_nil_r, Z.add_0_r. simpl.
    destruct fuel as [|fuel]; [reflexivity |]. simpl.
    destruct rest as [|c rest].
    + rewrite app_nil_r, Z.ltb_irrefl. reflexivity.
    + rewrite getitem_app_mid. apply negb_true_iff in Hrest.
      simpl. rewrite Hrest. by destruct (len pre <? len (pre ++ c :: rest)).
  - simpl in Hds. apply andb_true_iff in Hds as [Hd Hds].
    destruct fuel as [|fuel]; [simpl in Hfuel; lia |]. simpl.
    rewrite getitem_app_mid.
    assert (E : (len pre <? len (pre ++ d :: ds ++ rest)) = true).
    { apply Z.ltb_lt. rewrite len_app, len_cons. pose proof (len_nonneg (ds ++ rest)). lia. }
    rewrite E. simpl. rewrite Hd.
    replace (pre ++ d :: ds ++ rest) with ((pre ++ [d]) ++ ds ++ rest)
      by (by rewrite <- app_assoc).
    replace (len pre + 1) with (len (pre ++ [d])) by (rewrite len_app; reflexivity).
    rewrite IH; [| done | done | simpl in Hfuel; lia].
    rewrite len_app, <- app_assoc. simpl. rewrite (len_cons d ds).
    change (len [d]) with 1. f_equal. f_equal. lia.
Qed.

(** C1 (as amended): a character dispatched in START that is no letter, no
    underscore, no digit, no double quote, no operator and no delimiter is
    skipped: the handler emits no token and leaves the instance as it was,
    whether the character is a blank or not. *)
Theorem C1_start_skips_other_characters c s :
  current_state s = St_START ->
  isalpha U c = false -> (c =? ch "_")%N = false -> isdigit U c = false ->
  (c =? DQUOTE)%N = false ->
  char_in c operator_chars = false -> char_in c delimiter_chars = false ->
  dispatch U c s = Ok s.
Proof.
  intros Hst Ha Hu Hd Hq Ho Hl. unfold dispatch, handle_start.
  rewrite Hst, Ha, Hu, Hd, Hq, Ho, Hl. cbn [orb]. by case_match.
Qed.

(** C4 (as amended): whenever the loop of [tokenize] is in START at a zero
    that at least one digit follows, the next two turns of the loop take the
    whole run of digits, emit one ERROR token that carries the run and no
    other token, and leave the scanner in START behind the run; no later
    turn moves the position back into the run. *)
Theorem C4_leading_zero_run_in_start code s pre ds rest :
  reachable U code s -> current_state s = St_START ->
  code = pre ++ ch "0" :: ds ++ rest -> pos s = len pre ->
  ds <> [] -> forallb (isdigit U) ds = true ->
  match rest with [] => true | c :: _ => negb (isdigit U c) end = true ->
  exists s1 s2,
    step U s = Ok s1 /\ step U s1 = Ok s2 /\
    tokens s2 = tokens s ++ [mkToken (line s) ERROR (ch "0" :: ds)] /\
    pos s2 = len pre + 1 + len ds /\
    current_state s2 = St_START /\ buffer s2 = [] /\
    forall s3, rtc (turn U) s2 s3 -> pos s2 <= pos s3.
Proof.
  intros Hreach Hst Hcode Hpos Hne Hds Hrest.
  apply reachable_inv in Hreach as [Hin [_ Hbuf]]. rewrite Hst in Hbuf.
  rewrite Hcode in Hin. clear Hcode.
  destruct ds as [|d ds]; [done |]. simpl in Hds.
  apply andb_true_iff in Hds as [Hd Hds].
  destruct s as [kw ln p ts st buf inp]; simpl in *. subst st buf inp p.
  set (inp := pre ++ ch "0" :: d :: ds ++ rest).
  exists (mkLexer kw ln (len pre + 1) ts St_NUMBER [ch "0"] inp),
         (mkLexer kw ln (len pre + 1 + len (d :: ds))
                  (ts ++ [mkToken ln ERROR (ch "0" :: d :: ds)]) St_START [] inp).
  split; [| split; [| repeat split; intros s3; by apply start_position_is_floor]].
  - unfold step. cbn [current_input pos]. subst inp. rewrite getitem_app_mid.
    reflexivity.
  - unfold step. cbn [current_input pos].
    assert (Hget : getitem inp (len pre + 1) = Ok d).
    { subst inp.
      replace (pre ++ ch "0" :: d :: ds ++ rest)
        with ((pre ++ [ch "0"]) ++ d :: ds ++ rest) by (by rewrite <- app_assoc).
      replace (len pre + 1) with (len (pre ++ [ch "0"])) by (rewrite len_app; reflexivity).
      apply getitem_app_mid. }
    rewrite Hget. cbn [mbind result_bind]. rewrite (isdigit_not_newline d Hd).
    unfold dispatch, handle_number.
    cbn [current_state set_pos buffer keywords line pos tokens current_input].
    change ((ch "0" =? ch "0")%N) with true. rewrite Hd. cbn [andb].
    cbn [set_buffer current_state set_pos buffer keywords line pos tokens current_input app].
    assert (Hrun : zero_run U (Z.to_nat (len inp - (len pre + 1 + 1))) inp
                            (len pre + 1 + 1) [ch "0"; d]
                   = Ok (len pre + 1 + 1 + len ds, [ch "0"; d] ++ ds)).
    { subst inp.
      replace (pre ++ ch "0" :: d :: ds ++ rest)
        with ((pre ++ [ch "0"; d]) ++ ds ++ rest) by (by rewrite <- app_assoc).
      replace (len pre + 1 + 1) with (len (pre ++ [ch "0"; d]))
        by (rewrite len_app; change (len [ch "0"; d]) with 2; lia).
      apply zero_run_digits; [done | done |].
      rewrite !len_app. unfold len. lia. }
    rewrite Hrun. cbn [mbind result_bind].
    cbv [add_error append_token set_state set_pos set_buffer set_tokens
         keywords line pos tokens current_state buffer current_input].
    rewrite (len_cons d ds). f_equal. f_equal. lia.
Qed.

(** C9: in every state the loop of [tokenize] reaches, when the COMPLEX
    handler takes its last branch and moves the position two characters
    back, the position it leaves is at least 1. *)
Theorem C9_complex_back_step_stays_positive code s c :
  reachable U code s -> current_state s = St_COMPLEX ->
  pos s < len code -> getitem code (pos s) = Ok c ->
  complex_falls_back U c s = true ->
  exists s', step U s = Ok s' /\ pos s' = pos s + 1 - 2 /\ 1 <= pos s'.
Proof.
  intros Hreach Hst Hlt Hget Hfall.
  apply reachable_inv in Hreach as [Hin [_ Hinv]]. rewrite Hst in Hinv.
  unfold step. rewrite Hin, Hget. simpl.
  unfold complex_falls_back in Hfall.
  apply andb_true_iff in Hfall as [Hfall Hi]. apply andb_true_iff in Hfall as [Hd Hdot].
  apply negb_true_iff in Hd, Hdot, Hi.
  destruct s as [kw ln p ts st buf inp]; simpl in *. subst st.
  assert (Hstep : forall s1 : Lexer,
             pos s1 = p + 1 -> buffer s1 = buf -> current_state s1 = St_COMPLEX ->
             exists s', dispatch U c s1 = Ok s' /\ pos s' = p + 1 - 2 /\ 1 <= pos s').
  { intros s1 Hp1 Hb1 Hs1. unfold dispatch, handle_complex. rewrite Hs1, Hb1, Hd, Hdot, Hi.
    eexists. split; [reflexivity |]. destruct (removelast buf); simpl; lia. }
  destruct (c =? NL)%N; apply Hstep; reflexivity.
Qed.

End ScannerClaims.

(** C1 (counterexample): the scanner emits no token at all for the text
    [@]; the character is dropped without an ERROR token. *)
Lemma C1_other_character_dropped :
  tokenize_tokens ascii_only (u "@") (Lexer_init ∅) = Ok [].
Proof. vm_compute. reflexivity. Qed.

(** The amended C1 at the character [@]. *)
Lemma C1_start_skips_witness :
  dispatch ascii_only (ch "@") (Lexer_init ∅) = Ok (Lexer_init ∅).
Proof.
  apply (C1_start_skips_other_characters ascii_only (ch "@") (Lexer_init ∅));
    reflexivity.
Defined.

(** C3 (the code at the failing input): an identifier that a newline ends is
    stamped with line 2 although it begins on line 1, and the identifier on
    the second line is stamped with line 3: the newline is counted before
    the token is emitted and once more when it is dispatched again. *)
Theorem C3_line_of_newline_terminated_token U :
  tokenize_tokens U (u "abc" ++ [NL]) (Lexer_init ∅)
    = Ok [mkToken 2 IDENTIFIER (u "abc")] /\
  tokenize_tokens U (u "abc" ++ [NL] ++ u "def") (Lexer_init ∅)
    = Ok [mkToken 2 IDENTIFIER (u "abc"); mkToken 3 IDENTIFIER (u "def")].
Proof. split; vm_compute; reflexivity. Qed.

(** C4 (counterexample): the digit run [0123] of the text [a0123] starts with
    a zero and has four digits, and the scanner emits one IDENTIFIER token
    for the whole text and no ERROR token. *)
Lemma C4_zero_run_inside_identifier :
  tokenize_tokens ascii_only (u "a0123") (Lexer_init ∅)
    = Ok [mkToken 1 IDENTIFIER (u "a0123")].
Proof. vm_compute. reflexivity. Qed.

(** The amended C4 on the text [0123]. *)
Lemma C4_leading_zero_run_witness :
  exists s1 s2,
    step ascii_only (tokenize_reset (u "0123") (Lexer_init ∅)) = Ok s1 /\
    step ascii_only s1 = Ok s2 /\
    tokens s2 = [] ++ [mkToken 1 ERROR (ch "0" :: u "123")] /\
    pos s2 = len (@nil N) + 1 + len (u "123") /\
    current_state s2 = St_START /\ buffer s2 = [] /\
    forall s3, rtc (turn ascii_only) s2 s3 -> pos s2 <= pos s3.
Proof.
  apply (C4_leading_zero_run_in_start ascii_only (u "0123")
           (tokenize_reset (u "0123") (Lexer_init ∅)) [] (u "123") []);
    first [ apply reach_reset | reflexivity | discriminate ].
Defined.

(** C9 on the text [1+a]: after the digit and the sign the letter makes the
    COMPLEX handler fall back, and the position left is 1. *)
Lemma C9_complex_back_step_witness :
  exists s', step ascii_only
               (mkLexer ∅ 1 2 [] St_COMPLEX (u "1+") (u "1+a")) = Ok s' /\
             pos s' = 2 + 1 - 2 /\ 1 <= pos s'.
Proof.
  apply (C9_complex_back_step_stays_positive ascii_only (u "1+a")
           (mkLexer ∅ 1 2 [] St_COMPLEX (u "1+") (u "1+a")) (ch "a")).
  - apply (reach_step ascii_only (u "1+a")
             (mkLexer ∅ 1 1 [] St_NUMBER (u "1") (u "1+a"))); [| reflexivity | reflexivity].
    apply (reach_step ascii_only (u "1+a") (tokenize_reset (u "1+a") (Lexer_init ∅)));
      [apply reach_reset | reflexivity | reflexivity].
  - reflexivity.
  - reflexivity.
  - reflexivity.
  - reflexivity.
Defined.


(** * Properties of the FIRST sets *)

Section FirstSets.
Context (g : Grammar).

Lemma first_of_insert first k v k' :
  first_of (<[k := v]> first) k' = if decide (k = k') then v else first_of first k'.
Proof. unfold first_of. rewrite lookup_insert. by destruct (decide (k = k')). Qed.

Lemma first_of_Some first k v : first !! k = Some v -> first_of first k = v.
Proof. unfold first_of. by intros ->. Qed.

Lemma first_le_refl f : first_le f f.
Proof. split; [done | by intros k]. Qed.

Lemma first_le_trans f1 f2 f3 : first_le f1 f2 -> first_le f2 f3 -> first_le f1 f3.
Proof. intros [D1 H1] [D2 H2]. split; [congruence |]. intros k. etrans; [apply H1 | apply H2]. Qed.

Lemma first_le_insert first k fl v :
  first !! k = Some fl -> fl ⊆ v -> first_le first (<[k := v]> first).
Proof.
  intros Hk Hsub. split.
  - rewrite dom_insert_L. apply elem_of_dom_2 in Hk. set_solver.
  - intros k'. rewrite first_of_insert. destruct (decide (k = k')) as [<-|]; [| done].
    by rewrite (first_of_Some _ _ _ Hk).
Qed.

Lemma first_lt_insert first k fl v x :
  first !! k = Some fl -> fl ⊆ v -> x ∈ v -> x ∉ fl -> first_lt first (<[k := v]> first).
Proof.
  intros Hk Hsub Hx Hnx. split; [by eapply first_le_insert |].
  exists k, x. rewrite first_of_insert, decide_True by done.
  by rewrite (first_of_Some _ _ _ Hk).
Qed.

Lemma first_lt_le_trans f1 f2 f3 : first_lt f1 f2 -> first_le f2 f3 -> first_lt f1 f3.
Proof.
  intros [H12 (k & x & Hx & Hnx)] H23. split; [by eapply first_le_trans |].
  exists k, x. split; [| done]. by apply H23.
Qed.

Lemma first_le_lt_trans f1 f2 f3 : first_le f1 f2 -> first_lt f2 f3 -> first_lt f1 f3.
Proof.
  intros H12 [H23 (k & x & Hx & Hnx)]. split; [by eapply first_le_trans |].
  exists k, x. split; [done |]. intros Hin. apply Hnx. by apply H12.
Qed.

Lemma first_update_le f f' : first_update g f f' -> first_le f f'.
Proof. destruct 1; eapply first_le_insert; eauto; set_solver. Qed.

Lemma first_updates_le f f' : rtc (first_update g) f f' -> first_le f f'.
Proof.
  induction 1 as [|f1 f2 f3 H12 _ IH]; [apply first_le_refl |].
  eapply first_le_trans; [by apply first_update_le | done].
Qed.

Lemma lookup_key_Ok (first : first_map) k v :
  lookup_key first k = Ok v -> first !! k = Some v.
Proof. unfold lookup_key. destruct (first !! k); by intros [= ->]. Qed.

(** The size test of the source tells whether the union added a member. *)
Lemma size_grew (fl add : gset str) :
  (size fl <? size (fl ∪ add))%nat = true -> exists x, x ∈ fl ∪ add /\ x ∉ fl.
Proof.
  intros H. apply Nat.ltb_lt in H.
  assert (Hd : (0 < size ((fl ∪ add) ∖ fl))%nat).
  { rewrite size_difference by set_solver. lia. }
  apply size_pos_elem_of in Hd as [x Hx]. exists x. set_solver.
Qed.

Lemma size_same (fl add : gset str) :
  (size fl <? size (fl ∪ add))%nat = false -> fl ∪ add = fl.
Proof.
  intros H. apply Nat.ltb_ge in H. symmetry.
  apply set_subseteq_size_eq; [set_solver | done].
Qed.

(** The loop over the symbols of a right-hand side: it makes licensed
    additions only; the flag it answers is set exactly when it was set before
    or a set grew; and when nothing grew the production is closed. *)
Lemma first_symbols_steps prod pre syms first changed first' changed' :
  prod ∈ productions g -> right prod = pre ++ syms ->
  (forall Y, Y ∈ pre -> eps ∈ first_of first Y) ->
  first_symbols (left prod) syms (first, changed) = Ok (first', changed') ->
  rtc (first_update g) first first' /\
  (changed' = true -> changed = true \/ first_lt first first') /\
  (changed' = false ->
     changed = false /\ first' = first /\ prod_closed (first_of first) (left prod) syms).
Proof.
  intros Hprod. revert pre first changed.
  induction syms as [|X rest IH]; intros pre first changed Hrhs Hpre H; simpl in H.
  - apply bind_Ok in H as (fl & Hfl & H). apply lookup_key_Ok in Hfl.
    rewrite app_nil_r in Hrhs.
    destruct (decide (eps ∈ fl)) as [Hin|Hnin]; injection H as <- <-.
    + split; [apply rtc_refl |]. split; [by left |].
      intros ->. repeat split; [| by rewrite (first_of_Some _ _ _ Hfl)].
      intros [|??] ???; discriminate.
    + split; [| split; [| discriminate]].
      * apply rtc_once. apply fu_eps; [done | | done]. by rewrite Hrhs.
      * intros _. right. eapply (first_lt_insert _ _ _ _ eps); [done | | | done]; set_solver.
  - apply bind_Ok in H as (fx & Hfx & H). apply lookup_key_Ok in Hfx.
    apply bind_Ok in H as (fl & Hfl & H). apply lookup_key_Ok in Hfl.
    set (fl1 := fl ∪ fx ∖ {[eps]}) in *.
    set (first1 := <[left prod := fl1]> first) in *.
    assert (Hstep : first_update g first first1) by (by eapply fu_symbol).
    pose proof (first_update_le _ _ Hstep) as Hle1.
    assert (Hflag : forall b, (if (size fl <? size fl1)%nat then true else changed) = b ->
               (b = true -> changed = true \/ first_lt first first1) /\
               (b = false -> changed = false /\ first1 = first /\ fx ∖ {[eps]} ⊆ fl)).
    { intros b Hb. destruct (size fl <? size fl1)%nat eqn:Esz.
      - subst b. split; [| discriminate]. intros _. right.
        apply size_grew in Esz as (x & Hx & Hnx).
        eapply (first_lt_insert _ _ _ _ x); [done | | done | done]. set_solver.
      - subst b. apply size_same in Esz. split; [by left |]. intros ->.
        split; [done |]. split; [| set_solver].
        subst first1 fl1. rewrite Esz. by apply insert_id. }
    destruct (decide (eps ∈ fx)) as [Hin|Hnin].
    + apply (IH (pre ++ [X])) in H as (Hrtc & Ht & Hf).
      * specialize (Hflag _ eq_refl) as [Hflag_t Hflag_f].
        split; [by eapply rtc_l |]. split.
        -- intros Hc. destruct (Ht Hc) as [Hc1|Hlt].
           ++ destruct (Hflag_t Hc1) as [?|Hlt1]; [by left | right].
              eapply first_lt_le_trans; [done |]. by apply first_updates_le.
           ++ right. by eapply first_le_lt_trans.
        -- intros Hc. destruct (Hf Hc) as (Hc1 & -> & Hcl).
           destruct (Hflag_f Hc1) as (-> & Heq & Hsub).
           split; [done |]. split; [done |]. rewrite Heq in Hcl.
           destruct Hcl as [Hcl1 Hcl2]. split.
           ++ intros [|Z a] Y b Hsplit Hnull; simplify_eq/=.
              ** by rewrite (first_of_Some _ _ _ Hfx), (first_of_Some _ _ _ Hfl).
              ** eapply Hcl1; [done |]. intros Y' HY'. apply Hnull. by right.
           ++ intros Hnull. apply Hcl2. intros Y HY. apply Hnull. by right.
      * by rewrite <- app_assoc.
      * intros Y [HY | ->%list_elem_of_singleton]%elem_of_app.
        -- apply Hle1. by apply Hpre.
        -- apply Hle1. by rewrite (first_of_Some _ _ _ Hfx).
    + injection H as <- Hc. specialize (Hflag _ Hc) as [Hflag_t Hflag_f].
      split; [by apply rtc_once |]. split; [done |].
      intros Hc'. destruct (Hflag_f Hc') as (-> & Heq & Hsub).
      split; [done |]. split; [done |]. split.
      * intros [|Z a] Y b Hsplit Hnull; simplify_eq/=.
        -- by rewrite (first_of_Some _ _ _ Hfx), (first_of_Some _ _ _ Hfl).
        -- exfalso. apply Hnin. rewrite <- (first_of_Some _ _ _ Hfx). apply Hnull. by left.
      * intros Hnull. exfalso. apply Hnin.
        rewrite <- (first_of_Some _ _ _ Hfx). apply Hnull. by left.
Qed.

Lemma first_production_symbols prod st :
  first_production prod st = first_symbols (left prod) (right prod) st.
Proof. unfold first_production. destruct st, (right prod); reflexivity. Qed.

(** A pass over a list of productions of the grammar. *)
Lemma first_pass_steps prods first changed first' changed' :
  (forall prod, prod ∈ prods -> prod ∈ productions g) ->
  for_each first_production prods (first, changed) = Ok (first', changed') ->
  rtc (first_update g) first first' /\
  (changed' = true -> changed = true \/ first_lt first first') /\
  (changed' = false ->
     changed = false /\ first' = first /\
     forall prod, prod ∈ prods -> prod_closed (first_of first) (left prod) (right prod)).
Proof.
  revert first changed.
  induction prods as [|prod prods IH]; intros first changed Hsub H; simpl in H.
  - injection H as <- <-. split; [apply rtc_refl |]. split; [by left |].
    intros ->. split; [done |]. split; [done |]. intros prod0 Hin. by apply elem_of_nil in Hin.
  - apply bind_Ok in H as ([first1 changed1] & H1 & H).
    rewrite first_production_symbols in H1.
    apply (first_symbols_steps prod []) in H1 as (Hrtc1 & Ht1 & Hf1);
      [| apply Hsub; by left | done | intros Y HY; by apply elem_of_nil in HY].
    apply IH in H as (Hrtc & Ht & Hf); [| intros ??; apply Hsub; by right].
    split; [by etrans |]. split.
    + intros Hc. destruct (Ht Hc) as [Hc1|Hlt].
      * destruct (Ht1 Hc1) as [?|Hlt1]; [by left | right].
        eapply first_lt_le_trans; [done |]. by apply first_updates_le.
      * right. eapply first_le_lt_trans; [| done]. by apply first_updates_le.
    + intros Hc. destruct (Hf Hc) as (Hc1 & -> & Hcl).
      destruct (Hf1 Hc1) as (-> & -> & Hcl1).
      split; [done |]. split; [done |].
      intros prod' [-> | Hin]%elem_of_cons; [apply Hcl1 | by apply Hcl].
Qed.

(** No lookup fails when the symbols of the productions are keys. *)
Lemma first_symbols_total lhs syms first changed :
  lhs ∈ dom first -> (forall X, X ∈ syms -> X ∈ dom first) ->
  exists r, first_symbols lhs syms (first, changed) = Ok r.
Proof.
  revert first changed. induction syms as [|X rest IH]; intros first changed Hl Hs; simpl.
  - apply elem_of_dom in Hl as [fl Hfl]. unfold lookup_key. rewrite Hfl. simpl.
    destruct (decide (eps ∈ fl)); eauto.
  - assert (HX : X ∈ dom first) by (apply Hs; by left).
    apply elem_of_dom in HX as [fx Hfx].
    apply elem_of_dom in Hl as [fl Hfl]. unfold lookup_key. rewrite Hfx, Hfl. simpl.
    destruct (decide (eps ∈ fx)); [| eauto].
    apply IH.
    + rewrite dom_insert_L. set_solver.
    + intros Y HY. rewrite dom_insert_L. apply elem_of_union_r. apply Hs. by right.
Qed.

Lemma first_pass_total prods first changed :
  (forall prod, prod ∈ prods -> prod ∈ productions g) ->
  (forall prod, prod ∈ prods ->
     left prod ∈ dom first /\ forall X, X ∈ right prod -> X ∈ dom first) ->
  exists r, for_each first_production prods (first, changed) = Ok r.
Proof.
  revert first changed. induction prods as [|prod prods IH]; intros first changed Hsub Hk;
    simpl; [eauto |].
  destruct (Hk prod) as [Hl Hs]; [by left |].
  rewrite first_production_symbols.
  destruct (first_symbols_total (left prod) (right prod) first changed Hl Hs)
    as [[first1 changed1] H1].
  rewrite H1. simpl.
  apply (first_symbols_steps prod []) in H1 as (Hrtc1 & _);
    [| apply Hsub; by left | done | intros Y HY; by apply elem_of_nil in HY].
  apply first_updates_le in Hrtc1 as [Hdom _].
  apply IH; [intros ??; apply Hsub; by right |].
  intros prod' Hin. rewrite <- Hdom. apply Hk. by right.
Qed.

Lemma elem_of_first_pairs first k x : (k, x) ∈ first_pairs first <-> x ∈ first_of first k.
Proof.
  unfold first_pairs. rewrite elem_of_set_bind. split.
  - intros (k' & Hk' & Hin). apply elem_of_map in Hin as (x' & [= -> ->] & Hx'). done.
  - intros Hx. exists k. split; [| apply elem_of_map; eauto].
    unfold first_of in Hx. apply elem_of_dom.
    destruct (first !! k); [eauto | set_solver].
Qed.

Lemma first_lt_size f f' : first_lt f f' -> (size (first_pairs f) < size (first_pairs f'))%nat.
Proof.
  intros [[_ Hle] (k & x & Hx & Hnx)]. apply subset_size. split.
  - intros [k' x'] Hin. apply elem_of_first_pairs. apply Hle.
    by apply elem_of_first_pairs.
  - intros Hsub. apply Hnx. apply elem_of_first_pairs, Hsub.
    by apply elem_of_first_pairs.
Qed.

Lemma first_bounded_size first :
  first_bounded g first -> (size (first_pairs first) <= size (first_universe g))%nat.
Proof.
  intros [Hdom Hb]. apply subseteq_size. intros [k x] Hin.
  apply elem_of_first_pairs in Hin. unfold first_universe.
  apply elem_of_set_bind. exists k. split.
  - rewrite <- Hdom. apply elem_of_dom. unfold first_of in Hin.
    destruct (first !! k); [eauto | set_solver].
  - apply elem_of_map. exists x. split; [done |]. by apply (Hb k).
Qed.

Lemma first_update_bounded f f' :
  first_update g f f' -> first_bounded g f -> first_bounded g f'.
Proof.
  intros Hstep [Hdom Hb]. pose proof (first_update_le _ _ Hstep) as [Hd _].
  split; [congruence |]. intros k.
  destruct Hstep as [first prod pre X post fl fx _ _ _ Hfl Hfx | first prod fl _ _ Hfl];
    rewrite first_of_insert; destruct (decide (left prod = k)) as [_|_]; try apply Hb.
  - pose proof (Hb (left prod)) as H1. pose proof (Hb X) as H2.
    rewrite (first_of_Some _ _ _ Hfl) in H1. rewrite (first_of_Some _ _ _ Hfx) in H2.
    set_solver.
  - pose proof (Hb (left prod)) as H1. rewrite (first_of_Some _ _ _ Hfl) in H1.
    set_solver.
Qed.

Lemma first_updates_bounded f f' :
  rtc (first_update g) f f' -> first_bounded g f -> first_bounded g f'.
Proof. induction 1; eauto using first_update_bounded. Qed.

(** The [while changed] loop ends within its bound, on a dict that is
    closed under every production. *)
Lemma first_loop_spec fuel first :
  (forall prod, prod ∈ productions g ->
     left prod ∈ dom first /\ forall X, X ∈ right prod -> X ∈ dom first) ->
  first_bounded g first ->
  (size (first_universe g) < fuel + size (first_pairs first))%nat ->
  exists first', first_loop fuel g first = Ok first' /\
                 rtc (first_update g) first first' /\
                 forall prod, prod ∈ productions g ->
                              prod_closed (first_of first') (left prod) (right prod).
Proof.
  revert first. induction fuel as [|fuel IH]; intros first Hkeys Hb Hfuel.
  - apply first_bounded_size in Hb. simpl in Hfuel. lia.
  - simpl. unfold first_pass.
    destruct (first_pass_total (productions g) first false) as [[first1 changed] H1];
      [done | done |].
    rewrite H1. simpl.
    apply first_pass_steps in H1 as (Hrtc & Ht & Hf); [| done].
    destruct changed.
    + destruct (Ht eq_refl) as [? | Hlt]; [discriminate |].
      apply first_lt_size in Hlt.
      destruct (IH first1) as (first' & Hloop & Hrtc' & Hcl).
      * pose proof (first_updates_le _ _ Hrtc) as [Hdom _].
        intros prod Hin. rewrite <- Hdom. by apply Hkeys.
      * by eapply first_updates_bounded.
      * lia.
      * exists first'. split; [done |]. split; [by etrans | done].
    + destruct (Hf eq_refl) as (_ & -> & Hcl). exists first.
      split; [done |]. split; [apply rtc_refl | done].
Qed.

(** The additions never touch a key that is no left-hand side. *)
Lemma first_updates_other f f' k :
  rtc (first_update g) f f' ->
  (forall prod, prod ∈ productions g -> left prod <> k) ->
  first_of f' k = first_of f k.
Proof.
  intros Hrtc Hk. induction Hrtc as [|f1 f2 f3 Hstep _ IH]; [done |].
  rewrite IH. destruct Hstep as [first prod ????? Hin | first prod ? Hin];
    rewrite first_of_insert; destruct (decide (left prod = k)) as [Heq|]; try done;
    by apply Hk in Hin.
Qed.

Lemma first_updates_eps_justified f f' :
  rtc (first_update g) f f' -> eps_justified g f -> eps_justified g f'.
Proof.
  induction 1 as [|f1 f2 f3 Hstep _ IH]; [done |]. intros HJ. apply IH.
  pose proof (first_update_le _ _ Hstep) as [_ Hle].
  assert (Hold : forall k, eps ∈ first_of f1 k ->
             k ∈ terminals g \/
             exists prod, prod ∈ productions g /\ left prod = k /\
                          forall Y, Y ∈ right prod -> eps ∈ first_of f2 Y).
  { intros k Hk. destruct (HJ k Hk) as [? | (prod & ? & ? & Hnull)]; [by left | right].
    exists prod. repeat split; try done. intros Y HY. apply Hle. by apply Hnull. }
  intros k Hk.
  destruct Hstep as [first prod pre X post fl fx Hin Hrhs Hpre Hfl Hfx
                    | first prod fl Hin Hnull Hfl];
    rewrite first_of_insert in Hk; destruct (decide (left prod = k)) as [<-|];
    try (by apply Hold).
  - apply Hold. rewrite (first_of_Some _ _ _ Hfl). set_solver.
  - right. exists prod. repeat split; try done. intros Y HY. apply Hle. by apply Hnull.
Qed.

(** What the seeding of the dict leaves under each symbol. *)
Lemma first_init_lookup k :
  first_init g !! k =
    if decide (k ∈ terminals g) then Some {[k]}
    else if decide (k ∈ non_terminals g) then Some ∅ else None.
Proof.
  unfold first_init.
  set (f0 := gset_to_gmap (∅ : gset str) (terminals g ∪ non_terminals g)).
  assert (H0 : forall k', k' ∈ terminals g -> f0 !! k' = Some ∅).
  { intros k' Hk'. subst f0. apply lookup_gset_to_gmap_Some. set_solver. }
  assert (Hfold : forall T, T ⊆ terminals g ->
             let r := set_fold (fun t first => <[t := default ∅ (first !! t) ∪ {[t]}]> first)
                               f0 T in
             (k ∈ T -> r !! k = Some {[k]}) /\ (k ∉ T -> r !! k = f0 !! k)).
  { intros T.
    apply (set_fold_ind_L
             (fun (r : first_map) (T : gset str) =>
                T ⊆ terminals g ->
                (k ∈ T -> r !! k = Some {[k]}) /\ (k ∉ T -> r !! k = f0 !! k))).
    - intros _. split; [set_solver | done].
    - intros t X r Hfresh IHr Hsub.
      destruct IHr as [IH1 IH2]; [set_solver |].
      destruct (decide (t = k)) as [->|Hne].
      + split; [| set_solver]. intros _. rewrite lookup_insert_eq.
        rewrite IH2 by done. rewrite H0 by set_solver. simpl. f_equal. set_solver.
      + rewrite lookup_insert_ne by done. split.
        * intros Hk. apply IH1. set_solver.
        * intros Hk. apply IH2. set_solver. }
  destruct (Hfold (terminals g)) as [Hin Hout]; [done |].
  destruct (decide (k ∈ terminals g)); [by apply Hin |].
  rewrite Hout by done. subst f0. rewrite lookup_gset_to_gmap.
  destruct (decide (k ∈ non_terminals g)).
  - rewrite option_guard_True by set_solver. done.
  - rewrite option_guard_False by set_solver. done.
Qed.

Lemma first_of_init k :
  first_of (first_init g) k = if decide (k ∈ terminals g) then {[k]} else ∅.
Proof.
  unfold first_of. rewrite first_init_lookup.
  destruct (decide (k ∈ terminals g)); [done |].
  by destruct (decide (k ∈ non_terminals g)).
Qed.

Lemma dom_first_init : dom (first_init g) = terminals g ∪ non_terminals g.
Proof.
  apply set_eq. intros k. rewrite elem_of_dom, first_init_lookup, elem_of_union.
  destruct (decide (k ∈ terminals g)); [split; eauto |].
  destruct (decide (k ∈ non_terminals g)); [split; eauto |].
  split; [by intros [? ?] | by intros [?|?]].
Qed.

End FirstSets.


(** * Properties of the tables and of the driver *)

Section TableFacts.
Context (g : Grammar).

(** The loop over the items of state [i] writes under keys of state [i]
    only. *)
Lemma table_item_other i action item j a :
  j <> i -> table_item g i action item !! (j, a) = action !! (j, a).
Proof.
  intros Hne. unfold table_item.
  repeat case_match; try done; rewrite lookup_insert_ne; congruence.
Qed.

Lemma table_items_other i action items j a :
  j <> i -> foldl (table_item g i) action items !! (j, a) = action !! (j, a).
Proof.
  intros Hne. revert action. induction items as [|item items IH]; intros action; [done |].
  simpl. rewrite IH. by apply table_item_other.
Qed.

Lemma table_symbol_other goto i symbol t j a :
  j <> i -> (table_symbol g goto i symbol t).1 !! (j, a) = t.1 !! (j, a).
Proof.
  intros Hne. unfold table_symbol.
  repeat case_match; try done. simpl. rewrite lookup_insert_ne; congruence.
Qed.

Lemma table_state_other goto t i state j a :
  j <> i -> (table_state g goto t i state).1 !! (j, a) = t.1 !! (j, a).
Proof.
  intros Hne. unfold table_state. simpl. rewrite table_items_other by done.
  apply (set_fold_ind_L
           (fun (r : action_map * goto_map) (_ : gset str) => r.1 !! (j, a) = t.1 !! (j, a)));
    [done |].
  intros symbol X r _ IH. by rewrite table_symbol_other.
Qed.

Lemma table_states_earlier goto j states t i a :
  (i < j)%nat -> (table_states g goto j states t).1 !! (i, a) = t.1 !! (i, a).
Proof.
  revert j t. induction states as [|state states IH]; intros j t Hlt; [done |].
  simpl. rewrite IH by lia. apply table_state_other. lia.
Qed.

End TableFacts.

(** When the driver reduces and the GOTO table has no entry for the state it
    uncovers and the left-hand side, the lookup raises KeyError out of the
    loop: no error string is returned. *)
Lemma parse_loop_missing_goto fuel p tokens input_tokens stack errors pos
      top current_token value stack' prev :
  getitem stack (-1) = Ok top ->
  getitem input_tokens pos = Ok current_token ->
  action_table p !! (top.1, current_token) = Some (Reduce value) ->
  pop_n (length (right value)) stack = Ok stack' ->
  getitem stack' (-1) = Ok prev ->
  goto_table p !! (prev.1, left value) = None ->
  parse_loop (S fuel) p tokens input_tokens stack errors pos = Raise KeyError.
Proof.
  intros Htop Hcur Hact Hpop Hprev Hgoto. simpl.
  rewrite Htop. simpl. rewrite Hcur. simpl. rewrite Hact, Hpop. simpl.
  rewrite Hprev. simpl. unfold lookup_key. by rewrite Hgoto.
Qed.

(** C6 (the code at the failing input): for the grammar file with the rules
    S -> ID and ID -> 'x' the constructor returns a parser.  The transition
    of state 0 under ID is entered as a shift in ACTION, because ID counts
    as a terminal, and not in the GOTO table.  On the token [x] the driver
    shifts, reduces by ID -> 'x', and the lookup of the GOTO table raises
    KeyError out of [parse]. *)
Theorem C6_missing_goto_raises_KeyError U :
  exists p,
    LR1Parser_new U id_rule_file = Ok p /\
    action_table p !! (0%nat, u "'x'") = Some (Shift 1) /\
    action_table p !! (1%nat, dollar) = Some (Reduce (mkProduction (u "ID") [u "'x'"])) /\
    goto_table p !! (0%nat, u "ID") = None /\
    parse scenario_fuel p [(1, KEYWORD, u "x")] = Raise KeyError.
Proof.
  eexists. split; [vm_compute; reflexivity |].
  repeat split; vm_compute; reflexivity.
Qed.

(** C7 (counterexample): on the arithmetic grammar and the tokens
    ID '+' '+' ID the error list is not the claimed message, in which one
    pair of quotes wraps the symbol; the symbol keeps the quotes the token
    bridge gave it inside the quotes of the message. *)
Lemma C7_message_has_two_pairs_of_quotes :
  load_and_parse ascii_only arith_file (tokens_S6 (u "a") (u "b"))
    = Ok (false, [u "Line 1: Syntax error, unexpected token ''+''"]) /\
  u "Line 1: Syntax error, unexpected token ''+''"
    <> u "Line 1: Syntax error, unexpected token '+'".
Proof. split; [vm_compute; reflexivity | discriminate]. Qed.

(** C7 (as amended): for the arithmetic grammar, loaded from its file, and
    the token sequence ID '+' '+' ID on line 1, whatever the two identifiers
    are, [parse] returns failure and the error list holds exactly the message
    for line 1 in which the offending symbol stands as the token bridge made
    it, with its own quotes, between the quotes of the message. *)
Theorem C7_unexpected_plus_message U x y :
  Grammar_init U (Some arith_file) = Ok G_arith /\
  load_and_parse U arith_file (tokens_S6 x y)
    = Ok (false, [syntax_error_message 1 (quoted (u "+"))]) /\
  syntax_error_message 1 (quoted (u "+"))
    = u "Line 1: Syntax error, unexpected token ''+''".
Proof. repeat split; vm_compute; reflexivity. Qed.

Section LoaderFacts.
Context {pattern : Type} (re_compile : str -> result pattern).

Lemma for_each_app {A S} (body : A -> S -> result S) (l1 l2 : list A) (s : S) :
  for_each body (l1 ++ l2) s = (for_each body l1 s ≫= for_each body l2).
Proof.
  revert s. induction l1 as [|a l1 IH]; intros s; simpl; [done |].
  destruct (body a s); simpl; [apply IH | done].
Qed.

Lemma split_once_no_sep sep s : char_in sep s = false -> split_once sep s = [s].
Proof.
  induction s as [|c s IH]; simpl; [done |].
  intros [Hc Hs]%orb_false_iff. rewrite N.eqb_sym, Hc. by rewrite IH.
Qed.

(** A line with text that is no comment and has no arrow: the unpacking of
    the split raises. *)
Lemma load_line_no_arrow line gp :
  strip line <> [] -> startswith (strip line) (ch "#") = false ->
  char_in ARROW (strip line) = false ->
  load_line re_compile line gp = Raise ValueError.
Proof.
  intros Hne Hc Harrow. unfold load_line.
  rewrite bool_decide_eq_false_2 by done. rewrite Hc. simpl.
  by rewrite split_once_no_sep.
Qed.

(** C8 (as amended): when a lexical grammar file has a line with text that is
    no comment and has no arrow, the construction of the loader raises and
    returns no loader.  When the lines before it load, the exception is the
    ValueError of the unpacking, which does not name the line; otherwise it
    is the exception an earlier line raised. *)
Theorem C8_line_without_arrow_raises before line after :
  strip line <> [] -> startswith (strip line) (ch "#") = false ->
  char_in ARROW (strip line) = false ->
  exists e,
    GrammarParser_init re_compile (Some (before ++ line :: after)) = Raise e /\
    ((exists gp, for_each (load_line re_compile) before (mkGrammarParser ∅ []) = Ok gp) ->
     e = ValueError).
Proof.
  intros Hne Hc Harrow. unfold GrammarParser_init, load_grammar.
  rewrite for_each_app.
  destruct (for_each (load_line re_compile) before (mkGrammarParser ∅ [])) as [gp|e] eqn:Hb;
    simpl.
  - rewrite load_line_no_arrow by done. simpl. eauto.
  - exists e. split; [done |]. by intros [gp [=]].
Qed.

End LoaderFacts.

(** C8 (counterexample): a lexical grammar file whose second line lacks the
    arrow makes the constructor raise the ValueError of the tuple unpacking;
    the exception carries no line. *)
Lemma C8_line_without_arrow_ValueError :
  GrammarParser_init (fun p : str => Ok p)
    (Some [rule "Keyword" "'if' | 'int'"; u "Operator '+'" ++ [NL]])
    = Raise ValueError.
Proof. vm_compute. reflexivity. Qed.

(** The amended C8 on that file. *)
Lemma C8_line_without_arrow_witness :
  exists e,
    GrammarParser_init (fun p : str => Ok p)
      (Some ([rule "Keyword" "'if' | 'int'"] ++ (u "Operator '+'" ++ [NL]) :: [])) = Raise e /\
    ((exists gp, for_each (load_line (fun p : str => Ok p)) [rule "Keyword" "'if' | 'int'"]
                          (mkGrammarParser ∅ []) = Ok gp) ->
     e = ValueError).
Proof.
  apply (C8_line_without_arrow_raises (fun p : str => Ok p)
           [rule "Keyword" "'if' | 'int'"] (u "Operator '+'" ++ [NL]) []);
    first [ reflexivity | discriminate ].
Defined.

(** * The order in which the items of a state are visited *)

Section ItemOrder.
Context (g : Grammar).

Lemma table_item_commute i action x y :
  writes_agree g x y = true ->
  table_item g i (table_item g i action x) y = table_item g i (table_item g i action y) x.
Proof.
  unfold writes_agree, table_item. intros H.
  destruct (is_complete x), (is_complete y); simpl in H; try done.
  destruct (decide (Some (left (production x)) = start_symbol g)) as [Hx|Hx],
           (decide (Some (left (production y)) = start_symbol g)) as [Hy|Hy];
    rewrite ?(bool_decide_eq_true_2 _ Hx), ?(bool_decide_eq_false_2 _ Hx),
            ?(bool_decide_eq_true_2 _ Hy), ?(bool_decide_eq_false_2 _ Hy) in H.
  - done.
  - apply negb_true_iff, bool_decide_eq_false in H.
    rewrite lookup_insert_ne by congruence.
    destruct (action !! (i, lookahead y)) as [[]|]; try done;
      apply insert_insert_ne; congruence.
  - apply negb_true_iff, bool_decide_eq_false in H.
    rewrite lookup_insert_ne by congruence.
    destruct (action !! (i, lookahead x)) as [[]|]; try done;
      apply insert_insert_ne; congruence.
  - apply orb_true_iff in H as [H|H].
    + apply negb_true_iff, bool_decide_eq_false in H.
      destruct (action !! (i, lookahead x)) as [[]|] eqn:Ex,
               (action !! (i, lookahead y)) as [[]|] eqn:Ey;
        rewrite ?lookup_insert_ne by congruence; rewrite ?Ex, ?Ey; try done;
        apply insert_insert_ne; congruence.
    + apply bool_decide_eq_true in H. rewrite H.
      destruct (decide (lookahead x = lookahead y)) as [Hl|Hl].
      * rewrite Hl. destruct (action !! (i, lookahead y)) as [[]|] eqn:Ey;
          rewrite ?lookup_insert_eq, ?Ey; done.
      * destruct (action !! (i, lookahead x)) as [[]|] eqn:Ex,
                 (action !! (i, lookahead y)) as [[]|] eqn:Ey;
          rewrite ?lookup_insert_ne by congruence; rewrite ?Ex, ?Ey; try done;
          apply insert_insert_ne; congruence.
Qed.

Lemma order_free_spec state x y :
  order_free g state = true -> x ∈ state -> y ∈ state -> writes_agree g x y = true.
Proof.
  unfold order_free. rewrite forallb_forall. intros H Hx Hy.
  apply list_elem_of_In in Hx, Hy. specialize (H x Hx).
  rewrite forallb_forall in H. by apply H.
Qed.

(** The loop over the items of a state gives the same entries in every order
    when no two items compete. *)
Lemma table_items_permutation i state state' :
  state ≡ₚ state' ->
  (forall x y, x ∈ state -> y ∈ state -> writes_agree g x y = true) ->
  forall action, foldl (table_item g i) action state = foldl (table_item g i) action state'.
Proof.
  induction 1 as [|x l l' Hperm IH|x y l|l l' l'' H1 IH1 H2 IH2]; intros Hagree action.
  - done.
  - simpl. apply IH. intros a b Ha Hb. apply Hagree; by right.
  - simpl. f_equal. apply table_item_commute. apply Hagree; [by left | right; by left].
  - rewrite IH1 by done. apply IH2. intros a b Ha Hb.
    apply Hagree; by rewrite H1.
Qed.

Lemma table_states_permutation goto states states' :
  Forall2 (fun s s' => s ≡ₚ s') states states' ->
  Forall (fun s => order_free g s = true) states ->
  forall i t, table_states g goto i states t = table_states g goto i states' t.
Proof.
  induction 1 as [|s s' states states' Hs _ IH]; intros Hfree i t; [done |].
  apply Forall_cons in Hfree as [Hfs Hfree]. simpl.
  rewrite IH by done. f_equal. unfold table_state. f_equal.
  apply table_items_permutation; [done |]. intros x y. by apply order_free_spec.
Qed.

(** The tables do not depend on the order in which [for item in state]
    visits the items, when no state has competing items. *)
Lemma tables_order_irrelevant goto states states' :
  Forall2 (fun s s' => s ≡ₚ s') states states' ->
  forallb (order_free g) states = true ->
  _build_parsing_tables g states' goto = _build_parsing_tables g states goto.
Proof.
  intros Hperm Hfree. unfold _build_parsing_tables. symmetry.
  apply table_states_permutation; [done |].
  apply Forall_forall. intros s Hs. apply list_elem_of_In in Hs.
  rewrite forallb_forall in Hfree. by apply Hfree.
Qed.

End ItemOrder.

(** No state of the automaton of the arithmetic grammar, and none of the
    grammar with the rule for ID, has competing items: the tables of these
    scenarios are the same in whatever order the items of a state are
    visited. *)
Lemma scenario_states_order_free U :
  states_order_free U arith_file = Ok true /\
  states_order_free U id_rule_file = Ok true.
Proof. split; vm_compute; reflexivity. Qed.
Section ScannerOutput.
Context (U : UnicodeData).

Lemma determine_token_type_cases kws v :
  determine_token_type U kws v = KEYWORD \/ determine_token_type U kws v = IDENTIFIER \/
  determine_token_type U kws v = CONSTANT \/ determine_token_type U kws v = ERROR.
Proof. unfold determine_token_type. repeat case_match; tauto. Qed.

Lemma lexeme_ok_finalize kws ln v :
  v <> [] -> lexeme_ok U kws (mkToken ln (determine_token_type U kws v) v).
Proof.
  intros Hv. split; [done |]. simpl.
  destruct (determine_token_type_cases kws v) as [H|[H|[H|H]]]; by rewrite H.
Qed.

Lemma nth_error_is_lookup {A} (l : list A) (n : nat) : nth_error l n = l !! n.
Proof. revert n. induction l as [|a l IH]; intros [|n]; simpl; auto. Qed.

Lemma getitem_drop {A} (l : list A) (p : Z) (a : A) :
  0 <= p -> getitem l p = Ok a -> drop (Z.to_nat p) l = a :: drop (Z.to_nat (p + 1)) l.
Proof.
  intros Hp H. unfold getitem in H.
  destruct (p <? 0) eqn:E; [apply Z.ltb_lt in E; lia |]. rewrite E in H.
  destruct (nth_error l (Z.to_nat p)) as [a'|] eqn:En; [| discriminate].
  injection H as ->. rewrite nth_error_is_lookup in En.
  replace (Z.to_nat (p + 1)) with (S (Z.to_nat p)) by lia.
  by apply drop_S.
Qed.

Lemma getitem_bound {A} (l : list A) (p : Z) (a : A) :
  0 <= p -> getitem l p = Ok a -> p < len l.
Proof.
  intros Hp H. unfold getitem in H.
  destruct (p <? 0) eqn:E; [apply Z.ltb_lt in E; lia |]. rewrite E in H.
  destruct (nth_error l (Z.to_nat p)) as [a'|] eqn:En; [| discriminate].
  assert (Hn : nth_error l (Z.to_nat p) <> None) by congruence.
  apply nth_error_Some in Hn. unfold len. lia.
Qed.

(** What the inner loop of the leading-zero rule reads is the text from the
    position on. *)
Lemma zero_run_spec fuel code p buf p' buf' :
  0 <= p -> zero_run U fuel code p buf = Ok (p', buf') ->
  exists ds, buf' = buf ++ ds /\ p' = p + len ds /\ slice code p (length ds) = ds.
Proof.
  revert p buf. induction fuel as [|fuel IH]; intros p buf Hp H; simpl in H.
  - injection H as <- <-. exists []. rewrite app_nil_r. split; [done |]. split; [|done].
    unfold len; simpl; lia.
  - destruct (p <? len code).
    2: { injection H as <- <-. exists []. rewrite app_nil_r. split; [done |].
         split; [unfold len; simpl; lia | done]. }
    apply bind_Ok in H as (c & Hc & H).
    destruct (isdigit U c).
    2: { injection H as <- <-. exists []. rewrite app_nil_r. split; [done |].
         split; [unfold len; simpl; lia | done]. }
    apply IH in H as (ds & -> & -> & Hs); [| lia].
    exists (c :: ds). rewrite <- app_assoc. split; [done |].
    split; [rewrite len_cons; lia |].
    unfold slice in *. rewrite (getitem_drop _ _ _ Hp Hc). simpl. by rewrite Hs.
Qed.

Lemma slice_one code p c : 0 <= p -> getitem code p = Ok c -> slice code p 1 = [c].
Proof. intros Hp H. unfold slice. by rewrite (getitem_drop _ _ _ Hp H). Qed.

Lemma slice_cons code p c n :
  0 <= p -> getitem code p = Ok c -> slice code p (S n) = c :: slice code (p + 1) n.
Proof. intros Hp H. unfold slice. by rewrite (getitem_drop _ _ _ Hp H). Qed.

Lemma lexemes_single ln ty v : lexemes [mkToken ln ty v] = v.
Proof. unfold lexemes. simpl. apply app_nil_r. Qed.

Ltac shape_cases H :=
  repeat (first [ discriminate
                | match type of H with
                  | (_ ≫= _) = Ok _ => apply bind_Ok in H as (? & ? & H)
                  | context [if ?b then _ else _] => destruct b eqn:?
                  | context [match ?b with _ => _ end] => destruct b eqn:?
                  | Ok _ = Ok _ => injection H as <-
                  end ]; simpl in * ).

Ltac lexeme_tac :=
  first [ apply lexeme_ok_finalize; first [done | apply snoc_not_nil]
        | split; [first [done | apply snoc_not_nil] | simpl; first [exact I | eauto]] ].

Lemma step_shape s s' c :
  scan_buf s -> 0 <= pos s -> getitem (current_input s) (pos s) = Ok c ->
  step U s = Ok s' ->
  keywords s' = keywords s /\ current_input s' = current_input s /\
  line s' = line s + (if (c =? NL)%N then 1 else 0) /\ scan_buf s' /\
  exists out,
    tokens s' = tokens s ++ out /\
    Forall (fun t => tok_line t = line s' /\ lexeme_ok U (keywords s) t) out /\
    ((exists n, pos s' = pos s + Z.of_nat n /\
                length (slice (current_input s) (pos s) n) = n /\
                lexemes out ++ buffer s' = buffer s ++ slice (current_input s) (pos s) n)
     \/ (pos s' = pos s + 1 /\ out = [] /\ buffer s' = [] /\ buffer s = [])
     \/ (pos s' = pos s - 1 /\ exists x, buffer s = (lexemes out ++ buffer s') ++ [x])).
Proof.
  intros Hbuf Hp Hget H. unfold step in H. rewrite Hget in H. simpl in H.
  unfold dispatch, handle_start, handle_identifier, handle_number, handle_scientific,
    handle_complex, handle_string in H.
  destruct s as [kw ln p ts st buf inp]; unfold scan_buf in *; simpl in *.
  pose proof (slice_one inp p c Hp Hget) as Hone.
  destruct st; simpl in H; shape_cases H.
  all: split; [reflexivity |]; split; [reflexivity |]; split; [lia |];
       split; [first [apply snoc_not_nil | done] |].
  all: try solve [ exists []; split; [by rewrite app_nil_r |]; split; [constructor |];
                   left; exists 1%nat; split; [lia |]; rewrite Hone; by split ].
  all: try solve [ exists []; split; [by rewrite app_nil_r |]; split; [constructor |];
                   right; left; done ].
  all: try match goal with
           | Hz : zero_run _ _ _ _ _ = Ok _ |- _ =>
               apply zero_run_spec in Hz as (ds & -> & -> & Hds); [| simpl; lia]
           end.
  all: try solve [ eexists [_]; split; [reflexivity |];
                   split; [constructor; [split; [reflexivity | lexeme_tac] | constructor] |];
                   rewrite lexemes_single; left;
                   first [ exists 0%nat; split; [lia |]; unfold slice; simpl;
                           split; [done |]; by rewrite ?app_nil_r
                         | exists 1%nat; split; [lia |]; rewrite Hone;
                           split; [done |]; subst; by rewrite ?app_nil_r ] ].
  all: try solve [ eexists [_]; split; [reflexivity |];
                   split; [constructor; [split; [reflexivity | split; [| exact I]] | constructor] |];
                   [ simpl; intros Hn; apply app_eq_nil in Hn as [Hn _];
                     by apply snoc_not_nil in Hn
                   | rewrite lexemes_single; left; exists (S (length ds));
                     split; [unfold len; lia |];
                     rewrite (slice_cons _ _ _ _ Hp Hget), Hds;
                     split; [done |]; by rewrite app_nil_r, <- app_assoc ] ].
  all: pose proof (app_removelast_last 0%N Hbuf) as Hsplit;
       match goal with Hr : removelast _ = _ |- _ => rewrite Hr in Hsplit end.
  all: first [ exists []; split; [by rewrite app_nil_r |]
             | eexists [_]; split; [reflexivity |] ];
       (split; [repeat constructor; by apply lexeme_ok_finalize |]);
       rewrite ?lexemes_single; right; right; (split; [lia |]);
       eexists; rewrite ?app_nil_r; exact Hsplit.
Qed.

Lemma lines_ascend_app out out1 n :
  lines_ascend out -> Forall (fun t => tok_line t <= n) out ->
  Forall (fun t => tok_line t = n) out1 -> lines_ascend (out ++ out1).
Proof.
  intros Hasc Hle Heq i j t1 t2 Hij H1 H2.
  rewrite Forall_lookup in Hle. rewrite Forall_lookup in Heq.
  apply lookup_app_Some in H1 as [H1 | [Hi H1]], H2 as [H2 | [Hj H2]].
  - by eapply Hasc.
  - rewrite (Heq _ _ H2). by eapply Hle.
  - apply lookup_lt_Some in H2. lia.
  - rewrite (Heq _ _ H1), (Heq _ _ H2). lia.
Qed.

Lemma lexemes_app out1 out2 : lexemes (out1 ++ out2) = lexemes out1 ++ lexemes out2.
Proof. unfold lexemes. by rewrite map_app, concat_app. Qed.

Lemma take_slice code p n :
  0 <= p -> take (Z.to_nat (p + Z.of_nat n)) code = take (Z.to_nat p) code ++ slice code p n.
Proof.
  intros Hp. unfold slice.
  replace (Z.to_nat (p + Z.of_nat n)) with (Z.to_nat p + n)%nat by lia.
  by rewrite take_take_drop.
Qed.

Lemma sublist_snoc_inv {A} (l k : list A) (x : A) :
  l ++ [x] `sublist_of` k -> exists k' y, k = k' ++ [y] /\ l `sublist_of` k'.
Proof.
  intros (k1 & k2 & -> & H1 & H2)%sublist_app_l.
  destruct (decide (k2 = [])) as [-> | Hne].
  - apply sublist_nil_r in H2. discriminate.
  - destruct (nonempty_snoc k2 Hne) as (k2' & y & ->).
    exists (k1 ++ k2'), y. rewrite app_assoc. split; [done |].
    by apply sublist_inserts_r.
Qed.

(** The facts about the output are kept by every turn of the loop. *)
Lemma scan_out_step code s0 s s' out :
  scan_out U code s0 s out -> turn U s s' -> exists out', scan_out U code s0 s' out'.
Proof.
  intros (Hkw & Hin & Hln & [Hp0 Hp1] & Hbuf & Hts & Hok & Hbd & Hasc & Hsub) [Hlt Hstep].
  rewrite Hin in Hlt.
  destruct (getitem_in_range code (pos s)) as [c Hc]; [lia |].
  rewrite <- Hin in Hc.
  destruct (step_shape s s' c Hbuf Hp0 Hc Hstep)
    as (Hkw' & Hin' & Hln' & Hbuf' & out1 & Hts' & Hnew & Hmove).
  rewrite Hin in Hin', Hmove.
  assert (Hln2 : line s <= line s') by (destruct (c =? NL)%N; lia).
  exists (out ++ out1).
  assert (Hpos : 0 <= pos s' <= len code /\
                 lexemes (out ++ out1) ++ buffer s'
                   `sublist_of` take (Z.to_nat (pos s')) code).
  { rewrite lexemes_app, <- app_assoc.
    destruct Hmove as [(n & Hp' & Hlen & Heq) | [(Hp' & -> & Hb' & Hb) | (Hp' & x & Hb)]].
    - rewrite Hp', Heq, take_slice, app_assoc by done. split.
      + unfold slice in Hlen. rewrite length_take, length_drop in Hlen.
        unfold len in *. lia.
      + by apply sublist_app.
    - rewrite Hp', Hb'. rewrite Hb in Hsub. split; [lia |].
      replace (pos s + 1) with (pos s + Z.of_nat 1) by lia.
      rewrite take_slice by done. simpl. by apply sublist_inserts_r.
    - rewrite Hb, app_assoc in Hsub.
      apply sublist_snoc_inv in Hsub as (k' & y & Hk & Hsub).
      assert (Hlk : length (take (Z.to_nat (pos s)) code) = Z.to_nat (pos s)).
      { rewrite length_take. unfold len in Hp1. lia. }
      rewrite Hk, length_app in Hlk. simpl in Hlk.
      split; [lia |].
      assert (Hk' : take (length k') code = k').
      { transitivity (take (length k') (take (Z.to_nat (pos s)) code)).
        - rewrite take_take. f_equal. lia.
        - rewrite Hk. by rewrite take_app_length. }
      replace (Z.to_nat (pos s')) with (length k') by lia.
      by rewrite Hk'. }
  destruct Hpos as [Hpos Hsub'].
  repeat split; try done; try lia.
  - congruence.
  - by rewrite Hts', Hts, app_assoc.
  - apply Forall_app. split; [done |].
    eapply Forall_impl; [exact Hnew |]. intros t [_ Ht]. by rewrite <- Hkw.
  - apply Forall_app. split.
    + eapply Forall_impl; [exact Hbd |]. simpl. intros t ?. lia.
    + eapply Forall_impl; [exact Hnew |]. simpl. intros t [-> _]. lia.
  - apply (lines_ascend_app out out1 (line s')); [done | |].
    + eapply Forall_impl; [exact Hbd |]. simpl. intros t ?. lia.
    + eapply Forall_impl; [exact Hnew |]. by intros t [? _].
Qed.

Lemma scan_out_reset code s : scan_out U code s (tokenize_reset code s) [].
Proof.
  unfold scan_out, scan_buf, lines_ascend. simpl. pose proof (len_nonneg code).
  repeat split; try done; try lia; try (by rewrite app_nil_r); try apply sublist_nil_l.
Qed.

Lemma scan_out_turns code s0 s s' out :
  scan_out U code s0 s out -> rtc (turn U) s s' -> exists out', scan_out U code s0 s' out'.
Proof.
  intros Hout Hrtc. revert out Hout.
  induction Hrtc as [s | s s1 s' Hturn _ IH]; intros out Hout; [eauto |].
  destruct (scan_out_step _ _ _ _ _ Hout Hturn) as [out1 Hout1]. eauto.
Qed.

(** The loop of [tokenize] as a sequence of turns that ends where no turn
    is left. *)
Lemma run_turns fuel s s' :
  run U fuel s = Ok s' -> rtc (turn U) s s' /\ len (current_input s') <= pos s'.
Proof.
  revert s. induction fuel as [|fuel IH]; intros s; simpl.
  - destruct (pos s <? len (current_input s)) eqn:E; [discriminate |].
    intros [= <-]. apply Z.ltb_ge in E. split; [apply rtc_refl | done].
  - destruct (pos s <? len (current_input s)) eqn:E.
    + intros (s1 & Hstep & Hrun)%bind_Ok. apply Z.ltb_lt in E.
      apply IH in Hrun as [Hrtc Hend]. split; [| done].
      eapply rtc_l; [| done]. by split.
    + intros [= <-]. apply Z.ltb_ge in E. split; [apply rtc_refl | done].
Qed.

Lemma tokenize_turns code s s' :
  tokenize U code s = Ok s' ->
  exists s1, rtc (turn U) (tokenize_reset code s) s1 /\
             len (current_input s1) <= pos s1 /\ s' = flush U s1.
Proof.
  unfold tokenize. intros (s1 & Hrun & [= <-])%bind_Ok.
  apply run_turns in Hrun as [Hrtc Hend]. by exists s1.
Qed.

(** What [tokenize] returns and leaves behind, on every text and every
    instance. *)
Lemma tokenize_out code s :
  exists s' out,
    tokenize U code s = Ok s' /\
    keywords s' = keywords s /\ current_input s' = code /\
    pos s' = len code /\ buffer s' = [] /\ line s <= line s' /\
    tokens s' = tokens s ++ out /\
    Forall (lexeme_ok U (keywords s)) out /\
    Forall (fun t => line s <= tok_line t <= line s') out /\
    lines_ascend out /\
    lexemes out `sublist_of` code.
Proof.
  destruct (tokenize_total U code s) as [s' Htok]. exists s'.
  destruct (tokenize_turns _ _ _ Htok) as (s1 & Hrtc & Hend & ->).
  destruct (scan_out_turns code s _ s1 [] (scan_out_reset code s) Hrtc)
    as (out & Hkw & Hin & Hln & [Hp0 Hp1] & Hbuf & Hts & Hok & Hbd & Hasc & Hsub).
  rewrite Hin in Hend. assert (Hp : pos s1 = len code) by lia.
  rewrite Hp in Hsub. unfold len in Hsub. rewrite Nat2Z.id, firstn_all in Hsub.
  unfold flush in *. destruct (buffer s1) as [|b bs] eqn:Eb.
  - exists out. rewrite app_nil_r in Hsub. by repeat split.
  - exists (out ++ [mkToken (line s1) (determine_token_type U (keywords s1) (b :: bs))
                            (b :: bs)]).
    split; [done |].
    unfold finalize_token, append_token. rewrite Eb. simpl.
    repeat split; try done.
    + by rewrite Hts, app_assoc.
    + apply Forall_app. split; [done |]. constructor; [| constructor].
      rewrite Hkw. by apply lexeme_ok_finalize.
    + apply Forall_app. split; [done |]. constructor; [| constructor]. simpl. lia.
    + apply (lines_ascend_app out _ (line s1)).
      * done.
      * eapply Forall_impl; [exact Hbd |]. simpl. intros t ?. lia.
      * by constructor.
    + by rewrite lexemes_app, lexemes_single.
Qed.

End ScannerOutput.
Section ScannerRuns.
Context (U : UnicodeData).

(** A turn of the loop is a function of the state, so the state in which the
    loop ends is determined. *)
Lemma turns_final_unique s a b :
  rtc (turn U) s a -> rtc (turn U) s b ->
  len (current_input a) <= pos a -> len (current_input b) <= pos b -> a = b.
Proof.
  intros Ha. revert b. induction Ha as [s | s s1 a [Hlt Hstep] _ IH]; intros b Hb Hfa Hfb.
  - inversion Hb as [| ? x ? [Hlt _] _]; subst; [done | lia].
  - inversion Hb as [| ? x ? [_ Hstep'] Hb']; subst; [lia |].
    rewrite Hstep in Hstep'. injection Hstep' as <-. by apply IH.
Qed.

Lemma tokenize_of_turns code s s1 :
  rtc (turn U) (tokenize_reset code s) s1 -> len (current_input s1) <= pos s1 ->
  tokenize U code s = Ok (flush U s1).
Proof.
  intros Hrtc Hend. destruct (tokenize_total U code s) as [s' Htok]. rewrite Htok.
  destruct (tokenize_turns U _ _ _ Htok) as (s2 & Hrtc2 & Hend2 & ->).
  by rewrite (turns_final_unique _ _ _ Hrtc Hrtc2 Hend Hend2).
Qed.

Lemma newlines_cons c w : newlines (c :: w) = (if (c =? NL)%N then 1 else 0) + newlines w.
Proof.
  unfold newlines. rewrite filter_cons.
  destruct (decide (c = NL)) as [-> | Hne].
  - rewrite len_cons. reflexivity.
  - apply N.eqb_neq in Hne. by rewrite Hne.
Qed.

Lemma step_skipped s c :
  current_state s = St_START -> getitem (current_input s) (pos s) = Ok c ->
  skipped_char U c = true ->
  step U s = Ok (set_line (line s + (if (c =? NL)%N then 1 else 0)) (set_pos (pos s + 1) s)).
Proof.
  intros Hst Hget Hskip. unfold step. rewrite Hget. simpl.
  unfold skipped_char in Hskip.
  repeat (apply andb_true_iff in Hskip as [Hskip ?]).
  repeat match goal with H : negb _ = true |- _ => apply negb_true_iff in H end.
  destruct s as [kw ln p ts st buf inp]; simpl in *. subst st.
  unfold dispatch, handle_start.
  destruct (c =? NL)%N eqn:E; simpl;
    repeat match goal with H : _ = false |- _ => rewrite H end; simpl;
    rewrite ?Z.add_0_r; by case_match.
Qed.

(** START passes over a run of characters that begin no token: the position
    moves behind the run, the line counter rises by the newlines of the run,
    and nothing else changes. *)
Lemma skip_run w pre rest s :
  current_state s = St_START -> current_input s = pre ++ w ++ rest -> pos s = len pre ->
  forallb (skipped_char U) w = true ->
  rtc (turn U) s (set_line (line s + newlines w) (set_pos (len pre + len w) s)).
Proof.
  revert pre s. induction w as [|c w IH]; intros pre s Hst Hin Hpos Hw.
  - replace (set_line _ _) with s; [apply rtc_refl |].
    destruct s; unfold set_line, set_pos; simpl in *. f_equal; unfold newlines, len in *; simpl; lia.
  - simpl in Hw, Hin. apply andb_true_iff in Hw as [Hc Hw].
    assert (Hget : getitem (current_input s) (pos s) = Ok c).
    { rewrite Hin, Hpos. apply getitem_app_mid. }
    eapply rtc_l.
    + split; [| by apply step_skipped].
      rewrite Hin, Hpos, len_app, len_cons.
      pose proof (len_nonneg (w ++ rest)). lia.
    + set (s1 := set_line _ _).
      replace (set_line (line s + newlines (c :: w)) (set_pos (len pre + len (c :: w)) s))
        with (set_line (line s1 + newlines w) (set_pos (len (pre ++ [c]) + len w) s1)).
      * apply IH; [done | | | done].
        -- subst s1. simpl. rewrite Hin, <- app_assoc. reflexivity.
        -- subst s1. simpl. rewrite Hpos, len_app. reflexivity.
      * subst s1. rewrite newlines_cons, len_app, (len_cons c w).
        destruct s; unfold set_line, set_pos; simpl. f_equal; change (len [c]) with 1; lia.
Qed.

Lemma word_char_not_newline c : word_char U c = true -> (c =? NL)%N = false.
Proof.
  intros H. destruct (c =? NL)%N eqn:E; [| reflexivity].
  apply N.eqb_eq in E. subst c. discriminate.
Qed.

Lemma step_word s c :
  current_state s = St_IDENTIFIER -> getitem (current_input s) (pos s) = Ok c ->
  word_char U c = true ->
  step U s = Ok (set_buffer (buffer s ++ [c]) (set_pos (pos s + 1) s)).
Proof.
  intros Hst Hget Hw. unfold step. rewrite Hget. simpl.
  rewrite (word_char_not_newline c Hw).
  unfold dispatch. simpl. rewrite Hst. unfold handle_identifier.
  unfold word_char in Hw. by rewrite Hw.
Qed.

(** IDENTIFIER takes a run of letters, digits and underscores into the
    buffer. *)
Lemma identifier_run w pre rest s :
  current_state s = St_IDENTIFIER -> current_input s = pre ++ w ++ rest -> pos s = len pre ->
  forallb (word_char U) w = true ->
  rtc (turn U) s (set_buffer (buffer s ++ w) (set_pos (len pre + len w) s)).
Proof.
  revert pre s. induction w as [|c w IH]; intros pre s Hst Hin Hpos Hw.
  - replace (set_buffer _ _) with s; [apply rtc_refl |].
    destruct s; unfold set_buffer, set_pos; simpl in *. rewrite app_nil_r.
    f_equal; unfold len in *; simpl; lia.
  - simpl in Hw, Hin. apply andb_true_iff in Hw as [Hc Hw].
    assert (Hget : getitem (current_input s) (pos s) = Ok c).
    { rewrite Hin, Hpos. apply getitem_app_mid. }
    eapply rtc_l.
    + split; [| by apply step_word].
      rewrite Hin, Hpos, len_app, len_cons.
      pose proof (len_nonneg (w ++ rest)). lia.
    + set (s1 := set_buffer _ _).
      replace (set_buffer (buffer s ++ c :: w) (set_pos (len pre + len (c :: w)) s))
        with (set_buffer (buffer s1 ++ w) (set_pos (len (pre ++ [c]) + len w) s1)).
      * apply IH; [done | | | done].
        -- subst s1. simpl. rewrite Hin, <- app_assoc. reflexivity.
        -- subst s1. simpl. rewrite Hpos, len_app. reflexivity.
      * subst s1. rewrite len_app, (len_cons c w).
        destruct s; unfold set_buffer, set_pos; simpl. rewrite <- app_assoc.
        f_equal; change (len [c]) with 1; lia.
Qed.

End ScannerRuns.
Section ScannerCalls.
Context (U : UnicodeData).

Ltac shift_cases H :=
  repeat (first [ discriminate
                | match type of H with
                  | (?m ≫= _) = Ok _ => destruct m eqn:?; simpl in H
                  | context [if ?b then _ else _] => destruct b eqn:?
                  | context [match ?b with _ => _ end] => destruct b eqn:?
                  | Ok _ = Ok _ => injection H as <-
                  end ]; simpl in * ).

(** A turn of the loop reads the line counter only to stamp the tokens it
    emits, and reads nothing of the tokens emitted before. *)
Lemma step_shifted d pre s s' :
  step U s = Ok s' -> step U (shifted d pre s) = Ok (shifted d pre s').
Proof.
  intros H. unfold step in *.
  unfold dispatch, handle_start, handle_identifier, handle_number, handle_scientific,
    handle_complex, handle_string in *.
  destruct s as [kw ln p ts st buf inp]; unfold shifted in *; simpl in *.
  destruct (getitem inp p) as [c|] eqn:Eg; simpl in *; [| discriminate].
  replace (ln + d + 1) with (ln + 1 + d) by lia.
  destruct st; simpl in *; shift_cases H;
    cbv [finalize_token add_error add_operator add_delimiter append_token
         set_state set_pos set_buffer set_tokens set_line shift_line
         keywords line pos tokens current_state buffer current_input
         tok_line tok_type tok_value];
    rewrite ?map_app, <- ?app_assoc; reflexivity.
Qed.

Lemma run_shifted d pre fuel s s' :
  run U fuel s = Ok s' -> run U fuel (shifted d pre s) = Ok (shifted d pre s').
Proof.
  revert s. induction fuel as [|fuel IH]; intros s; simpl.
  - destruct (pos s <? len (current_input s)); [discriminate | by intros [= ->]].
  - destruct (pos s <? len (current_input s)); [| by intros [= ->]].
    destruct (step U s) as [s1|] eqn:Hstep; simpl; [| discriminate].
    intros H. rewrite (step_shifted d pre _ _ Hstep). simpl. by apply IH.
Qed.

Lemma tokenize_shifted d pre code s s' :
  tokenize U code s = Ok s' ->
  tokenize U code (shifted d pre s) = Ok (shifted d pre s').
Proof.
  unfold tokenize. intros H.
  destruct (run U _ (tokenize_reset code s)) as [s1|] eqn:Hrun; simpl in H; [| discriminate].
  injection H as <-.
  change (tokenize_reset code (shifted d pre s))
    with (shifted d pre (tokenize_reset code s)).
  change (turns_left (shifted d pre (tokenize_reset code s)))
    with (turns_left (tokenize_reset code s)).
  rewrite (run_shifted d pre _ _ _ Hrun). simpl. f_equal.
  destruct (buffer s1); [reflexivity |].
  cbv [finalize_token append_token shifted set_buffer set_tokens shift_line
       keywords line pos tokens current_state buffer current_input
       tok_line tok_type tok_value].
  by rewrite map_app, <- app_assoc.
Qed.

(** A call on an instance, compared with the call on a new instance with
    the same keywords: the tokens already there stay, the new tokens are
    those of the new instance with their lines moved by the counter of the
    instance, and the counter moves as the counter of the new instance. *)
Lemma tokenize_continues code s new :
  tokenize U code (Lexer_init (keywords s)) = Ok new ->
  tokenize U code s = Ok (shifted (line s - 1) (tokens s) new).
Proof.
  intros H. apply (tokenize_shifted (line s - 1) (tokens s)) in H.
  rewrite <- H. unfold tokenize.
  assert (Heq : tokenize_reset code s
                = tokenize_reset code (shifted (line s - 1) (tokens s)
                                               (Lexer_init (keywords s)))).
  { unfold tokenize_reset, shifted, Lexer_init, set_input, set_pos, set_buffer, set_state.
    simpl. rewrite app_nil_r. f_equal. lia. }
  by rewrite Heq.
Qed.

(** C10: [tokenize] resets neither the token list nor the line counter of its
    instance.  A second call returns the list of the first call followed by
    the tokens that the second text gives on a new instance whose line
    counter stands where the first call left it.  Against new instances,
    whose counter starts at 1: each call keeps the tokens it finds, appends
    the tokens the text gives on a new instance with every line stamp moved
    up by the counter it finds less one, and leaves the counter moved up by
    as much.  So the stamps of the second call lie between the counter the
    first call left and the counter the second call leaves.  The position,
    the buffer and the text are those of the last call. *)
Theorem C10_tokenize_keeps_tokens_and_line code1 code2 s :
  exists s1 s2 s2' new1 new2,
    tokenize U code1 s = Ok s1 /\ tokenize U code2 s1 = Ok s2 /\
    tokenize U code2 (Lexer_at (keywords s1) (line s1)) = Ok s2' /\
    tokens s2 = tokens s1 ++ tokens s2' /\
    tokenize U code1 (Lexer_init (keywords s)) = Ok new1 /\
    tokenize U code2 (Lexer_init (keywords s)) = Ok new2 /\
    tokens s1 = tokens s ++ map (shift_line (line s - 1)) (tokens new1) /\
    line s1 = line s + (line new1 - 1) /\
    tokens s2 = tokens s1 ++ map (shift_line (line s1 - 1)) (tokens new2) /\
    line s2 = line s1 + (line new2 - 1) /\
    1 <= line new1 /\ 1 <= line new2 /\
    Forall (fun t => line s1 <= tok_line t <= line s2) (tokens s2') /\
    pos s2 = len code2 /\ buffer s2 = [] /\ current_input s2 = code2.
Proof.
  destruct (tokenize_out U code1 (Lexer_init (keywords s)))
    as (new1 & out1 & H1 & Hk1 & _ & _ & _ & Hl1 & _).
  destruct (tokenize_out U code2 (Lexer_init (keywords s)))
    as (new2 & out2 & H2 & Hk2 & Hin2 & Hp2 & Hb2 & Hl2 & Ht2 & _ & Hbd2 & _).
  simpl in Hk1, Hk2, Hl1, Hl2, Ht2, Hbd2.
  pose proof (tokenize_continues code1 s new1 H1) as Hs1.
  set (s1 := shifted (line s - 1) (tokens s) new1) in *.
  assert (Hkw : keywords s1 = keywords s) by done.
  assert (H2' : tokenize U code2 (Lexer_init (keywords s1)) = Ok new2) by (by rewrite Hkw).
  pose proof (tokenize_continues code2 s1 new2 H2') as Hs2.
  set (s2 := shifted (line s1 - 1) (tokens s1) new2) in *.
  assert (Hat : tokenize U code2 (Lexer_at (keywords s1) (line s1))
                = Ok (shifted (line s1 - 1) [] new2)).
  { exact (tokenize_continues code2 (Lexer_at (keywords s1) (line s1)) new2 H2'). }
  exists s1, s2, (shifted (line s1 - 1) [] new2), new1, new2.
  repeat split; try done; try (subst s1 s2; simpl; lia).
  subst s2. simpl. rewrite Ht2. apply Forall_map.
  eapply Forall_impl; [exact Hbd2 |]. intros t [Ha Hb]. simpl. subst s1. simpl. lia.
Qed.

End ScannerCalls.
Section ScannerTheorems.
Context (U : UnicodeData).

Lemma determine_token_type_keyword kws v :
  determine_token_type U kws v = KEYWORD <-> v ∈ kws.
Proof.
  unfold determine_token_type. split.
  - intros H. destruct (bool_decide (v ∈ kws)) eqn:E; [by apply bool_decide_eq_true in E |].
    repeat case_match; discriminate.
  - intros H. by rewrite bool_decide_eq_true_2.
Qed.

Lemma lexemes_length out :
  Forall (fun t => tok_value t <> []) out -> (length out <= length (lexemes out))%nat.
Proof.
  induction 1 as [|t out Ht _ IH]; [done |].
  unfold lexemes in *. simpl. rewrite length_app.
  destruct (tok_value t); [done |]. simpl. lia.
Qed.

Lemma step_word_start s c :
  current_state s = St_START -> getitem (current_input s) (pos s) = Ok c ->
  isalpha U c || (c =? ch "_")%N = true ->
  step U s = Ok (set_buffer (buffer s ++ [c]) (set_state St_IDENTIFIER (set_pos (pos s + 1) s))).
Proof.
  intros Hst Hget Hw. unfold step. rewrite Hget. simpl.
  assert (E : (c =? NL)%N = false).
  { destruct (c =? NL)%N eqn:E; [| reflexivity]. apply N.eqb_eq in E. subst c. discriminate. }
  rewrite E. unfold dispatch. simpl. rewrite Hst. unfold handle_start. by rewrite Hw.
Qed.

Lemma step_word_end s c :
  current_state s = St_IDENTIFIER -> getitem (current_input s) (pos s) = Ok c ->
  word_char U c = false ->
  step U s = Ok (set_state St_START
                   (set_pos (pos s)
                      (finalize_token U
                         (set_line (line s + (if (c =? NL)%N then 1 else 0)) s)))).
Proof.
  intros Hst Hget Hw. unfold step. rewrite Hget. simpl.
  unfold word_char in Hw.
  destruct s as [kw ln p ts st buf inp]; simpl in *. subst st.
  unfold dispatch, handle_identifier.
  destruct (c =? NL)%N; simpl; rewrite Hw;
    cbv [finalize_token append_token set_state set_pos set_buffer set_tokens set_line
         keywords line pos tokens current_state buffer current_input];
    rewrite ?Z.add_0_r, ?Z.add_simpl_r; reflexivity.
Qed.

(** [tokenize] returns on every text, whatever the instance it is called on:
    no handler raises and the loop ends.  It leaves the position at the end
    of the text and the buffer empty, keeps the text it was given, and does
    not change the keyword set. *)
Theorem tokenize_reads_whole_text code s :
  exists s', tokenize U code s = Ok s' /\ pos s' = len code /\ buffer s' = [] /\
             current_input s' = code /\ keywords s' = keywords s.
Proof.
  destruct (tokenize_out U code s) as (s' & out & H & Hkw & Hin & Hp & Hb & _).
  by exists s'.
Qed.

(** [tokenize] only appends to the token list, and the line stamps of the
    tokens it appends never go down: each lies between the line counter at
    the call and the line counter the call leaves. *)
Theorem token_lines_never_decrease code s :
  exists s' out,
    tokenize U code s = Ok s' /\ tokens s' = tokens s ++ out /\
    lines_ascend out /\ Forall (fun t => line s <= tok_line t <= line s') out.
Proof.
  destruct (tokenize_out U code s)
    as (s' & out & H & _ & _ & _ & _ & _ & Hts & _ & Hbd & Hasc & _).
  by exists s', out.
Qed.

(** The type of every token [tokenize] appends fits its lexeme.  No lexeme
    is empty; an OPERATOR or DELIMITER token is one character of the
    operator or delimiter set; a KEYWORD, IDENTIFIER or CONSTANT token has
    the type [determine_token_type] gives its lexeme, so that a KEYWORD
    lexeme is a keyword of the instance and an IDENTIFIER or CONSTANT lexeme
    is none. *)
Theorem token_types_fit_lexemes code s :
  exists s' out,
    tokenize U code s = Ok s' /\ tokens s' = tokens s ++ out /\
    Forall (fun t => lexeme_ok U (keywords s) t /\
                     (tok_type t = KEYWORD -> tok_value t ∈ keywords s) /\
                     (tok_type t = IDENTIFIER \/ tok_type t = CONSTANT ->
                      tok_value t ∉ keywords s)) out.
Proof.
  destruct (tokenize_out U code s)
    as (s' & out & H & _ & _ & _ & _ & _ & Hts & Hok & _).
  exists s', out. split; [done |]. split; [done |].
  eapply Forall_impl; [exact Hok |]. intros t Ht. split; [done |].
  destruct Ht as [_ Ht]. split.
  - intros Hk. rewrite Hk in Ht. by apply determine_token_type_keyword.
  - intros Hty Hin. apply determine_token_type_keyword in Hin.
    destruct Hty as [Hty | Hty]; rewrite Hty in Ht; congruence.
Qed.

(** The scanner invents no character and does not reorder the text: the
    lexemes of the tokens [tokenize] appends, put end to end, are a
    subsequence of the text, so there are no more tokens than characters. *)
Theorem lexemes_follow_the_text code s :
  exists s' out,
    tokenize U code s = Ok s' /\ tokens s' = tokens s ++ out /\
    lexemes out `sublist_of` code /\ (length out <= length code)%nat.
Proof.
  destruct (tokenize_out U code s)
    as (s' & out & H & _ & _ & _ & _ & _ & Hts & Hok & _ & _ & Hsub).
  exists s', out. repeat split; try done.
  etrans; [apply lexemes_length | by apply sublist_length].
  eapply Forall_impl; [exact Hok |]. by intros t [? _].
Qed.

(** A text made of characters that begin no token (white space, newlines
    and every other character START has no branch for) gives no token; the
    line counter rises by the number of newlines of the text. *)
Theorem skipped_text_gives_no_token code s :
  forallb (skipped_char U) code = true ->
  exists s', tokenize U code s = Ok s' /\ tokens s' = tokens s /\
             line s' = line s + newlines code.
Proof.
  intros Hskip.
  pose proof (skip_run U code [] [] (tokenize_reset code s)) as Hrun.
  rewrite app_nil_r in Hrun. specialize (Hrun eq_refl eq_refl eq_refl Hskip).
  eexists. split; [| split].
  - apply (tokenize_of_turns U _ _ _ Hrun). simpl. unfold len. simpl. lia.
  - reflexivity.
  - reflexivity.
Qed.

(** From START at a letter or an underscore the scanner takes the longest
    run of letters, digits and underscores as one lexeme: when the character
    after the run is dispatched it appends one token that carries the run,
    typed by [determine_token_type], and is back in START at that character.
    The token is stamped with the line counter after that character was
    counted, so a newline right after the run puts the token on the next
    line. *)
Theorem identifier_is_taken_whole s pre w0 w c rest :
  current_state s = St_START -> buffer s = [] ->
  current_input s = pre ++ w0 :: w ++ c :: rest -> pos s = len pre ->
  isalpha U w0 || (w0 =? ch "_")%N = true ->
  forallb (word_char U) w = true -> word_char U c = false ->
  exists s',
    rtc (turn U) s s' /\
    tokens s' = tokens s ++
      [mkToken (line s') (determine_token_type U (keywords s) (w0 :: w)) (w0 :: w)] /\
    line s' = line s + (if (c =? NL)%N then 1 else 0) /\
    pos s' = len pre + 1 + len w /\ current_state s' = St_START /\ buffer s' = [].
Proof.
  intros Hst Hbuf Hin Hpos Hw0 Hw Hc.
  assert (Hget0 : getitem (current_input s) (pos s) = Ok w0).
  { rewrite Hin, Hpos. apply getitem_app_mid. }
  pose proof (step_word_start s w0 Hst Hget0 Hw0) as Hstep0.
  set (s1 := set_buffer _ _) in Hstep0.
  assert (Hrun : rtc (turn U) s1
                   (set_buffer (buffer s1 ++ w) (set_pos (len (pre ++ [w0]) + len w) s1))).
  { apply (identifier_run U w (pre ++ [w0]) (c :: rest)); [done | | | done].
    - subst s1. simpl. rewrite Hin, <- app_assoc. reflexivity.
    - subst s1. simpl. rewrite Hpos, len_app. reflexivity. }
  set (s2 := set_buffer (buffer s1 ++ w) _) in Hrun.
  assert (Hp2 : pos s2 = len pre + 1 + len w).
  { subst s2. simpl. rewrite len_app. reflexivity. }
  assert (Hget2 : getitem (current_input s2) (pos s2) = Ok c).
  { rewrite Hp2. subst s2 s1. simpl. rewrite Hin.
    replace (pre ++ w0 :: w ++ c :: rest) with ((pre ++ w0 :: w) ++ c :: rest)
      by (by rewrite <- app_assoc).
    replace (len pre + 1 + len w) with (len (pre ++ w0 :: w))
      by (rewrite len_app, len_cons; lia).
    apply getitem_app_mid. }
  pose proof (step_word_end s2 c eq_refl Hget2 Hc) as Hstep2.
  eexists. split.
  - eapply rtc_l.
    { split; [| exact Hstep0]. rewrite Hin, Hpos, len_app, len_cons.
      pose proof (len_nonneg (w ++ c :: rest)). lia. }
    etrans; [exact Hrun |]. apply rtc_once. split; [| exact Hstep2].
    rewrite Hp2. subst s2 s1. simpl. rewrite Hin, !len_app, !len_cons, len_app, len_cons.
    pose proof (len_nonneg rest). lia.
  - cbn [tokens line pos current_state buffer set_state set_pos].
    subst s2 s1. simpl. rewrite Hbuf, len_app. simpl. by repeat split.
Qed.

End ScannerTheorems.

(** A text of blanks and newlines on a new instance. *)
Lemma skipped_text_witness :
  exists s', tokenize ascii_only (u " " ++ [NL; TAB; NL] ++ u "@ ") (Lexer_init ∅) = Ok s' /\
             tokens s' = tokens (Lexer_init ∅) /\
             line s' = line (Lexer_init ∅) + newlines (u " " ++ [NL; TAB; NL] ++ u "@ ").
Proof.
  apply (skipped_text_gives_no_token ascii_only (u " " ++ [NL; TAB; NL] ++ u "@ ")
           (Lexer_init ∅)).
  reflexivity.
Defined.

(** The word [ab1] before a newline, in the text [x ab1] followed by a
    newline and [y]. *)
Lemma identifier_is_taken_whole_witness :
  exists s',
    rtc (turn ascii_only) (mkLexer ∅ 1 2 [] St_START [] (u "x ab1" ++ NL :: u "y")) s' /\
    tokens s' = [] ++
      [mkToken (line s') (determine_token_type ascii_only ∅ (ch "a" :: u "b1"))
               (ch "a" :: u "b1")] /\
    line s' = 1 + (if (NL =? NL)%N then 1 else 0) /\
    pos s' = len (u "x ") + 1 + len (u "b1") /\ current_state s' = St_START /\
    buffer s' = [].
Proof.
  apply (identifier_is_taken_whole ascii_only
           (mkLexer ∅ 1 2 [] St_START [] (u "x ab1" ++ NL :: u "y"))
           (u "x ") (ch "a") (u "b1") NL (u "y")); reflexivity.
Defined.
Section Punctuation.
Context (U : UnicodeData).

Lemma step_punct s c :
  current_state s = St_START -> getitem (current_input s) (pos s) = Ok c ->
  punct_char c = true ->
  step U s = Ok (append_token (punct_token (line s) c) (set_pos (pos s + 1) s)).
Proof.
  intros Hst Hget Hc. unfold step. rewrite Hget. simpl.
  destruct s as [kw ln p ts st buf inp]; simpl in *. subst st.
  unfold punct_char, char_in, operator_chars, delimiter_chars in Hc. simpl in Hc.
  repeat (apply orb_true_iff in Hc as [Hc | Hc]);
    try discriminate; apply N.eqb_eq in Hc; subst c; reflexivity.
Qed.

(** START makes one token of every operator and delimiter character. *)
Lemma punct_run w pre rest s :
  current_state s = St_START -> current_input s = pre ++ w ++ rest -> pos s = len pre ->
  forallb punct_char w = true ->
  rtc (turn U) s (set_tokens (tokens s ++ map (punct_token (line s)) w)
                             (set_pos (len pre + len w) s)).
Proof.
  revert pre s. induction w as [|c w IH]; intros pre s Hst Hin Hpos Hw.
  - replace (set_tokens _ _) with s; [apply rtc_refl |].
    destruct s; unfold set_tokens, set_pos; simpl in *. rewrite app_nil_r.
    f_equal; unfold len in *; simpl; lia.
  - simpl in Hw, Hin. apply andb_true_iff in Hw as [Hc Hw].
    assert (Hget : getitem (current_input s) (pos s) = Ok c).
    { rewrite Hin, Hpos. apply getitem_app_mid. }
    eapply rtc_l.
    + split; [| by apply step_punct].
      rewrite Hin, Hpos, len_app, len_cons.
      pose proof (len_nonneg (w ++ rest)). lia.
    + set (s1 := append_token _ _).
      replace (set_tokens (tokens s ++ map (punct_token (line s)) (c :: w))
                          (set_pos (len pre + len (c :: w)) s))
        with (set_tokens (tokens s1 ++ map (punct_token (line s1)) w)
                         (set_pos (len (pre ++ [c]) + len w) s1)).
      * apply IH; [done | | | done].
        -- subst s1. simpl. rewrite Hin, <- app_assoc. reflexivity.
        -- subst s1. simpl. rewrite Hpos, len_app. reflexivity.
      * subst s1. rewrite len_app, (len_cons c w).
        destruct s; unfold append_token, set_tokens, set_pos; simpl.
        rewrite <- app_assoc. f_equal; change (len [c]) with 1; lia.
Qed.

(** The scanner forms no operator of more than one character: a text of
    operator and delimiter characters gives one token for each character, in
    the order of the text, an OPERATOR or a DELIMITER by the set the
    character is in, all stamped with the line counter of the call. *)
Theorem punctuation_is_one_token_per_character code s :
  forallb punct_char code = true ->
  exists s', tokenize U code s = Ok s' /\
             tokens s' = tokens s ++ map (punct_token (line s)) code /\
             line s' = line s.
Proof.
  intros Hp.
  pose proof (punct_run code [] [] (tokenize_reset code s)) as Hrun.
  rewrite app_nil_r in Hrun. specialize (Hrun eq_refl eq_refl eq_refl Hp).
  eexists. split; [| split].
  - apply (tokenize_of_turns U _ _ _ Hrun). simpl. unfold len. simpl. lia.
  - reflexivity.
  - reflexivity.
Qed.

End Punctuation.

(** The text [<=(==)] on a new instance. *)
Lemma punctuation_witness :
  exists s', tokenize ascii_only (u "<=(==)") (Lexer_init ∅) = Ok s' /\
             tokens s' = tokens (Lexer_init ∅)
                         ++ map (punct_token (line (Lexer_init ∅))) (u "<=(==)") /\
             line s' = line (Lexer_init ∅).
Proof.
  apply (punctuation_is_one_token_per_character ascii_only (u "<=(==)") (Lexer_init ∅)).
  reflexivity.
Defined.
(** * The patterns of [determine_token_type] on the lexemes of the scanner *)

Section Patterns.
Context (U : UnicodeData).

Lemma full_match_alt r1 r2 s :
  full_match (RAlt r1 r2) s = full_match r1 s || full_match r2 s.
Proof. revert r1 r2. induction s as [|c s IH]; intros r1 r2; simpl; [done | apply IH]. Qed.

Lemma full_match_none_cat r s : full_match (RCat RNone r) s = false.
Proof. induction s as [|c s IH]; simpl; [done | apply IH]. Qed.

Lemma full_match_eps_cat r s : full_match (RCat REps r) s = full_match r s.
Proof.
  destruct s as [|c s]; simpl; [done |].
  by rewrite full_match_alt, full_match_none_cat.
Qed.

Lemma full_match_chr_cat q r c s :
  full_match (RCat (RChr q) r) (c :: s) = q c && full_match r s.
Proof.
  simpl. destruct (q c); simpl; [apply full_match_eps_cat | apply full_match_none_cat].
Qed.

Lemma full_match_chr_cat_nil q r : full_match (RCat (RChr q) r) [] = false.
Proof. done. Qed.

Lemma full_match_star_chr q s : full_match (RStar (RChr q)) s = forallb q s.
Proof.
  induction s as [|c s IH]; simpl; [done |].
  destruct (q c); simpl; [by rewrite full_match_eps_cat | apply full_match_none_cat].
Qed.

Lemma full_match_nullable_cat r1 r2 s :
  nullable r1 = true -> full_match r2 s = true -> full_match (RCat r1 r2) s = true.
Proof.
  intros Hn H. destruct s as [|c s]; simpl in *; [by rewrite Hn |].
  rewrite Hn, full_match_alt, H. apply orb_true_r.
Qed.

(** A string matches [r1 r2] when it splits into a match of [r1] and a match
    of [r2]. *)
Lemma full_match_cat r1 r2 s1 s2 :
  full_match r1 s1 = true -> full_match r2 s2 = true ->
  full_match (RCat r1 r2) (s1 ++ s2) = true.
Proof.
  revert r1. induction s1 as [|c s1 IH]; intros r1 H1 H2; simpl in *.
  - by apply full_match_nullable_cat.
  - destruct (nullable r1).
    + rewrite full_match_alt, IH by done. done.
    + by apply IH.
Qed.

Lemma re_match_full r s : full_match r s = true -> re_match r s = true.
Proof. unfold re_match. by intros ->. Qed.

(** A pattern that begins with a character class does not match a string
    whose first character is outside the class. *)
Lemma re_match_first_char q r c s :
  q c = false -> re_match (RCat (RChr q) r) (c :: s) = false.
Proof.
  intros Hq. unfold re_match. rewrite full_match_chr_cat, Hq. simpl.
  destruct (List.rev s ++ [c]) as [|x l] eqn:E; [done |].
  destruct (x =? NL)%N; [| done]. simpl.
  destruct (List.rev l) as [|y l'] eqn:El; [done |].
  rewrite full_match_chr_cat.
  assert (Hy : y = c).
  { assert (Hs : c :: s = List.rev (x :: l)).
    { rewrite <- E, rev_app_distr, rev_involutive. done. }
    simpl in Hs. rewrite El in Hs. simpl in Hs. by injection Hs. }
  by rewrite Hy, Hq.
Qed.

Lemma digit_is_no_letter c :
  in_range 48 57 c = true -> ascii_lower c || ascii_upper c || (c =? ch "_")%N = false.
Proof.
  unfold ascii_lower, ascii_upper, in_range.
  intros [H1 H2]%andb_true_iff. apply N.leb_le in H1, H2.
  assert (E1 : (97 <=? c)%N = false) by (apply N.leb_gt; lia).
  assert (E2 : (65 <=? c)%N = false) by (apply N.leb_gt; lia).
  assert (E3 : (c =? ch "_")%N = false) by (apply N.eqb_neq; change (ch "_") with 95%N; lia).
  by rewrite E1, E2, E3.
Qed.

Lemma nonzero_digit_is_digit d0 : in_range 49 57 d0 = true -> in_range 48 57 d0 = true.
Proof.
  unfold in_range. intros [H1 H2]%andb_true_iff. apply N.leb_le in H1.
  apply andb_true_iff. split; [apply N.leb_le; lia | done].
Qed.

(** A run of decimal digits that does not begin with a zero is a CONSTANT,
    unless it is in the keyword set. *)
Lemma integer_type kws d0 ds :
  in_range 49 57 d0 = true -> forallb (isdecimal U) ds = true -> d0 :: ds ∉ kws ->
  determine_token_type U kws (d0 :: ds) = CONSTANT.
Proof.
  intros H0 Hds Hk.
  assert (Hid : re_match (identifier_pattern U) (d0 :: ds) = false).
  { apply re_match_first_char, digit_is_no_letter. by apply nonzero_digit_is_digit. }
  assert (Hint : re_match (integer_pattern U) (d0 :: ds) = true).
  { apply re_match_full. unfold integer_pattern.
    rewrite full_match_alt, full_match_chr_cat, H0. unfold re_d.
    by rewrite full_match_star_chr, Hds. }
  unfold determine_token_type.
  rewrite (bool_decide_eq_false_2 _ Hk), Hid, Hint.
  destruct (re_match (scientific_pattern U) (d0 :: ds)); [reflexivity |].
  destruct (re_match (complex_pattern U) (d0 :: ds)); reflexivity.
Qed.

(** A double-quoted run of characters without a newline is a CONSTANT,
    unless it is in the keyword set. *)
Lemma string_type kws body :
  forallb (fun c => negb (c =? NL)%N) body = true ->
  DQUOTE :: body ++ [DQUOTE] ∉ kws ->
  determine_token_type U kws (DQUOTE :: body ++ [DQUOTE]) = CONSTANT.
Proof.
  intros Hb Hk.
  assert (Hid : re_match (identifier_pattern U) (DQUOTE :: body ++ [DQUOTE]) = false).
  { by apply re_match_first_char. }
  assert (Hstr : re_match dq_string_pattern (DQUOTE :: body ++ [DQUOTE]) = true).
  { apply re_match_full. unfold dq_string_pattern, RLit.
    rewrite full_match_chr_cat, N.eqb_refl. cbn [andb].
    apply full_match_cat; [| reflexivity]. unfold re_dot. by rewrite full_match_star_chr. }
  unfold determine_token_type.
  rewrite (bool_decide_eq_false_2 _ Hk), Hid, Hstr. cbn [orb].
  destruct (re_match (scientific_pattern U) _); [reflexivity |].
  destruct (re_match (complex_pattern U) _); [reflexivity |].
  destruct (re_match (integer_pattern U) _); [reflexivity |].
  destruct (re_match (float_pattern U) _); reflexivity.
Qed.

End Patterns.
Section LexemeRuns.
Context (U : UnicodeData).

(** A state in which every character of a class is appended to the buffer
    takes a run of such characters into the buffer. *)
Lemma append_run (P : Lexer -> Prop) (ok : char -> bool) :
  (forall s c, P s -> getitem (current_input s) (pos s) = Ok c -> ok c = true ->
     step U s = Ok (set_buffer (buffer s ++ [c]) (set_pos (pos s + 1) s)) /\
     P (set_buffer (buffer s ++ [c]) (set_pos (pos s + 1) s))) ->
  forall w pre rest s,
    P s -> current_input s = pre ++ w ++ rest -> pos s = len pre ->
    forallb ok w = true ->
    rtc (turn U) s (set_buffer (buffer s ++ w) (set_pos (len pre + len w) s)).
Proof.
  intros Hstep w. induction w as [|c w IH]; intros pre rest s HP Hin Hpos Hw.
  - replace (set_buffer _ _) with s; [apply rtc_refl |].
    destruct s; unfold set_buffer, set_pos; simpl in *. rewrite app_nil_r.
    f_equal; unfold len in *; simpl; lia.
  - simpl in Hw, Hin. apply andb_true_iff in Hw as [Hc Hw].
    assert (Hget : getitem (current_input s) (pos s) = Ok c).
    { rewrite Hin, Hpos. apply getitem_app_mid. }
    destruct (Hstep s c HP Hget Hc) as [Hs HP1].
    eapply rtc_l.
    + split; [| exact Hs].
      rewrite Hin, Hpos, len_app, len_cons.
      pose proof (len_nonneg (w ++ rest)). lia.
    + set (s1 := set_buffer _ _) in *.
      replace (set_buffer (buffer s ++ c :: w) (set_pos (len pre + len (c :: w)) s))
        with (set_buffer (buffer s1 ++ w) (set_pos (len (pre ++ [c]) + len w) s1)).
      * apply (IH (pre ++ [c]) rest); [done | | | done].
        -- subst s1. simpl. rewrite Hin, <- app_assoc. reflexivity.
        -- subst s1. simpl. rewrite Hpos, len_app. reflexivity.
      * subst s1. rewrite len_app, (len_cons c w).
        destruct s; unfold set_buffer, set_pos; simpl. rewrite <- app_assoc.
        f_equal; change (len [c]) with 1; lia.
Qed.

Lemma isdigit_is_no_letter c : isdigit U c = true -> (c =? ch "_")%N = false.
Proof.
  intros H. destruct (c =? ch "_")%N eqn:E; [| reflexivity].
  apply N.eqb_eq in E. subst c. discriminate.
Qed.

Lemma step_digit_start s d0 :
  current_state s = St_START -> getitem (current_input s) (pos s) = Ok d0 ->
  in_range 48 57 d0 = true ->
  step U s = Ok (set_buffer (buffer s ++ [d0]) (set_state St_NUMBER (set_pos (pos s + 1) s))).
Proof.
  intros Hst Hget Hd. unfold step. rewrite Hget. simpl.
  assert (Hlt : (d0 <? 128)%N = true).
  { unfold in_range in Hd. apply andb_true_iff in Hd as [_ Hd]. apply N.leb_le in Hd.
    apply N.ltb_lt. lia. }
  assert (Hdig : isdigit U d0 = true) by (unfold isdigit; by rewrite Hlt).
  assert (Hal : isalpha U d0 || (d0 =? ch "_")%N = false).
  { pose proof (digit_is_no_letter d0 Hd) as Hno.
    apply orb_false_iff in Hno as [Hno Hu]. apply orb_false_iff in Hno as [Hl Hu'].
    unfold isalpha. by rewrite Hlt, Hu', Hl, Hu. }
  rewrite (isdigit_not_newline U d0 Hdig).
  unfold dispatch. simpl. rewrite Hst. unfold handle_start. by rewrite Hal, Hdig.
Qed.

Lemma step_digit s c d0 b :
  current_state s = St_NUMBER -> buffer s = d0 :: b -> (d0 =? ch "0")%N = false ->
  getitem (current_input s) (pos s) = Ok c -> isdigit U c = true ->
  step U s = Ok (set_buffer (buffer s ++ [c]) (set_pos (pos s + 1) s)).
Proof.
  intros Hst Hbuf Hd0 Hget Hc. unfold step. rewrite Hget. simpl.
  rewrite (isdigit_not_newline U c Hc).
  unfold dispatch. simpl. rewrite Hst. unfold handle_number. simpl. rewrite Hbuf, Hc.
  destruct b; simpl; by rewrite ?Hd0.
Qed.

Lemma step_number_end s c :
  current_state s = St_NUMBER -> getitem (current_input s) (pos s) = Ok c ->
  number_char U c = false ->
  step U s = Ok (set_state St_START
                   (set_pos (pos s)
                      (finalize_token U
                         (set_line (line s + (if (c =? NL)%N then 1 else 0)) s)))).
Proof.
  intros Hst Hget Hc. unfold step. rewrite Hget. simpl.
  unfold number_char in Hc.
  apply orb_false_iff in Hc as [Hc Hs]. apply orb_false_iff in Hc as [Hc He].
  apply orb_false_iff in Hc as [Hd Hdot].
  destruct s as [kw ln p ts st buf inp]; simpl in *. subst st.
  unfold dispatch, handle_number.
  destruct (c =? NL)%N; simpl; rewrite Hd, Hdot, He, Hs;
    rewrite ?andb_false_r; simpl;
    (destruct buf as [|? [|? ?]]; simpl; rewrite ?andb_false_r);
    cbv [finalize_token append_token set_state set_pos set_buffer set_tokens set_line
         keywords line pos tokens current_state buffer current_input];
    rewrite ?Z.add_0_r, ?Z.add_simpl_r; reflexivity.
Qed.

Lemma step_quote_start s :
  current_state s = St_START -> getitem (current_input s) (pos s) = Ok DQUOTE ->
  step U s = Ok (set_buffer (buffer s ++ [DQUOTE])
                            (set_state St_STRING (set_pos (pos s + 1) s))).
Proof.
  intros Hst Hget. unfold step. rewrite Hget. simpl.
  unfold dispatch. simpl. by rewrite Hst.
Qed.

Lemma step_string_char s c :
  current_state s = St_STRING -> getitem (current_input s) (pos s) = Ok c ->
  string_char c = true ->
  step U s = Ok (set_buffer (buffer s ++ [c]) (set_pos (pos s + 1) s)).
Proof.
  intros Hst Hget Hc. unfold step. rewrite Hget. simpl.
  unfold string_char in Hc. apply andb_true_iff in Hc as [Hq Hn].
  apply negb_true_iff in Hq, Hn. rewrite Hn.
  unfold dispatch. simpl. rewrite Hst. unfold handle_string. simpl. by rewrite Hq, Hn.
Qed.

Lemma step_string_close s b x :
  current_state s = St_STRING -> buffer s = b ++ [x] -> (x =? BACKSLASH)%N = false ->
  getitem (current_input s) (pos s) = Ok DQUOTE ->
  step U s = Ok (set_state St_START
                   (finalize_token U
                      (set_buffer (buffer s ++ [DQUOTE]) (set_pos (pos s + 1) s)))).
Proof.
  intros Hst Hbuf Hx Hget. unfold step. rewrite Hget. simpl.
  unfold dispatch. simpl. rewrite Hst. unfold handle_string. simpl.
  rewrite Hbuf, <- app_assoc. simpl. rewrite getitem_before_last. simpl. by rewrite Hx.
Qed.

Lemma step_string_newline s :
  current_state s = St_STRING -> getitem (current_input s) (pos s) = Ok NL ->
  step U s = Ok (set_state St_START
                   (set_buffer []
                      (add_error (buffer s ++ [NL])
                         (set_line (line s + 1) (set_pos (pos s + 1) s))))).
Proof.
  intros Hst Hget. unfold step. rewrite Hget. simpl.
  unfold dispatch. simpl. rewrite Hst. unfold handle_string. simpl.
  destruct s; reflexivity.
Qed.

End LexemeRuns.
Section LexemeTheorems.
Context (U : UnicodeData).

(** From START at a digit from 1 to 9 the scanner takes the run of digits
    that follows as one lexeme: when a character that continues no number
    is dispatched it appends one CONSTANT token that carries the run, unless
    the run is a keyword, and is back in START at that character. *)
Theorem integer_is_a_constant s pre d0 ds c rest :
  current_state s = St_START -> buffer s = [] ->
  current_input s = pre ++ d0 :: ds ++ c :: rest -> pos s = len pre ->
  in_range 49 57 d0 = true ->
  forallb (fun x => isdigit U x && isdecimal U x) ds = true ->
  number_char U c = false -> d0 :: ds ∉ keywords s ->
  exists s',
    rtc (turn U) s s' /\
    tokens s' = tokens s ++ [mkToken (line s') CONSTANT (d0 :: ds)] /\
    line s' = line s + (if (c =? NL)%N then 1 else 0) /\
    pos s' = len pre + 1 + len ds /\ current_state s' = St_START /\ buffer s' = [].
Proof.
  intros Hst Hbuf Hin Hpos Hd0 Hds Hc Hk.
  assert (Hdig : forallb (isdigit U) ds = true /\ forallb (isdecimal U) ds = true).
  { rewrite !forallb_forall in *. split; intros x Hx; specialize (Hds x Hx);
      by apply andb_true_iff in Hds as [? ?]. }
  destruct Hdig as [Hdig Hdec].
  assert (Hnz : (d0 =? ch "0")%N = false).
  { apply N.eqb_neq. intros ->. discriminate. }
  assert (Hget0 : getitem (current_input s) (pos s) = Ok d0).
  { rewrite Hin, Hpos. apply getitem_app_mid. }
  pose proof (step_digit_start U s d0 Hst Hget0 (nonzero_digit_is_digit d0 Hd0)) as Hstep0.
  set (s1 := set_buffer _ _) in Hstep0.
  assert (Hrun : rtc (turn U) s1
                   (set_buffer (buffer s1 ++ ds) (set_pos (len (pre ++ [d0]) + len ds) s1))).
  { apply (append_run U
             (fun s => current_state s = St_NUMBER /\ exists b, buffer s = d0 :: b)
             (isdigit U)) with (rest := c :: rest); [| | | | done].
    - intros s0 x [Hs0 [b Hb]] Hx Hdx. split.
      + by eapply step_digit.
      + split; [done |]. exists (b ++ [x]). simpl. by rewrite Hb.
    - split; [done |]. exists []. subst s1. simpl. by rewrite Hbuf.
    - subst s1. simpl. rewrite Hin, <- app_assoc. reflexivity.
    - subst s1. simpl. rewrite Hpos, len_app. reflexivity. }
  set (s2 := set_buffer (buffer s1 ++ ds) _) in Hrun.
  assert (Hp2 : pos s2 = len pre + 1 + len ds).
  { subst s2. simpl. rewrite len_app. reflexivity. }
  assert (Hget2 : getitem (current_input s2) (pos s2) = Ok c).
  { rewrite Hp2. subst s2 s1. simpl. rewrite Hin.
    replace (pre ++ d0 :: ds ++ c :: rest) with ((pre ++ d0 :: ds) ++ c :: rest)
      by (by rewrite <- app_assoc).
    replace (len pre + 1 + len ds) with (len (pre ++ d0 :: ds))
      by (rewrite len_app, len_cons; lia).
    apply getitem_app_mid. }
  pose proof (step_number_end U s2 c eq_refl Hget2 Hc) as Hstep2.
  eexists. split.
  - eapply rtc_l.
    { split; [| exact Hstep0]. rewrite Hin, Hpos, len_app, len_cons.
      pose proof (len_nonneg (ds ++ c :: rest)). lia. }
    etrans; [exact Hrun |]. apply rtc_once. split; [| exact Hstep2].
    rewrite Hp2. subst s2 s1. simpl. rewrite Hin, !len_app, !len_cons, len_app, len_cons.
    pose proof (len_nonneg rest). lia.
  - cbn [tokens line pos current_state buffer set_state set_pos].
    subst s2 s1. simpl. rewrite Hbuf, len_app. simpl.
    rewrite (integer_type U _ d0 ds Hd0 Hdec Hk). by repeat split.
Qed.

(** From START at a double quote the scanner takes everything up to the
    next double quote as one lexeme, when no newline comes first and the
    character before the closing quote is not a backslash: it appends one
    CONSTANT token that carries the literal with its quotes, unless the
    literal is a keyword, and is back in START behind the closing quote. *)
Theorem string_literal_is_a_constant s pre body rest :
  current_state s = St_START -> buffer s = [] ->
  current_input s = pre ++ DQUOTE :: body ++ DQUOTE :: rest -> pos s = len pre ->
  forallb string_char body = true ->
  (List.last (DQUOTE :: body) DQUOTE =? BACKSLASH)%N = false ->
  DQUOTE :: body ++ [DQUOTE] ∉ keywords s ->
  exists s',
    rtc (turn U) s s' /\
    tokens s' = tokens s ++ [mkToken (line s) CONSTANT (DQUOTE :: body ++ [DQUOTE])] /\
    line s' = line s /\ pos s' = len pre + len body + 2 /\
    current_state s' = St_START /\ buffer s' = [].
Proof.
  intros Hst Hbuf Hin Hpos Hbody Hlast Hk.
  assert (Hnl : forallb (fun c => negb (c =? NL)%N) body = true).
  { rewrite !forallb_forall in *. intros x Hx. specialize (Hbody x Hx).
    unfold string_char in Hbody. by apply andb_true_iff in Hbody as [_ ?]. }
  assert (Hget0 : getitem (current_input s) (pos s) = Ok DQUOTE).
  { rewrite Hin, Hpos. apply getitem_app_mid. }
  pose proof (step_quote_start U s Hst Hget0) as Hstep0.
  set (s1 := set_buffer _ _) in Hstep0.
  assert (Hrun : rtc (turn U) s1
                   (set_buffer (buffer s1 ++ body)
                               (set_pos (len (pre ++ [DQUOTE]) + len body) s1))).
  { apply (append_run U (fun s => current_state s = St_STRING) string_char)
      with (rest := DQUOTE :: rest); [| done | | | done].
    - intros s0 x Hs0 Hx Hsx. split; [by apply step_string_char | done].
    - subst s1. simpl. rewrite Hin, <- app_assoc. reflexivity.
    - subst s1. simpl. rewrite Hpos, len_app. reflexivity. }
  set (s2 := set_buffer (buffer s1 ++ body) _) in Hrun.
  assert (Hp2 : pos s2 = len pre + 1 + len body).
  { subst s2. simpl. rewrite len_app. reflexivity. }
  assert (Hget2 : getitem (current_input s2) (pos s2) = Ok DQUOTE).
  { rewrite Hp2. subst s2 s1. simpl. rewrite Hin.
    replace (pre ++ DQUOTE :: body ++ DQUOTE :: rest)
      with ((pre ++ DQUOTE :: body) ++ DQUOTE :: rest) by (by rewrite <- app_assoc).
    replace (len pre + 1 + len body) with (len (pre ++ DQUOTE :: body))
      by (rewrite len_app, len_cons; lia).
    apply getitem_app_mid. }
  assert (Hb2 : buffer s2 = removelast (DQUOTE :: body) ++ [List.last (DQUOTE :: body) DQUOTE]).
  { subst s2 s1. cbn [buffer set_buffer set_state set_pos]. rewrite Hbuf.
    cbn [app]. by apply app_removelast_last. }
  pose proof (step_string_close U s2 _ _ eq_refl Hb2 Hlast Hget2) as Hstep2.
  eexists. split.
  - eapply rtc_l.
    { split; [| exact Hstep0]. rewrite Hin, Hpos, len_app, len_cons.
      pose proof (len_nonneg (body ++ DQUOTE :: rest)). lia. }
    etrans; [exact Hrun |]. apply rtc_once. split; [| exact Hstep2].
    rewrite Hp2. subst s2 s1. simpl. rewrite Hin, !len_app, !len_cons, len_app, len_cons.
    pose proof (len_nonneg rest). lia.
  - cbn [tokens line pos current_state buffer set_state set_pos].
    subst s2 s1. simpl. rewrite Hbuf, len_app. simpl.
    rewrite (string_type U _ body Hnl Hk). repeat split; try done.
    change (len [DQUOTE]) with 1. lia.
Qed.

(** A string literal that a newline interrupts is an error: from START at a
    double quote, when a newline comes before the next double quote, the
    scanner appends one ERROR token that carries the opening quote, the
    characters up to the newline and the newline itself, stamped with the
    line after the newline, and is back in START behind the newline. *)
Theorem unterminated_string_is_an_error s pre body rest :
  current_state s = St_START -> buffer s = [] ->
  current_input s = pre ++ DQUOTE :: body ++ NL :: rest -> pos s = len pre ->
  forallb string_char body = true ->
  exists s',
    rtc (turn U) s s' /\
    tokens s' = tokens s ++ [mkToken (line s + 1) ERROR (DQUOTE :: body ++ [NL])] /\
    line s' = line s + 1 /\ pos s' = len pre + len body + 2 /\
    current_state s' = St_START /\ buffer s' = [].
Proof.
  intros Hst Hbuf Hin Hpos Hbody.
  assert (Hget0 : getitem (current_input s) (pos s) = Ok DQUOTE).
  { rewrite Hin, Hpos. apply getitem_app_mid. }
  pose proof (step_quote_start U s Hst Hget0) as Hstep0.
  set (s1 := set_buffer _ _) in Hstep0.
  assert (Hrun : rtc (turn U) s1
                   (set_buffer (buffer s1 ++ body)
                               (set_pos (len (pre ++ [DQUOTE]) + len body) s1))).
  { apply (append_run U (fun s => current_state s = St_STRING) string_char)
      with (rest := NL :: rest); [| done | | | done].
    - intros s0 x Hs0 Hx Hsx. split; [by apply step_string_char | done].
    - subst s1. simpl. rewrite Hin, <- app_assoc. reflexivity.
    - subst s1. simpl. rewrite Hpos, len_app. reflexivity. }
  set (s2 := set_buffer (buffer s1 ++ body) _) in Hrun.
  assert (Hp2 : pos s2 = len pre + 1 + len body).
  { subst s2. simpl. rewrite len_app. reflexivity. }
  assert (Hget2 : getitem (current_input s2) (pos s2) = Ok NL).
  { rewrite Hp2. subst s2 s1. simpl. rewrite Hin.
    replace (pre ++ DQUOTE :: body ++ NL :: rest)
      with ((pre ++ DQUOTE :: body) ++ NL :: rest) by (by rewrite <- app_assoc).
    replace (len pre + 1 + len body) with (len (pre ++ DQUOTE :: body))
      by (rewrite len_app, len_cons; lia).
    apply getitem_app_mid. }
  pose proof (step_string_newline U s2 eq_refl Hget2) as Hstep2.
  eexists. split.
  - eapply rtc_l.
    { split; [| exact Hstep0]. rewrite Hin, Hpos, len_app, len_cons.
      pose proof (len_nonneg (body ++ NL :: rest)). lia. }
    etrans; [exact Hrun |]. apply rtc_once. split; [| exact Hstep2].
    rewrite Hp2. subst s2 s1. simpl. rewrite Hin, !len_app, !len_cons, len_app, len_cons.
    pose proof (len_nonneg rest). lia.
  - cbn [tokens line pos current_state buffer set_state set_pos].
    subst s2 s1. simpl. rewrite Hbuf, len_app. simpl. repeat split; try done.
    change (len [DQUOTE]) with 1. lia.
Qed.

(** A word that the scanner takes from a letter or an underscore on gets its
    type from the keyword set alone when its first character is an ASCII
    letter or an underscore: KEYWORD when the word is a keyword, IDENTIFIER
    otherwise. *)
Theorem words_are_keywords_or_identifiers kws w0 w :
  ascii_lower w0 || ascii_upper w0 || (w0 =? ch "_")%N = true ->
  forallb (word_char U) w = true ->
  determine_token_type U kws (w0 :: w)
  = if bool_decide (w0 :: w ∈ kws) then KEYWORD else IDENTIFIER.
Proof.
  intros H0 Hw. unfold determine_token_type. case_bool_decide; [done |].
  rewrite re_match_full; [done |]. unfold identifier_pattern.
  rewrite full_match_chr_cat, H0. simpl. unfold re_w. by rewrite full_match_star_chr.
Qed.

End LexemeTheorems.

(** The number [120] before a semicolon, in the text [x=120;]. *)
Lemma integer_witness :
  exists s',
    rtc (turn ascii_only) (mkLexer ∅ 1 2 [] St_START [] (u "x=120;")) s' /\
    tokens s' = [] ++ [mkToken (line s') CONSTANT (ch "1" :: u "20")] /\
    line s' = 1 + (if (ch ";" =? NL)%N then 1 else 0) /\
    pos s' = len (u "x=") + 1 + len (u "20") /\ current_state s' = St_START /\
    buffer s' = [].
Proof.
  apply (integer_is_a_constant ascii_only (mkLexer ∅ 1 2 [] St_START [] (u "x=120;"))
           (u "x=") (ch "1") (u "20") (ch ";") []); try reflexivity.
  apply not_elem_of_empty.
Defined.

(** The literal of the characters [a b] between double quotes, as the
    argument of a call. *)
Lemma string_literal_witness :
  exists s',
    rtc (turn ascii_only)
        (mkLexer ∅ 1 2 [] St_START [] (u "p(" ++ DQUOTE :: u "a b" ++ DQUOTE :: u ")")) s' /\
    tokens s' = [] ++ [mkToken 1 CONSTANT (DQUOTE :: u "a b" ++ [DQUOTE])] /\
    line s' = 1 /\ pos s' = len (u "p(") + len (u "a b") + 2 /\
    current_state s' = St_START /\ buffer s' = [].
Proof.
  apply (string_literal_is_a_constant ascii_only
           (mkLexer ∅ 1 2 [] St_START [] (u "p(" ++ DQUOTE :: u "a b" ++ DQUOTE :: u ")"))
           (u "p(") (u "a b") (u ")")); try reflexivity.
  apply not_elem_of_empty.
Defined.

(** The literal that begins with a double quote and [a b] and meets the end
    of the line. *)
Lemma unterminated_string_witness :
  exists s',
    rtc (turn ascii_only)
        (mkLexer ∅ 1 0 [] St_START [] (DQUOTE :: u "a b" ++ NL :: u "c")) s' /\
    tokens s' = [] ++ [mkToken (1 + 1) ERROR (DQUOTE :: u "a b" ++ [NL])] /\
    line s' = 1 + 1 /\ pos s' = len (@nil N) + len (u "a b") + 2 /\
    current_state s' = St_START /\ buffer s' = [].
Proof.
  apply (unterminated_string_is_an_error ascii_only
           (mkLexer ∅ 1 0 [] St_START [] (DQUOTE :: u "a b" ++ NL :: u "c"))
           [] (u "a b") (u "c")); reflexivity.
Defined.

(** The word [while] under the keywords [if] and [while]. *)
Lemma words_witness :
  determine_token_type ascii_only (list_to_set [u "if"; u "while"]) (ch "w" :: u "hile")
  = if bool_decide (ch "w" :: u "hile" ∈ (list_to_set [u "if"; u "while"] : gset str))
    then KEYWORD else IDENTIFIER.
Proof.
  apply (words_are_keywords_or_identifiers ascii_only (list_to_set [u "if"; u "while"])
           (ch "w") (u "hile")); reflexivity.
Defined.
(** * Properties of the loaders *)

Section LexicalLoader.
Context {pattern : Type} (re_compile : str -> result pattern).

Lemma load_line_skipped line gp :
  skipped_line line = true -> load_line re_compile line gp = Ok gp.
Proof. unfold skipped_line, load_line. by intros ->. Qed.

(** Blank lines and comment lines have no effect on what the loader of the
    lexical grammar makes of a file: the file without them loads to the same
    result, or raises the same exception. *)
Theorem skipped_lines_do_not_count lines gp :
  load_grammar re_compile (Some lines) gp
  = load_grammar re_compile (Some (filter (fun l => skipped_line l = false) lines)) gp.
Proof.
  unfold load_grammar. revert gp. induction lines as [|line lines IH]; intros gp; [done |].
  rewrite filter_cons. destruct (skipped_line line) eqn:E.
  - simpl. rewrite (load_line_skipped _ _ E). simpl.
    destruct (decide (true = false)); [done |]. apply IH.
  - destruct (decide (false = false)); [| done]. simpl.
    destruct (load_line re_compile line gp); simpl; [apply IH | done].
Qed.

Lemma load_line_grows line gp gp' :
  load_line re_compile line gp = Ok gp' -> gp_keywords gp ⊆ gp_keywords gp'.
Proof.
  unfold load_line. intros H.
  repeat (first [ discriminate
                | match type of H with
                  | (_ ≫= _) = Ok _ => apply bind_Ok in H as (? & ? & H)
                  | context [if ?b then _ else _] => destruct b eqn:?
                  | context [match ?b with _ => _ end] => destruct b eqn:?
                  | Ok _ = Ok _ => injection H as <-
                  end ]; simpl in * ); set_solver.
Qed.

Lemma load_lines_grow lines gp gp' :
  for_each (load_line re_compile) lines gp = Ok gp' -> gp_keywords gp ⊆ gp_keywords gp'.
Proof.
  revert gp. induction lines as [|line lines IH]; intros gp; simpl.
  - by intros [= ->].
  - intros (gp1 & H1 & H)%bind_Ok. apply load_line_grows in H1. apply IH in H. set_solver.
Qed.

Lemma lstrip_by_all p (l r : str) :
  forallb p l = true -> lstrip_by p (l ++ r) = lstrip_by p r.
Proof.
  induction l as [|c l IH]; [done |]. simpl.
  intros [Hc Hl]%andb_true_iff. rewrite Hc. by apply IH.
Qed.

Lemma split_once_first sep (l r : str) :
  char_in sep l = false -> split_once sep (l ++ sep :: r) = [l; r].
Proof.
  induction l as [|c l IH]; simpl.
  - by rewrite N.eqb_refl.
  - intros [Hc Hl]%orb_false_iff. rewrite N.eqb_sym, Hc. by rewrite IH.
Qed.

Lemma spaces_hold_no_arrow sp : forallb isspace sp = true -> char_in ARROW sp = false.
Proof.
  induction sp as [|c sp IH]; [done |]. cbn [forallb].
  intros [Hc Hsp]%andb_true_iff. unfold char_in in *. cbn [existsb].
  rewrite (IH Hsp), orb_false_r.
  apply N.eqb_neq. intros <-. discriminate.
Qed.

(** What a line [Keyword -> a | b | ...] adds: every alternative, without
    the blanks and the quotes around it. *)
Lemma load_keyword_line line sp rhs gp :
  strip line = u "Keyword" ++ sp ++ ARROW :: rhs -> forallb isspace sp = true ->
  load_line re_compile line gp
  = Ok (mkGrammarParser
          (gp_keywords gp ∪ list_to_set (map (fun s => strip_chars (u "'") (strip s))
                                             (split_on (ch "|") rhs)))
          (regex_rules gp)).
Proof.
  intros Hline Hsp. unfold load_line. rewrite Hline.
  rewrite bool_decide_eq_false_2 by done.
  change (startswith (u "Keyword" ++ sp ++ ARROW :: rhs) (ch "#")) with false.
  cbn [orb]. rewrite app_assoc, split_once_first.
  2: { change (char_in ARROW (u "Keyword" ++ sp))
         with (char_in ARROW sp). by apply spaces_hold_no_arrow. }
  assert (Hlhs : strip (u "Keyword" ++ sp) = u "Keyword").
  { unfold strip, strip_by. change (lstrip_by isspace (u "Keyword" ++ sp))
      with (u "Keyword" ++ sp).
    assert (Hrev : forallb isspace (List.rev sp) = true).
    { apply forallb_forall. intros x Hx%in_rev.
      rewrite forallb_forall in Hsp. by apply Hsp. }
    by rewrite rev_app_distr, lstrip_by_all. }
  rewrite Hlhs. by rewrite bool_decide_eq_true_2.
Qed.

(** After a successful load the keyword set holds every alternative of every
    line whose left-hand side is [Keyword], and every keyword it held
    before: later lines take nothing away. *)
Theorem keyword_lines_become_keywords before line after sp rhs alt gp gp' :
  strip line = u "Keyword" ++ sp ++ ARROW :: rhs -> forallb isspace sp = true ->
  alt ∈ split_on (ch "|") rhs ->
  load_grammar re_compile (Some (before ++ line :: after)) gp = Ok gp' ->
  strip_chars (u "'") (strip alt) ∈ gp_keywords gp' /\ gp_keywords gp ⊆ gp_keywords gp'.
Proof.
  intros Hline Hsp Halt Hload. unfold load_grammar in Hload.
  split; [| by eapply load_lines_grow].
  rewrite for_each_app in Hload. apply bind_Ok in Hload as (gp1 & _ & Hload).
  simpl in Hload. apply bind_Ok in Hload as (gp2 & Hl & Hload).
  rewrite (load_keyword_line _ _ _ _ Hline Hsp) in Hl. injection Hl as <-.
  apply load_lines_grow in Hload. apply Hload. simpl.
  apply elem_of_union_r, elem_of_list_to_set, list_elem_of_fmap. eauto.
Qed.

End LexicalLoader.

(** A file with a comment, the line of the keywords [if] and [int], and a
    blank line. *)
Lemma keyword_lines_witness :
  strip_chars (u "'") (strip (u " 'int'")) ∈
    gp_keywords (mkGrammarParser (pattern := str) (list_to_set [u "if"; u "int"]) []) /\
  gp_keywords (mkGrammarParser (pattern := str) ∅ []) ⊆
    gp_keywords (mkGrammarParser (pattern := str) (list_to_set [u "if"; u "int"]) []).
Proof.
  apply (keyword_lines_become_keywords (fun p : str => Ok p)
           [u "# keywords" ++ [NL]] (rule "Keyword" "'if' | 'int'") [[NL]]
           (u " ") (u " 'if' | 'int'") (u " 'int'")).
  - reflexivity.
  - reflexivity.
  - apply list_elem_of_In. simpl. tauto.
  - vm_compute. reflexivity.
Defined.
Section ParserGrammarLoader.
Context (U : UnicodeData).

(** [s.split(sep)] gives one piece more than there are separators. *)
Lemma split_on_length sep (s : str) :
  length (split_on sep s) = S (length (filter (fun c => c = sep) s)).
Proof.
  induction s as [|c s IH]; [done |]. cbn [split_on]. rewrite filter_cons.
  destruct (decide (c = sep)) as [-> | Hne].
  - rewrite N.eqb_refl. simpl. by rewrite IH.
  - apply N.eqb_neq in Hne. rewrite Hne.
    destruct (split_on sep s) as [|piece pieces]; [discriminate | done].
Qed.

Lemma split_on_two (l : str) :
  arrows l = 1%nat -> exists lhs rhs, split_on ARROW l = [lhs; rhs].
Proof.
  intros H. pose proof (split_on_length ARROW l) as Hlen. unfold arrows in H.
  rewrite H in Hlen.
  destruct (split_on ARROW l) as [|lhs [|rhs [|]]]; try discriminate. eauto.
Qed.

Lemma split_on_not_two (l : str) :
  arrows l <> 1%nat ->
  match split_on ARROW l with [_; _] => False | _ => True end.
Proof.
  intros H. pose proof (split_on_length ARROW l) as Hlen. unfold arrows in H.
  destruct (split_on ARROW l) as [|lhs [|rhs [|]]]; try done.
  simpl in Hlen. lia.
Qed.

Lemma split_on_nonempty sep (s : str) : split_on sep s <> [].
Proof.
  pose proof (split_on_length sep s). by destruct (split_on sep s).
Qed.

(** The pieces of [s.split()] are not empty and hold no white space. *)
Lemma split_ws_aux_pieces (s cur : str) p :
  forallb (fun c => negb (isspace c)) cur = true ->
  p ∈ split_ws_aux s cur -> p <> [] /\ forallb (fun c => negb (isspace c)) p = true.
Proof.
  revert cur. induction s as [|c s IH]; intros cur Hcur Hp; simpl in Hp.
  - destruct cur; [by apply elem_of_nil in Hp |].
    apply list_elem_of_singleton in Hp as ->. by split.
  - destruct (isspace c) eqn:Ec.
    + destruct cur as [|c0 cur].
      * by apply (IH []).
      * apply elem_of_cons in Hp as [-> | Hp]; [by split | by apply (IH [])].
    + apply (IH (cur ++ [c])); [| done].
      rewrite forallb_app, Hcur. simpl. by rewrite Ec.
Qed.

Lemma strip_no_space (p : str) :
  forallb (fun c => negb (isspace c)) p = true -> strip p = p.
Proof.
  intros Hp. unfold strip, strip_by.
  assert (Hl : forall q : str, forallb (fun c => negb (isspace c)) q = true ->
                               lstrip_by isspace q = q).
  { intros [|c q]; [done |]. simpl. intros [Hc _]%andb_true_iff.
    apply negb_true_iff in Hc. by rewrite Hc. }
  rewrite (Hl p Hp), Hl, rev_involutive; [done |].
  apply forallb_forall. intros x Hx%in_rev. rewrite forallb_forall in Hp. by apply Hp.
Qed.

Lemma grows_refl g : grows g g.
Proof. by repeat split. Qed.

Lemma grows_trans g1 g2 g3 : grows g1 g2 -> grows g2 g3 -> grows g1 g3.
Proof.
  intros (H1 & H2 & H3) (H4 & H5 & H6). repeat split; [set_solver | set_solver | congruence].
Qed.

Lemma syms_ok_grows g g' syms : grows g g' -> syms_ok g syms -> syms_ok g' syms.
Proof.
  intros (HT & HN & _) H. eapply Forall_impl; [exact H |]. simpl.
  intros X [HX ?]. split; [set_solver | done].
Qed.

Lemma load_part_spec part syms g syms' g' :
  load_part U part (syms, g) = Ok (syms', g') ->
  productions g' = productions g /\ grows g g' /\
  (syms_ok g syms -> syms_ok g' syms').
Proof.
  unfold load_part. intros H.
  destruct (bool_decide (strip part = eps)) eqn:Eeps.
  { injection H as <- <-. split; [done |]. split; [apply grows_refl | done]. }
  apply bool_decide_eq_false in Eeps.
  assert (Hq : u "'" ++ strip part ++ u "'" <> eps) by done.
  repeat (first [ discriminate
                | match type of H with
                  | (_ ≫= _) = Ok _ => apply bind_Ok in H as (? & ? & H)
                  | context [if ?b then _ else _] => destruct b eqn:?
                  | Ok _ = Ok _ => injection H as <- <-
                  end ]);
    (split; [done |]);
    (split; [repeat split; simpl; set_solver |]);
    intros Hs; apply Forall_app;
    (split; [eapply syms_ok_grows; [| exact Hs]; repeat split; simpl; set_solver |]);
    (constructor; [| constructor]); simpl; (split; [set_solver | done]).
Qed.

Lemma load_parts_spec parts syms g syms' g' :
  for_each (load_part U) parts (syms, g) = Ok (syms', g') ->
  productions g' = productions g /\ grows g g' /\
  (syms_ok g syms -> syms_ok g' syms').
Proof.
  revert syms g. induction parts as [|part parts IH]; intros syms g; simpl.
  - intros [= <- <-]. split; [done |]. split; [apply grows_refl | done].
  - intros ([syms1 g1] & H1 & H)%bind_Ok.
    apply load_part_spec in H1 as (Hp1 & Hg1 & Hs1).
    apply IH in H as (Hp & Hg & Hs).
    split; [congruence |]. split; [by eapply grows_trans | auto].
Qed.

Lemma prods_ok_grows g g' :
  productions g' = productions g -> grows g g' -> prods_ok g -> prods_ok g'.
Proof.
  intros Hp Hg Hok prod Hin. rewrite Hp in Hin. destruct (Hok prod Hin) as [Hl Hr].
  split; [destruct Hg as (_ & HN & _); set_solver | by eapply syms_ok_grows].
Qed.

Lemma load_alternative_spec lhs alt g g' :
  load_alternative U lhs alt g = Ok g' ->
  grows g g' /\
  (exists syms, productions g' = productions g ++ [mkProduction lhs syms]) /\
  (prods_ok g -> lhs ∈ non_terminals g -> prods_ok g').
Proof.
  unfold load_alternative. intros ([syms g1] & H1 & [= <-])%bind_Ok.
  apply load_parts_spec in H1 as (Hp & Hg & Hs).
  split; [exact Hg |]. simpl. rewrite Hp. split; [eauto |].
  intros Hok Hlhs prod [Hin | ->%list_elem_of_singleton]%elem_of_app.
  - destruct (Hok prod Hin) as [Hl Hr]. simpl.
    split; [destruct Hg as (_ & HN & _); set_solver | by eapply syms_ok_grows].
  - simpl. split; [destruct Hg as (_ & HN & _); set_solver |].
    apply Hs. constructor.
Qed.

Lemma load_alternatives_spec lhs alts g g' :
  for_each (load_alternative U lhs) alts g = Ok g' ->
  grows g g' /\
  (exists new, productions g' = productions g ++ new /\ length new = length alts /\
               Forall (fun p => left p = lhs) new) /\
  (prods_ok g -> lhs ∈ non_terminals g -> prods_ok g').
Proof.
  revert g. induction alts as [|alt alts IH]; intros g; simpl.
  - intros [= <-]. split; [apply grows_refl |]. split; [| done].
    exists []. by rewrite app_nil_r.
  - intros (g1 & H1 & H)%bind_Ok.
    apply load_alternative_spec in H1 as (Hg1 & (syms & Hp1) & Hok1).
    apply IH in H as (Hg & (new & Hp & Hlen & Hnew) & Hok).
    split; [by eapply grows_trans |]. split.
    + exists (mkProduction lhs syms :: new). rewrite Hp, Hp1, <- app_assoc.
      split; [done |]. split; [simpl; lia | by constructor].
    + intros Hok0 Hlhs. apply Hok; [by apply Hok1 |].
      destruct Hg1 as (_ & HN & _). set_solver.
Qed.

Lemma load_rule_spec line g g' :
  load_rule U line g = Ok g' ->
  (prods_ok g -> prods_ok g') /\
  ((start_symbol g = None \/ start_ok g) -> start_ok g').
Proof.
  unfold load_rule. intros H.
  destruct (split_on ARROW line) as [|lhs [|rhs [|]]]; try discriminate.
  set (g1 := mkGrammar _ _ _ _) in H.
  pose proof (split_on_nonempty (ch "|") rhs) as Hne.
  apply load_alternatives_spec in H as ((HT & HN & Hst) & (new & Hp & Hlen & Hnew) & Hok).
  split.
  - intros Hok0. apply Hok; [| subst g1; simpl; set_solver].
    intros prod Hin. destruct (Hok0 prod Hin) as [Hl Hr]. subst g1. simpl in *.
    split; [set_solver |]. eapply Forall_impl; [exact Hr |]. simpl.
    intros X [HX ?]. split; [set_solver | done].
  - rewrite length_map in Hlen.
    destruct new as [|p new]; [by destruct (split_on (ch "|") rhs) |].
    apply Forall_cons in Hnew as [Hpl _].
    assert (Hnewprod : exists prod, prod ∈ productions g' /\ left prod = strip lhs).
    { exists p. split; [| done]. rewrite Hp. apply elem_of_app. right. by left. }
    assert (Hlhs : strip lhs ∈ non_terminals g') by (subst g1; simpl in *; set_solver).
    intros Hstart. unfold start_ok. rewrite Hst. subst g1. simpl in *.
    destruct Hstart as [-> | (s & -> & Hs & prod & Hin & Hleft)]; [by eauto |].
    destruct s as [|c s]; [by eauto |].
    exists (c :: s). split; [done |]. split; [set_solver |].
    exists prod. split; [| done]. rewrite Hp. apply elem_of_app. by left.
Qed.

Lemma load_rules_spec lines g g' :
  for_each (load_rule U) lines g = Ok g' ->
  (prods_ok g -> prods_ok g') /\
  ((start_symbol g = None \/ start_ok g) -> lines <> [] -> start_ok g').
Proof.
  revert g. induction lines as [|line lines IH]; intros g; simpl.
  - intros [= <-]. by split.
  - intros (g1 & H1 & H)%bind_Ok.
    apply load_rule_spec in H1 as [Hok1 Hst1].
    pose proof (IH _ H) as [Hok Hst].
    split; [auto |]. intros Hstart _. specialize (Hst1 Hstart).
    destruct lines as [|line2 lines].
    + simpl in H. by injection H as <-.
    + apply Hst; [by right | done].
Qed.

Lemma load_part_total part st :
  part <> [] -> forallb (fun c => negb (isspace c)) part = true ->
  exists st', load_part U part st = Ok st'.
Proof.
  intros Hne Hns. unfold load_part. destruct st as [syms g].
  rewrite (strip_no_space _ Hns).
  destruct part as [|c part]; [done |].
  change (getitem (c :: part) 0) with (Ok (A := char) c). simpl.
  repeat case_match; eauto.
Qed.

Lemma load_parts_total parts st :
  Forall (fun p : str => p <> [] /\ forallb (fun c => negb (isspace c)) p = true) parts ->
  exists st', for_each (load_part U) parts st = Ok st'.
Proof.
  intros H. revert st. induction H as [|part parts [Hne Hns] _ IH]; intros st; simpl; [eauto |].
  destruct (load_part_total part st Hne Hns) as [st1 ->]. simpl. apply IH.
Qed.

Lemma load_alternative_total lhs alt g :
  exists g', load_alternative U lhs alt g = Ok g'.
Proof.
  unfold load_alternative.
  destruct (load_parts_total (split_ws (strip alt)) ([], g)) as [[syms g1] ->].
  { apply Forall_forall. intros p Hp. by apply (split_ws_aux_pieces (strip alt) []). }
  simpl. eauto.
Qed.

Lemma load_alternatives_total lhs alts g :
  exists g', for_each (load_alternative U lhs) alts g = Ok g'.
Proof.
  revert g. induction alts as [|alt alts IH]; intros g; cbn [for_each]; [eauto |].
  destruct (load_alternative_total lhs alt g) as [g1 ->]. simpl. apply IH.
Qed.

(** A line with exactly one arrow always loads: no part of a right-hand side
    is empty, so the look at its first character cannot fail. *)
Lemma load_rule_total line g :
  arrows line = 1%nat -> exists g', load_rule U line g = Ok g'.
Proof.
  intros (lhs & rhs & Hsplit)%split_on_two. unfold load_rule. rewrite Hsplit.
  apply load_alternatives_total.
Qed.

Lemma load_rule_error line g :
  arrows line <> 1%nat -> load_rule U line g = Raise ValueError.
Proof.
  intros H%split_on_not_two. unfold load_rule.
  by destruct (split_on ARROW line) as [|lhs [|rhs [|]]].
Qed.

Lemma load_rules_outcome lines g :
  match for_each (load_rule U) (filter (fun l => l <> []) (map strip lines)) g with
  | Ok _ => forallb rule_line_ok lines = true
  | Raise e => e = ValueError /\ forallb rule_line_ok lines = false
  end.
Proof.
  revert g. induction lines as [|line lines IH]; intros g; [done |].
  cbn [map forallb]. rewrite filter_cons. unfold rule_line_ok at 1 3.
  destruct (decide (strip line <> [])) as [Hne | He].
  - rewrite (bool_decide_eq_false_2 _ Hne). cbn [orb for_each].
    destruct (arrows (strip line) =? 1)%nat eqn:Ea.
    + apply Nat.eqb_eq in Ea. destruct (load_rule_total (strip line) g Ea) as [g1 ->].
      simpl. apply IH.
    + apply Nat.eqb_neq in Ea. by rewrite (load_rule_error _ g Ea).
  - apply dec_stable in He. rewrite (bool_decide_eq_true_2 _ He). apply IH.
Qed.

(** The loader of the parser grammar returns a grammar exactly when every
    line that is not blank has exactly one arrow; otherwise it raises
    ValueError, the exception of the failed unpacking, and nothing else. *)
Theorem parser_grammar_loads_iff_one_arrow_per_line lines :
  match Grammar_init U (Some lines) with
  | Ok _ => forallb rule_line_ok lines = true
  | Raise e => e = ValueError /\ forallb rule_line_ok lines = false
  end.
Proof. apply load_rules_outcome. Qed.

Lemma prods_ok_declared g : prods_ok g -> symbols_declared g = true /\ eps_free g = true.
Proof.
  intros Hok. unfold symbols_declared, eps_free. rewrite !forallb_forall.
  split; intros prod Hin%list_elem_of_In; destruct (Hok prod Hin) as [Hl Hr].
  - rewrite bool_decide_eq_true_2 by done. simpl. apply forallb_forall.
    intros X HX%list_elem_of_In. rewrite Forall_forall in Hr.
    apply bool_decide_eq_true_2. by apply Hr.
  - apply forallb_forall. intros X HX%list_elem_of_In. rewrite Forall_forall in Hr.
    apply negb_true_iff, bool_decide_eq_false_2. by apply Hr.
Qed.

Lemma start_ok_declared g : start_ok g -> start_declared g = true.
Proof.
  intros (s & Hs & HN & prod & Hin & Hl). unfold start_declared. rewrite Hs.
  rewrite bool_decide_eq_true_2 by done. simpl. apply existsb_exists.
  exists prod. split; [by apply list_elem_of_In | by apply bool_decide_eq_true_2].
Qed.

(** Every grammar the loader returns has its symbols declared: each
    left-hand side is among the non-terminals and each symbol of a
    right-hand side among the terminals or the non-terminals, and no
    right-hand side holds the empty-string marker.  When the file has a line
    that is not blank, the start symbol is set, is a non-terminal and has a
    production. *)
Theorem loaded_grammar_is_declared lines g :
  Grammar_init U (Some lines) = Ok g ->
  symbols_declared g = true /\ eps_free g = true /\
  (forallb (fun l => bool_decide (strip l = [])) lines = false -> start_declared g = true).
Proof.
  unfold Grammar_init, _load_grammar. intros H.
  apply load_rules_spec in H as [Hok Hst].
  destruct (prods_ok_declared g) as [H1 H2].
  { apply Hok. intros prod Hin. by apply elem_of_nil in Hin. }
  split; [done |]. split; [done |].
  intros Hlines. apply start_ok_declared, Hst; [by left |].
  clear -Hlines. induction lines as [|line lines IH]; [done |].
  cbn [map]. rewrite filter_cons. simpl in Hlines.
  destruct (decide (strip line <> [])) as [Hne | He]; [done |].
  apply dec_stable in He. rewrite (bool_decide_eq_true_2 _ He) in Hlines. by apply IH.
Qed.

(** A grammar file with no rule (empty, or blank lines only) loads to the
    empty grammar, and the constructor of the parser then raises IndexError:
    the list of the productions of the start symbol is empty and its first
    element is asked for. *)
Theorem grammar_without_rule_raises_IndexError lines :
  forallb (fun l => bool_decide (strip l = [])) lines = true ->
  LR1Parser_new U lines = Raise IndexError.
Proof.
  intros Hblank. unfold LR1Parser_new, Grammar_init, _load_grammar.
  replace (filter (fun l => l <> []) (map strip lines)) with (@nil str).
  - vm_compute. reflexivity.
  - induction lines as [|line lines IH]; [done |].
    simpl in Hblank. apply andb_true_iff in Hblank as [Hl Hblank].
    apply bool_decide_eq_true in Hl. cbn [map]. rewrite filter_cons, Hl.
    destruct (decide ([] <> [])); [done | by apply IH].
Qed.

End ParserGrammarLoader.

(** The arithmetic grammar file. *)
Lemma loaded_grammar_witness :
  symbols_declared G_arith = true /\ eps_free G_arith = true /\
  (forallb (fun l => bool_decide (strip l = [])) arith_file = false ->
   start_declared G_arith = true).
Proof.
  apply (loaded_grammar_is_declared ascii_only arith_file G_arith).
  vm_compute. reflexivity.
Defined.

(** A file of two blank lines. *)
Lemma grammar_without_rule_witness :
  LR1Parser_new ascii_only [[NL]; u "  " ++ [NL]] = Raise IndexError.
Proof.
  apply (grammar_without_rule_raises_IndexError ascii_only [[NL]; u "  " ++ [NL]]).
  reflexivity.
Defined.
(** * Properties of the FIRST sets and of the item sets *)

Section DeclaredGrammars.
Context (g : Grammar).

Lemma symbols_declared_spec :
  symbols_declared g = true ->
  forall prod, prod ∈ productions g ->
    left prod ∈ non_terminals g /\
    forall X, X ∈ right prod -> X ∈ terminals g ∪ non_terminals g.
Proof.
  unfold symbols_declared. intros Hprods prod Hin. apply list_elem_of_In in Hin.
  rewrite forallb_forall in Hprods. apply Hprods in Hin.
  apply andb_true_iff in Hin as [Hl Hr]. apply bool_decide_eq_true in Hl.
  split; [done |]. intros X HX. apply list_elem_of_In in HX.
  rewrite forallb_forall in Hr. apply Hr in HX. by apply bool_decide_eq_true in HX.
Qed.

Lemma first_sets_declared :
  symbols_declared g = true ->
  exists first,
    _compute_first_sets g = Ok first /\
    rtc (first_update g) (first_init g) first /\
    first_bounded g first /\
    forall prod, prod ∈ productions g ->
                 prod_closed (first_of first) (left prod) (right prod).
Proof.
  intros Hprods. pose proof (symbols_declared_spec Hprods) as Hdecl.
  assert (Hb : first_bounded g (first_init g)).
  { split; [apply dom_first_init |]. intros k. rewrite first_of_init.
    destruct (decide (k ∈ terminals g)); set_solver. }
  destruct (first_loop_spec g (S (size (first_universe g))) (first_init g))
    as (first & Hloop & Hrtc & Hclosed).
  - intros prod Hin. rewrite dom_first_init. destruct (Hdecl prod Hin) as [Hl Hr].
    split; [set_solver | done].
  - done.
  - lia.
  - exists first. split; [done |]. split; [done |]. split; [| done].
    by eapply first_updates_bounded.
Qed.

(** The FIRST sets are computed for every grammar whose symbols are
    declared, also when a symbol is both a terminal and a non-terminal: the
    loop ends within its bound and no lookup fails.  The dict has exactly
    the symbols of the grammar as keys, its sets hold terminals and the
    empty-string marker only, the set of a terminal holds the terminal, the
    sets are closed under every production, and the marker stands only
    where a production whose right-hand side can vanish, or a terminal,
    accounts for it. *)
Theorem first_sets_of_declared_grammar :
  symbols_declared g = true ->
  exists first,
    _compute_first_sets g = Ok first /\
    dom first = terminals g ∪ non_terminals g /\
    (forall k, first_of first k ⊆ terminals g ∪ {[eps]}) /\
    (forall t, t ∈ terminals g -> t ∈ first_of first t) /\
    (forall prod, prod ∈ productions g ->
                  prod_closed (first_of first) (left prod) (right prod)) /\
    eps_justified g first.
Proof.
  intros Hprods.
  destruct (first_sets_declared Hprods) as (first & Hloop & Hrtc & [Hdom Hb] & Hclosed).
  exists first. repeat split; try done.
  - intros t Ht. apply (first_updates_le g _ _ Hrtc).
    rewrite first_of_init, decide_True by done. set_solver.
  - by apply Hclosed.
  - by apply Hclosed.
  - eapply first_updates_eps_justified; [done |]. intros k Hk.
    rewrite first_of_init in Hk. destruct (decide (k ∈ terminals g)); [by left |].
    set_solver.
Qed.

End DeclaredGrammars.

(** The grammar of the rules S -> ID and ID -> 'x', in which ID is a
    terminal and a non-terminal. *)
Lemma first_sets_of_declared_witness :
  exists first,
    _compute_first_sets G_id = Ok first /\
    dom first = terminals G_id ∪ non_terminals G_id /\
    (forall k, first_of first k ⊆ terminals G_id ∪ {[eps]}) /\
    (forall t, t ∈ terminals G_id -> t ∈ first_of first t) /\
    (forall prod, prod ∈ productions G_id ->
                  prod_closed (first_of first) (left prod) (right prod)) /\
    eps_justified G_id first.
Proof. apply (first_sets_of_declared_grammar G_id). vm_compute. reflexivity. Defined.
Section FirstSetsOfTheLoader.
Context (g : Grammar).

(** The additions stay below every assignment that is closed. *)
Lemma first_updates_below_closed F f f' :
  first_closed g F -> rtc (first_update g) f f' ->
  (forall k, first_of f k ⊆ F k) -> forall k, first_of f' k ⊆ F k.
Proof.
  intros [_ Hcl] Hrtc. induction Hrtc as [|f1 f2 f3 Hstep _ IH]; [done |].
  intros Hbelow. apply IH. intros k.
  destruct Hstep as [first prod pre X post fl fx Hin Hrhs Hpre Hfl Hfx
                    | first prod fl Hin Hnull Hfl];
    rewrite first_of_insert; destruct (decide (left prod = k)) as [<-|]; try apply Hbelow.
  - pose proof (Hbelow (left prod)) as H1. pose proof (Hbelow X) as H2.
    rewrite (first_of_Some _ _ _ Hfl) in H1. rewrite (first_of_Some _ _ _ Hfx) in H2.
    assert (H3 : F X ∖ {[eps]} ⊆ F (left prod)).
    { destruct (Hcl prod Hin) as [Hsym _]. eapply Hsym; [done |].
      intros Y HY. apply Hbelow. by apply Hpre. }
    set_solver.
  - pose proof (Hbelow (left prod)) as H1.
    rewrite (first_of_Some _ _ _ Hfl) in H1.
    assert (H3 : eps ∈ F (left prod)).
    { destruct (Hcl prod Hin) as [_ Heps]. apply Heps.
      intros Y HY. apply Hbelow. by apply Hnull. }
    set_solver.
Qed.

Lemma first_updates_eps_source f f' :
  rtc (first_update g) f f' -> eps_source g f -> eps_source g f'.
Proof.
  induction 1 as [|f1 f2 f3 Hstep _ IH]; [done |]. intros HJ. apply IH.
  pose proof (first_update_le _ _ _ Hstep) as [_ Hle].
  assert (Hold : forall k, eps ∈ first_of f1 k ->
             (k = eps /\ eps ∈ terminals g) \/
             exists prod, prod ∈ productions g /\ left prod = k /\
                          forall Y, Y ∈ right prod -> eps ∈ first_of f2 Y).
  { intros k Hk. destruct (HJ k Hk) as [? | (prod & ? & ? & Hnull)]; [by left | right].
    exists prod. repeat split; try done. intros Y HY. apply Hle. by apply Hnull. }
  intros k Hk.
  destruct Hstep as [first prod pre X post fl fx Hin Hrhs Hpre Hfl Hfx
                    | first prod fl Hin Hnull Hfl];
    rewrite first_of_insert in Hk; destruct (decide (left prod = k)) as [<-|];
    try (by apply Hold).
  - apply Hold. rewrite (first_of_Some _ _ _ Hfl). set_solver.
  - right. exists prod. repeat split; try done. intros Y HY. apply Hle. by apply Hnull.
Qed.

(** C5 (as amended): on every grammar whose symbols are declared, as the
    grammars the loader makes are, the FIRST sets are computed (the loop
    ends, no lookup fails) and they are the least assignment that holds
    every terminal in its own set and meets the conditions of every
    production.  The set of a terminal that is no left-hand side is the
    terminal alone.  The empty-string marker is in the set of a symbol
    exactly when the symbol has a production whose right-hand side is empty
    or has the marker in the sets of all its symbols (or the symbol is the
    marker itself, declared a terminal).  When no symbol is both a terminal
    and a non-terminal the sets satisfy the fixed-point specification of the
    claim and are its least solution. *)
Theorem C5_first_sets_least_fixed_point :
  symbols_declared g = true ->
  exists first,
    _compute_first_sets g = Ok first /\
    first_closed g (first_of first) /\
    (forall F, first_closed g F -> forall k, first_of first k ⊆ F k) /\
    (forall t, t ∈ terminals g -> (forall prod, prod ∈ productions g -> left prod <> t) ->
               first_of first t = {[t]}) /\
    (forall A, eps ∈ first_of first A <->
       (A = eps /\ eps ∈ terminals g) \/
       exists prod, prod ∈ productions g /\ left prod = A /\
                    forall Y, Y ∈ right prod -> eps ∈ first_of first Y) /\
    (terminals g ## non_terminals g ->
     first_spec g (first_of first) /\
     forall F, first_spec g F -> forall k, first_of first k ⊆ F k).
Proof.
  intros Hsd. pose proof (symbols_declared_spec g Hsd) as Hdecl.
  destruct (first_sets_declared g Hsd) as (first & Hloop & Hrtc & _ & Hclosed).
  assert (Hseed : forall t, t ∈ terminals g -> t ∈ first_of first t).
  { intros t Ht. apply (first_updates_le g _ _ Hrtc).
    rewrite first_of_init, decide_True by done. set_solver. }
  assert (Hleast : forall F, first_closed g F -> forall k, first_of first k ⊆ F k).
  { intros F HF. eapply first_updates_below_closed; [done | done |].
    intros k. rewrite first_of_init. destruct HF as [Hterm _].
    destruct (decide (k ∈ terminals g)) as [Hk |]; [| set_solver].
    specialize (Hterm k Hk). set_solver. }
  assert (Hown : forall t, t ∈ terminals g ->
             (forall prod, prod ∈ productions g -> left prod <> t) ->
             first_of first t = {[t]}).
  { intros t Ht Hno. rewrite (first_updates_other g _ _ t Hrtc Hno).
    by rewrite first_of_init, decide_True. }
  assert (Heps : forall A, eps ∈ first_of first A <->
            (A = eps /\ eps ∈ terminals g) \/
            exists prod, prod ∈ productions g /\ left prod = A /\
                         forall Y, Y ∈ right prod -> eps ∈ first_of first Y).
  { intros A. split.
    - revert A. change (eps_source g first).
      eapply first_updates_eps_source; [done |]. intros k Hk.
      rewrite first_of_init in Hk. destruct (decide (k ∈ terminals g)); [| set_solver].
      apply elem_of_singleton in Hk. subst k. by left.
    - intros [[-> Ht] | (prod & Hin & <- & Hnull)]; [by apply Hseed |].
      destruct (Hclosed prod Hin) as [_ He]. by apply He. }
  exists first. split; [done |]. split; [by split |]. split; [done |].
  split; [done |]. split; [done |].
  intros Hdisj. split; [split; [| split] |].
  - intros t Ht. apply Hown; [done |]. intros prod Hin Heq.
    destruct (Hdecl prod Hin) as [Hl _]. set_solver.
  - intros prod pre X post Hin Hrhs Hpre.
    destruct (Hclosed prod Hin) as [Hsym _]. by eapply Hsym.
  - intros A HA. rewrite Heps. split.
    + intros [[-> Ht] | Hprod]; [set_solver | by right].
    + intros [(prod & Hin & Hl & Hnil) | Hprod]; [| by right].
      right. exists prod. split; [done |]. split; [done |].
      rewrite Hnil. intros Y HY. by apply elem_of_nil in HY.
  - intros F (Hterm & Hsym & HFeps). apply Hleast. split.
    + intros t Ht. rewrite (Hterm t Ht). set_solver.
    + intros prod Hin. split.
      * intros pre X post Hrhs Hpre. by eapply Hsym.
      * intros Hnull. apply HFeps; [by destruct (Hdecl prod Hin) |].
        right. by exists prod.
Qed.

End FirstSetsOfTheLoader.

(** C5 (counterexample): the loader makes of the rules S -> ID and
    ID -> 'x' a grammar in which ID is a terminal and a left-hand side, and
    the FIRST set computed for the terminal ID holds 'x' beside ID. *)
Lemma C5_terminal_with_a_rule :
  Grammar_init ascii_only (Some id_rule_file) = Ok G_id /\
  exists first,
    _compute_first_sets G_id = Ok first /\
    u "ID" ∈ terminals G_id /\
    u "'x'" ∈ first_of first (u "ID") /\
    first_of first (u "ID") <> {[ u "ID" ]}.
Proof.
  split; [vm_compute; reflexivity |].
  destruct (_compute_first_sets G_id) as [first|] eqn:E; [| by vm_compute in E].
  exists first. split; [done |].
  assert (Hx : u "'x'" ∈ first_of first (u "ID")).
  { assert (Hb : (f ← _compute_first_sets G_id;
                  Ok (bool_decide (u "'x'" ∈ first_of f (u "ID")))) = Ok true)
      by (vm_compute; reflexivity).
    rewrite E in Hb. simpl in Hb. injection Hb as Hb. by apply bool_decide_eq_true in Hb. }
  split; [by apply (bool_decide_unpack _); vm_compute |]. split; [done |].
  intros Heq. rewrite Heq in Hx. apply elem_of_singleton in Hx. discriminate Hx.
Qed.

(** The amended C5 on the arithmetic grammar. *)
Lemma C5_first_sets_witness :
  exists first,
    _compute_first_sets G_arith = Ok first /\
    first_closed G_arith (first_of first) /\
    (forall F, first_closed G_arith F -> forall k, first_of first k ⊆ F k) /\
    (forall t, t ∈ terminals G_arith ->
               (forall prod, prod ∈ productions G_arith -> left prod <> t) ->
               first_of first t = {[t]}) /\
    (forall A, eps ∈ first_of first A <->
       (A = eps /\ eps ∈ terminals G_arith) \/
       exists prod, prod ∈ productions G_arith /\ left prod = A /\
                    forall Y, Y ∈ right prod -> eps ∈ first_of first Y) /\
    (terminals G_arith ## non_terminals G_arith ->
     first_spec G_arith (first_of first) /\
     forall F, first_spec G_arith F -> forall k, first_of first k ⊆ F k).
Proof. apply (C5_first_sets_least_fixed_point G_arith). vm_compute. reflexivity. Defined.
Section ItemSets.
Context (g : Grammar) (first_sets : first_map).

Lemma foldl_invariant {A B} (P : A -> Prop) (f : A -> B -> A) (l : list B) (a : A) :
  P a -> (forall a b, b ∈ l -> P a -> P (f a b)) -> P (foldl f a l).
Proof.
  revert a. induction l as [|b l IH]; intros a Ha Hf; [done |].
  simpl. apply IH.
  - apply Hf; [by left | done].
  - intros a' b' Hb'. apply Hf. by right.
Qed.

Lemma for_each_invariant {A S} (P : S -> Prop) (body : A -> S -> result S)
      (l : list A) (s s' : S) :
  P s -> (forall a s1 s2, a ∈ l -> P s1 -> body a s1 = Ok s2 -> P s2) ->
  for_each body l s = Ok s' -> P s'.
Proof.
  revert s. induction l as [|a l IH]; intros s Hs Hb; simpl.
  - by intros [= <-].
  - intros (s1 & H1 & H)%bind_Ok. eapply IH; [| | exact H].
    + eapply Hb; [by left | done | done].
    + intros a' s2 s3 Ha'. apply Hb. by right.
Qed.

Lemma elem_of_item_add s x y : y ∈ item_add s x <-> y ∈ s \/ y = x.
Proof.
  unfold item_add, item_in. case_bool_decide as Hin.
  - split; [by left | by intros [? | ->]].
  - rewrite elem_of_app, list_elem_of_singleton. done.
Qed.

Lemma item_add_NoDup s x : NoDup s -> NoDup (item_add s x).
Proof.
  intros Hs. unfold item_add, item_in. case_bool_decide as Hin; [done |].
  apply NoDup_app. split; [done |]. split; [| apply NoDup_singleton].
  intros y Hy ->%list_elem_of_singleton. done.
Qed.

Lemma elem_of_foldl_item_add s new y :
  y ∈ foldl item_add s new <-> y ∈ s \/ y ∈ new.
Proof.
  revert s. induction new as [|x new IH]; intros s; simpl.
  - split; [by left | intros [? | H]; [done | by apply elem_of_nil in H]].
  - rewrite IH, elem_of_item_add, elem_of_cons. tauto.
Qed.

Lemma foldl_item_add_NoDup s new : NoDup s -> NoDup (foldl item_add s new).
Proof.
  revert s. induction new as [|x new IH]; intros s Hs; [done |].
  simpl. by apply IH, item_add_NoDup.
Qed.

(** The lookaheads are members of FIRST sets, without the empty-string
    marker, or the lookahead of the item. *)
Lemma lookaheads_of_members beta la acc r x :
  lookaheads_of first_sets beta la acc = Ok r -> x ∈ r ->
  x ∈ acc \/ x = la \/ exists symbol, symbol ∈ beta /\ x ∈ first_of first_sets symbol.
Proof.
  revert acc. induction beta as [|symbol beta IH]; intros acc; simpl.
  - intros [= <-]. set_solver.
  - intros (fs & Hfs & H)%bind_Ok Hx. apply lookup_key_Ok in Hfs.
    assert (Hhere : x ∈ acc ∪ fs ->
              x ∈ acc \/ x = la \/
              exists symbol0, symbol0 ∈ symbol :: beta /\ x ∈ first_of first_sets symbol0).
    { intros [? | ?]%elem_of_union; [by left |]. right; right. exists symbol.
      split; [by left |]. by rewrite (first_of_Some _ _ _ Hfs). }
    destruct (decide (eps ∈ fs)).
    + destruct (IH _ H Hx) as [? | [-> | (s0 & Hs0 & ?)]]; [by apply Hhere | by right; left |].
      right; right. exists s0. split; [by right | done].
    + injection H as <-. by apply Hhere.
Qed.

Lemma compute_lookaheads_members item las x :
  _compute_lookaheads first_sets item = Ok las -> x ∈ las ->
  x = lookahead item \/
  (x <> eps /\ exists symbol, symbol ∈ right (production item) /\
                              x ∈ first_of first_sets symbol).
Proof.
  unfold _compute_lookaheads. case_match.
  - intros [= <-] ->%elem_of_singleton. by left.
  - intros (first & Hf & [= <-])%bind_Ok [Hx Hne]%elem_of_difference.
    destruct (lookaheads_of_members _ _ _ _ _ Hf Hx) as [? | [-> | (s0 & Hs0 & ?)]];
      [set_solver | by left |].
    right. split; [set_solver |]. exists s0. split; [| done].
    apply list_elem_of_lookup in Hs0 as [i Hi]. rewrite lookup_drop in Hi.
    by eapply list_elem_of_lookup_2.
Qed.

(** [_compute_lookaheads] never answers the empty-string marker for an item
    whose own lookahead is not the marker, and over FIRST sets of terminals
    it answers terminals or the lookahead of the item. *)
Lemma compute_lookaheads_ok item las x :
  (forall k, first_of first_sets k ⊆ terminals g ∪ {[eps]}) ->
  lookahead item ∈ terminals g ∪ {[dollar]} ->
  _compute_lookaheads first_sets item = Ok las -> x ∈ las ->
  x ∈ terminals g ∪ {[dollar]}.
Proof.
  intros Hb Hla H Hx.
  destruct (compute_lookaheads_members _ _ _ H Hx) as [-> | (Hne & s0 & _ & Hs0)]; [done |].
  apply Hb in Hs0. set_solver.
Qed.

(** One pass of the closure loop over one item: what it adds are initial
    items of productions of the grammar. *)
Lemma closure_item_adds res item new new' y :
  closure_item g first_sets res item new = Ok new' -> y ∈ new' ->
  y ∈ new \/
  exists B las prod la,
    get_next_symbol item = Some B /\ B ∈ non_terminals g /\
    _compute_lookaheads first_sets item = Ok las /\
    prod ∈ productions g /\ left prod = B /\ la ∈ las /\ y = mkItem prod 0 la.
Proof.
  unfold closure_item. destruct (get_next_symbol item) as [B|]; [| intros [= <-]; by left].
  destruct (decide (B ∈ non_terminals g)) as [HB|]; [| intros [= <-]; by left].
  intros (las & Hlas & [= <-])%bind_Ok Hy.
  set (P := fun acc : item_set => forall y, y ∈ acc -> y ∈ new \/
              exists prod la, prod ∈ productions g /\ left prod = B /\ la ∈ las /\
                              y = mkItem prod 0 la).
  assert (HP : P (foldl (fun new_items prod =>
                     if decide (left prod = B) then
                       foldl (fun new_items la =>
                                let new_item := mkItem prod 0 la in
                                if item_in new_item res then new_items
                                else item_add new_items new_item)
                             new_items (elements las)
                     else new_items) new (productions g))).
  { apply foldl_invariant; [intros y0 Hy0; by left |].
    intros acc prod Hprod Hacc. destruct (decide (left prod = B)) as [Hl|]; [| done].
    apply foldl_invariant; [done |].
    intros acc' la Hla%elem_of_elements Hacc' y0. simpl. case_match; [by apply Hacc' |].
    intros [Hy0 | ->]%elem_of_item_add; [by apply Hacc' |].
    right. exists prod, la. by repeat split. }
  destruct (HP y Hy) as [? | (prod & la & ? & ? & ? & ->)]; [by left |].
  right. exists B, las, prod, la. by repeat split.
Qed.

(** When a pass leaves nothing to add, every item the pass would propose is
    in the set already. *)
Lemma foldl_propose_nil {A} (mk : A -> LR1Item) res (l : list A) (acc : item_set) :
  foldl (fun acc a => if item_in (mk a) res then acc else item_add acc (mk a)) acc l = [] ->
  acc = [] /\ forall a, a ∈ l -> mk a ∈ res.
Proof.
  revert acc. induction l as [|a l IH]; intros acc; simpl.
  - intros ->. split; [done |]. intros a Ha. by apply elem_of_nil in Ha.
  - intros [Hacc Hl]%IH. unfold item_in in Hacc. case_bool_decide as Hin.
    + split; [done |]. intros a' [-> | Ha']%elem_of_cons; [done | by apply Hl].
    + exfalso. assert (Hx : mk a ∈ item_add acc (mk a)) by (apply elem_of_item_add; by right).
      rewrite Hacc in Hx. by apply elem_of_nil in Hx.
Qed.

Lemma closure_item_nil res item new :
  closure_item g first_sets res item new = Ok [] ->
  new = [] /\
  forall B las prod la,
    get_next_symbol item = Some B -> B ∈ non_terminals g ->
    _compute_lookaheads first_sets item = Ok las ->
    prod ∈ productions g -> left prod = B -> la ∈ las -> mkItem prod 0 la ∈ res.
Proof.
  unfold closure_item. destruct (get_next_symbol item) as [B|];
    [| intros [= <-]; split; [done | discriminate]].
  destruct (decide (B ∈ non_terminals g)) as [HB|];
    [| intros [= <-]; split; [done |]; by intros ? ? ? ? [= <-]].
  intros (las & Hlas & [= H])%bind_Ok.
  assert (Hgen : forall prods acc,
            foldl (fun new_items prod =>
                     if decide (left prod = B) then
                       foldl (fun new_items la =>
                                let new_item := mkItem prod 0 la in
                                if item_in new_item res then new_items
                                else item_add new_items new_item)
                             new_items (elements las)
                     else new_items) acc prods = [] ->
            acc = [] /\ forall prod la, prod ∈ prods -> left prod = B -> la ∈ las ->
                                        mkItem prod 0 la ∈ res).
  { induction prods as [|prod prods IHp]; intros acc; simpl.
    - intros ->. split; [done |]. intros prod la Hp. by apply elem_of_nil in Hp.
    - intros [Hacc Hrest]%IHp. destruct (decide (left prod = B)) as [Hl | Hl].
      + apply (foldl_propose_nil (fun la => mkItem prod 0 la)) in Hacc as [-> Hlas'].
        split; [done |]. intros prod' la [-> | Hp']%elem_of_cons Hl' Hla.
        * apply Hlas'. by apply elem_of_elements.
        * by apply Hrest.
      + split; [done |]. intros prod' la [-> | Hp']%elem_of_cons Hl' Hla; [done |].
        by apply Hrest. }
  apply Hgen in H as [-> Hall]. split; [done |].
  intros B0 las0 prod la [= <-] _ Hl0. rewrite Hlas in Hl0. injection Hl0 as <-.
  by apply Hall.
Qed.

Lemma closure_pass_nil res items new :
  for_each (closure_item g first_sets res) items new = Ok [] ->
  new = [] /\
  forall item B las prod la,
    item ∈ items -> get_next_symbol item = Some B -> B ∈ non_terminals g ->
    _compute_lookaheads first_sets item = Ok las ->
    prod ∈ productions g -> left prod = B -> la ∈ las -> mkItem prod 0 la ∈ res.
Proof.
  revert new. induction items as [|item items IH]; intros new; simpl.
  - intros [= ->]. split; [done |]. intros item ? ? ? ? Hi. by apply elem_of_nil in Hi.
  - intros (new1 & H1 & H)%bind_Ok. apply IH in H as [-> Hrest].
    apply closure_item_nil in H1 as [-> Hitem]. split; [done |].
    intros item' B las prod la [-> | Hi]%elem_of_cons; [by apply Hitem | by apply Hrest].
Qed.

(** What [_closure] returns holds the items it was given, holds each item
    once when they were given once, is closed, and holds nothing but the
    given items and initial items of productions of the grammar under
    lookaheads [_compute_lookaheads] gave. *)
Lemma closure_loop_spec fuel items res :
  closure_loop fuel g first_sets items = Ok res ->
  (forall x, x ∈ items -> x ∈ res) /\
  (NoDup items -> NoDup res) /\
  closed_items g first_sets res /\
  (forall y, y ∈ res -> y ∈ items \/
     exists item las prod la,
       item ∈ res /\ _compute_lookaheads first_sets item = Ok las /\
       prod ∈ productions g /\ la ∈ las /\ y = mkItem prod 0 la).
Proof.
  revert items. induction fuel as [|fuel IH]; intros items; simpl; [discriminate |].
  intros (new_items & Hpass & H)%bind_Ok.
  destruct new_items as [|n new_items].
  - injection H as <-. split; [done |]. split; [done |]. split; [| by left].
    apply closure_pass_nil in Hpass as [_ Hall].
    intros item B las prod la. apply Hall.
  - set (new := n :: new_items) in *. clearbody new.
    apply IH in H as (Hext & Hnd & Hcl & Hfrom).
    assert (Hnew : forall y, y ∈ new -> exists item las prod la,
               item ∈ items /\ _compute_lookaheads first_sets item = Ok las /\
               prod ∈ productions g /\ la ∈ las /\ y = mkItem prod 0 la).
    { eapply (for_each_invariant
                (fun acc : item_set => forall y, y ∈ acc -> exists item las prod la,
                   item ∈ items /\ _compute_lookaheads first_sets item = Ok las /\
                   prod ∈ productions g /\ la ∈ las /\ y = mkItem prod 0 la));
        [| | exact Hpass].
      - intros y Hy. by apply elem_of_nil in Hy.
      - intros item s1 s2 Hitem Hs1 Hbody y Hy.
        destruct (closure_item_adds _ _ _ _ _ Hbody Hy)
          as [? | (B & las & prod & la & _ & _ & Hlas & Hp & _ & Hla & ->)]; [by apply Hs1 |].
        exists item, las, prod, la. by repeat split. }
    split; [| split; [| split; [done |]]].
    + intros x Hx. apply Hext, elem_of_foldl_item_add. by left.
    + intros Hi. by apply Hnd, foldl_item_add_NoDup.
    + intros y Hy. destruct (Hfrom y Hy) as [[? | Hyn]%elem_of_foldl_item_add | ?];
        [by left | | by right].
      right. destruct (Hnew y Hyn) as (item & las & prod & la & Hi & ? & ? & ? & ?).
      exists item, las, prod, la. repeat split; try done.
      apply Hext, elem_of_foldl_item_add. by left.
Qed.

Lemma closure_loop_ok fuel items res :
  (forall k, first_of first_sets k ⊆ terminals g ∪ {[eps]}) ->
  Forall (item_ok g) items ->
  closure_loop fuel g first_sets items = Ok res -> Forall (item_ok g) res.
Proof.
  intros Hb. revert items. induction fuel as [|fuel IH]; intros items Hok; simpl;
    [discriminate |].
  intros (new_items & Hpass & H)%bind_Ok.
  assert (Hnew : Forall (item_ok g) new_items).
  { eapply (for_each_invariant (Forall (item_ok g))); [| | exact Hpass]; [constructor |].
    intros item s1 s2 Hitem Hs1 Hbody. apply Forall_forall. intros y Hy.
    destruct (closure_item_adds _ _ _ _ _ Hbody Hy)
      as [? | (B & las & prod & la & _ & _ & Hlas & Hp & _ & Hla & ->)].
    - rewrite Forall_forall in Hs1. by apply Hs1.
    - rewrite Forall_forall in Hok. destruct (Hok item Hitem) as (_ & _ & Hl).
      split; [done |]. split; [simpl; lia |]. simpl.
      by eapply compute_lookaheads_ok. }
  destruct new_items as [|n new_items]; [by injection H as <- |].
  apply IH in H; [done |]. apply Forall_forall. intros y [Hy | Hy]%elem_of_foldl_item_add.
  - rewrite Forall_forall in Hok. by apply Hok.
  - rewrite Forall_forall in Hnew. by apply Hnew.
Qed.

(** The kernel of [_goto]: the items with the dot before the symbol, each
    with the dot moved over it. *)
Lemma goto_kernel_spec items symbol y :
  y ∈ foldl (fun next_items item =>
               if decide (get_next_symbol item = Some symbol)
               then item_add next_items
                      (mkItem (production item) (dot_position item + 1) (lookahead item))
               else next_items) [] items
  <-> exists item, item ∈ items /\ get_next_symbol item = Some symbol /\ y = advance item.
Proof.
  assert (Hgen : forall acc,
            y ∈ foldl (fun next_items item =>
                         if decide (get_next_symbol item = Some symbol)
                         then item_add next_items
                                (mkItem (production item) (dot_position item + 1)
                                        (lookahead item))
                         else next_items) acc items
            <-> y ∈ acc \/ exists item, item ∈ items /\ get_next_symbol item = Some symbol
                                         /\ y = advance item).
  { induction items as [|item items IH]; intros acc; simpl.
    - split; [by left | intros [? | (? & H & _)]; [done | by apply elem_of_nil in H]].
    - rewrite IH. destruct (decide (get_next_symbol item = Some symbol)) as [Hn | Hn].
      + rewrite elem_of_item_add. split.
        * intros [[? | ->] | (it & Hit & ? & ?)]; [by left | |].
          -- right. exists item. split; [by left | done].
          -- right. exists it. split; [by right | done].
        * intros [? | (it & [-> | Hit]%elem_of_cons & ? & ->)]; [by left; left | |].
          -- left. by right.
          -- right. by exists it.
      + split.
        * intros [? | (it & Hit & ? & ?)]; [by left |].
          right. exists it. split; [by right | done].
        * intros [? | (it & [-> | Hit]%elem_of_cons & ? & ->)]; [by left | done |].
          right. by exists it. }
  rewrite Hgen. split; [intros [H | ?]; [by apply elem_of_nil in H | done] | by right].
Qed.

Lemma goto_kernel_NoDup items symbol :
  NoDup (foldl (fun next_items item =>
                  if decide (get_next_symbol item = Some symbol)
                  then item_add next_items
                         (mkItem (production item) (dot_position item + 1) (lookahead item))
                  else next_items) [] items).
Proof.
  apply foldl_invariant; [constructor |].
  intros acc item _ Hacc. case_match; [by apply item_add_NoDup | done].
Qed.

Lemma advance_ok item symbol :
  item_ok g item -> get_next_symbol item = Some symbol -> item_ok g (advance item).
Proof.
  intros (Hp & _ & Hl) Hn. unfold get_next_symbol in Hn. apply lookup_lt_Some in Hn.
  split; [done |]. split; [simpl; lia | done].
Qed.

Lemma goto_NoDup fuel items symbol res :
  _goto fuel g first_sets items symbol = Ok res -> NoDup res /\ closed_items g first_sets res.
Proof.
  unfold _goto, _closure. intros H.
  destruct (closure_loop_spec _ _ _ H) as (_ & Hnd & Hcl & _).
  split; [apply Hnd, goto_kernel_NoDup | done].
Qed.

Lemma goto_holds_kernel fuel items symbol res :
  _goto fuel g first_sets items symbol = Ok res ->
  forall item, item ∈ items -> get_next_symbol item = Some symbol -> advance item ∈ res.
Proof.
  unfold _goto, _closure. intros H item Hi Hn.
  destruct (closure_loop_spec _ _ _ H) as (Hext & _). apply Hext, goto_kernel_spec.
  by exists item.
Qed.

Lemma goto_ok fuel items symbol res :
  (forall k, first_of first_sets k ⊆ terminals g ∪ {[eps]}) ->
  Forall (item_ok g) items ->
  _goto fuel g first_sets items symbol = Ok res -> Forall (item_ok g) res.
Proof.
  intros Hb Hok. unfold _goto, _closure. apply closure_loop_ok; [done |].
  apply Forall_forall. intros y (item & Hi & Hn & ->)%goto_kernel_spec.
  rewrite Forall_forall in Hok. eapply advance_ok; [by apply Hok | done].
Qed.

(** [_closure] returns a set that holds the items it was given, is closed
    under the rule of the closure, and holds each item once when the given
    items were held once.  Over FIRST sets of terminals, the closure of
    items of the grammar holds items of the grammar only: no lookahead is
    the empty-string marker or a non-terminal. *)
Theorem closure_holds_and_is_closed fuel items res :
  _closure fuel g first_sets items = Ok res ->
  (forall x, x ∈ items -> x ∈ res) /\
  closed_items g first_sets res /\
  (NoDup items -> NoDup res) /\
  ((forall k, first_of first_sets k ⊆ terminals g ∪ {[eps]}) ->
   Forall (item_ok g) items -> Forall (item_ok g) res).
Proof.
  unfold _closure. intros H.
  destruct (closure_loop_spec _ _ _ H) as (Hext & Hnd & Hcl & _).
  repeat split; try done. intros Hb Hok. by eapply closure_loop_ok.
Qed.

(** [_goto] returns a closed set that holds, for every item of the state
    with the dot before the symbol, the item with the dot moved over it; it
    holds each item once; it is empty exactly when no item of the state has
    the dot before the symbol. *)
Theorem goto_moves_the_dot fuel items symbol res :
  _goto fuel g first_sets items symbol = Ok res ->
  (forall item, item ∈ items -> get_next_symbol item = Some symbol -> advance item ∈ res) /\
  closed_items g first_sets res /\ NoDup res /\
  (res = [] <-> forall item, item ∈ items -> get_next_symbol item <> Some symbol).
Proof.
  unfold _goto, _closure. set (k := foldl _ _ _). intros H.
  assert (Hk : forall y, y ∈ k <-> exists item, item ∈ items /\
                 get_next_symbol item = Some symbol /\ y = advance item).
  { intros y. apply goto_kernel_spec. }
  destruct (closure_loop_spec _ _ _ H) as (Hext & Hnd & Hcl & _).
  split; [| split; [done | split; [apply Hnd, goto_kernel_NoDup |]]].
  - intros item Hi Hn. apply Hext, Hk. by exists item.
  - split.
    + intros -> item Hi Hn.
      assert (Hin : advance item ∈ @nil LR1Item).
      { apply Hext, Hk. by exists item. }
      by apply elem_of_nil in Hin.
    + intros Hnone.
      assert (Hnil : k = []).
      { destruct k as [|z k0]; [done |]. exfalso.
        destruct (proj1 (Hk z)) as (it & Hit & Hn & _); [by left |]. by eapply Hnone. }
      rewrite Hnil in H. destruct fuel; simpl in H; [discriminate | by injection H as <-].
Qed.

End ItemSets.
Section States.
Context (g : Grammar) (first_sets : first_map).

Lemma same_items_refl (s : item_set) : same_items s s = true.
Proof.
  unfold same_items. rewrite andb_diag. apply forallb_forall.
  intros x Hx%list_elem_of_In. by apply bool_decide_eq_true_2.
Qed.

Lemma state_map_get_Some state_map key j :
  state_map_get state_map key = Some j ->
  exists st, (st, j) ∈ state_map /\ same_items st key = true.
Proof.
  unfold state_map_get. destruct (find _ state_map) as [[st j']|] eqn:Ef; [| discriminate].
  intros [= <-]. apply find_some in Ef as [Hin Hs]. exists st.
  split; [by apply list_elem_of_In | done].
Qed.

(** The body of the loop over the symbols appends to the states and keeps
    every state where it is. *)
Lemma build_symbol_appends cfuel index state symbol a a' :
  build_symbol cfuel g first_sets index state symbol a = Ok a' ->
  exists more, acc_states a' = acc_states a ++ more.
Proof.
  unfold build_symbol. intros (r & _ & H)%bind_Ok.
  destruct r as [|x r]; [injection H as <-; exists []; by rewrite app_nil_r |].
  destruct (state_map_get _ _); injection H as <-; simpl;
    [exists []; by rewrite app_nil_r | eauto].
Qed.

Lemma build_symbols_invariant (P : states_acc -> Prop) cfuel index state symbols a a' :
  (forall symbol a1 a2, P a1 -> acc_states a1 !! index = Some state ->
     build_symbol cfuel g first_sets index state symbol a1 = Ok a2 -> P a2) ->
  P a -> acc_states a !! index = Some state ->
  for_each (build_symbol cfuel g first_sets index state) symbols a = Ok a' ->
  P a' /\ exists more, acc_states a' = acc_states a ++ more.
Proof.
  intros Hstep. revert a. induction symbols as [|symbol symbols IH]; intros a HP Hst; simpl.
  - intros [= <-]. split; [done |]. exists []. by rewrite app_nil_r.
  - intros (a1 & H1 & H)%bind_Ok.
    destruct (build_symbol_appends _ _ _ _ _ _ H1) as [more1 Hmore1].
    apply IH in H as [HP' [more Hmore]].
    + split; [done |]. exists (more1 ++ more). by rewrite Hmore, Hmore1, app_assoc.
    + by eapply Hstep.
    + rewrite Hmore1. by apply lookup_app_l_Some.
Qed.

Lemma build_loop_invariant (P : states_acc -> Prop) fuel cfuel index a a' :
  (forall index state symbol a1 a2, P a1 -> acc_states a1 !! index = Some state ->
     build_symbol cfuel g first_sets index state symbol a1 = Ok a2 -> P a2) ->
  P a -> build_loop fuel cfuel g first_sets index a = Ok a' ->
  P a' /\ exists more, acc_states a' = acc_states a ++ more.
Proof.
  intros Hstep. revert index a. induction fuel as [|fuel IH]; intros index a HP; simpl.
  - destruct (acc_states a !! index); [discriminate |]. intros [= <-].
    split; [done |]. exists []. by rewrite app_nil_r.
  - destruct (acc_states a !! index) as [state|] eqn:Est.
    + intros (a1 & H1 & H)%bind_Ok.
      apply (build_symbols_invariant P) in H1 as [HP1 [more1 Hmore1]];
        [| by apply Hstep | done | done].
      apply IH in H as [HP' [more Hmore]]; [| done].
      split; [done |]. exists (more1 ++ more). by rewrite Hmore, Hmore1, app_assoc.
    + intros [= <-]. split; [done |]. exists []. by rewrite app_nil_r.
Qed.

Lemma build_symbol_ok cfuel index state symbol a a' :
  acc_ok cfuel g first_sets a -> acc_states a !! index = Some state ->
  build_symbol cfuel g first_sets index state symbol a = Ok a' ->
  acc_ok cfuel g first_sets a'.
Proof.
  intros (Hst & Hmap & Hgoto) Hidx. unfold build_symbol.
  intros (r & Hr & H)%bind_Ok.
  destruct r as [|x r]; [by injection H as <- |].
  set (next := x :: r) in *.
  assert (Hnext : next <> []) by done. clearbody next.
  pose proof (goto_NoDup g first_sets _ _ _ _ Hr) as [Hnd Hcl].
  destruct (state_map_get (acc_state_map a) next) as [j|] eqn:Eget; injection H as <-.
  - apply state_map_get_Some in Eget as (tgt & Hin & Hsame).
    split; [done |]. split; [done |]. simpl.
    intros i X j' [[[= <- <-] <-] | [Hne Hl]]%lookup_insert_Some; [| by apply Hgoto].
    exists state, tgt, next. repeat split; try done. by apply Hmap.
  - split; [| split]; simpl.
    + apply Forall_app. split; [done |]. by repeat constructor.
    + intros key j [Hin | [= -> ->]%list_elem_of_singleton]%elem_of_app.
      * apply lookup_app_l_Some. by apply Hmap.
      * rewrite length_app. simpl.
        replace (length (acc_states a) + 1 - 1)%nat with (length (acc_states a)) by lia.
        by apply list_lookup_middle.
    + intros i X j' [[[= <- <-] <-] | [Hne Hl]]%lookup_insert_Some.
      * exists state, next, next. rewrite length_app. simpl.
        replace (length (acc_states a) + 1 - 1)%nat with (length (acc_states a)) by lia.
        repeat split; try done.
        -- by apply lookup_app_l_Some.
        -- by apply list_lookup_middle.
        -- apply same_items_refl.
      * destruct (Hgoto i X j' Hl) as (st & tgt & r0 & ? & ? & ? & ? & ?).
        exists st, tgt, r0. repeat split; try done; by apply lookup_app_l_Some.
Qed.

Lemma build_symbol_valid cfuel index state symbol a a' :
  (forall k, first_of first_sets k ⊆ terminals g ∪ {[eps]}) ->
  Forall (Forall (item_ok g)) (acc_states a) -> acc_states a !! index = Some state ->
  build_symbol cfuel g first_sets index state symbol a = Ok a' ->
  Forall (Forall (item_ok g)) (acc_states a').
Proof.
  intros Hb Hv Hidx. unfold build_symbol. intros (r & Hr & H)%bind_Ok.
  destruct r as [|x r]; [by injection H as <- |].
  destruct (state_map_get _ _); injection H as <-; [done |]. simpl.
  apply Forall_app. split; [done |]. constructor; [| constructor].
  eapply goto_ok; [done | | exact Hr].
  rewrite Forall_forall in Hv. apply Hv. by eapply list_elem_of_lookup_2.
Qed.

Lemma elem_of_insert_sorted x l y : y ∈ insert_sorted x l <-> y = x \/ y ∈ l.
Proof.
  induction l as [|z l IH]; simpl.
  - rewrite list_elem_of_singleton. split; [by left | intros [? | H]; [done |]].
    by apply elem_of_nil in H.
  - case_match; rewrite !elem_of_cons; [tauto |]. rewrite IH. tauto.
Qed.

Lemma elem_of_sorted l y : y ∈ sorted l <-> y ∈ l.
Proof.
  induction l as [|x l IH]; simpl; [done |].
  rewrite elem_of_insert_sorted, IH, elem_of_cons. tauto.
Qed.

Lemma elem_of_next_symbols state X :
  X ∈ next_symbols state <->
  X <> [] /\ exists item, item ∈ state /\ get_next_symbol item = Some X.
Proof.
  unfold next_symbols. rewrite elem_of_list_to_set, list_elem_of_omap. split.
  - intros (item & Hi & Hn). destruct (get_next_symbol item) as [[|c s]|] eqn:E;
      try discriminate. injection Hn as <-. split; [done |]. by exists item.
  - intros [Hne (item & Hi & Hn)]. exists item. split; [done |]. rewrite Hn.
    by destruct X.
Qed.

(** The body of the loop over the symbols records a transition under the
    symbol, when an item of the state has the dot before it, and keeps the
    transitions recorded before. *)
Lemma build_symbol_records cfuel index state symbol a a' :
  build_symbol cfuel g first_sets index state symbol a = Ok a' ->
  (forall k, is_Some (acc_goto a !! k) -> is_Some (acc_goto a' !! k)) /\
  ((exists item, item ∈ state /\ get_next_symbol item = Some symbol) ->
   is_Some (acc_goto a' !! (index, symbol))).
Proof.
  unfold build_symbol. intros (r & Hr & H)%bind_Ok.
  pose proof (goto_holds_kernel g first_sets _ _ _ _ Hr) as Hker.
  destruct r as [|x r].
  - injection H as <-. split; [done |]. intros (item & Hi & Hn).
    specialize (Hker item Hi Hn). by apply elem_of_nil in Hker.
  - destruct (state_map_get _ _); injection H as <-; simpl;
      (split; [| intros _; rewrite lookup_insert_eq; eauto]);
      intros k Hk; (destruct (decide (k = (index, symbol))) as [-> | Hne];
        [rewrite lookup_insert_eq; eauto | by rewrite lookup_insert_ne]).
Qed.

Lemma build_symbols_record cfuel index state symbols a a' :
  for_each (build_symbol cfuel g first_sets index state) symbols a = Ok a' ->
  (forall k, is_Some (acc_goto a !! k) -> is_Some (acc_goto a' !! k)) /\
  (forall symbol, symbol ∈ symbols ->
     (exists item, item ∈ state /\ get_next_symbol item = Some symbol) ->
     is_Some (acc_goto a' !! (index, symbol))).
Proof.
  revert a. induction symbols as [|symbol symbols IH]; intros a; simpl.
  - intros [= <-]. split; [done |]. intros s Hs. by apply elem_of_nil in Hs.
  - intros (a1 & H1 & H)%bind_Ok. apply build_symbol_records in H1 as [Hk1 Hs1].
    apply IH in H as [Hk Hs]. split; [auto |].
    intros s [-> | Hin]%elem_of_cons Hitem; [by apply Hk, Hs1 | by apply Hs].
Qed.

Lemma build_loop_records fuel cfuel index a a' :
  build_loop fuel cfuel g first_sets index a = Ok a' ->
  (forall i st item X, (i < index)%nat -> acc_states a !! i = Some st -> item ∈ st ->
     get_next_symbol item = Some X -> X <> [] -> is_Some (acc_goto a !! (i, X))) ->
  forall i st item X, acc_states a' !! i = Some st -> item ∈ st ->
     get_next_symbol item = Some X -> X <> [] -> is_Some (acc_goto a' !! (i, X)).
Proof.
  revert index a. induction fuel as [|fuel IH]; intros index a; simpl.
  - destruct (acc_states a !! index) eqn:Est; [discriminate |]. intros [= <-] Hrec.
    intros i st item X Hi. apply Hrec; [| done].
    apply lookup_lt_Some in Hi. apply lookup_ge_None in Est. lia.
  - destruct (acc_states a !! index) as [state|] eqn:Est.
    + intros (a1 & H1 & H)%bind_Ok Hrec.
      pose proof (build_symbols_record _ _ _ _ _ _ H1) as [Hk1 Hs1].
      apply (build_symbols_invariant (fun _ => True)) in H1
        as [_ [more1 Hmore1]]; [| done | done | done].
      apply (IH _ _ H). intros i st item X Hlt Hi Hitem Hn Hne.
      destruct (decide (i = index)) as [-> | Hneq].
      * assert (st = state) as ->.
        { rewrite Hmore1, (lookup_app_l_Some _ _ _ _ Est) in Hi. by injection Hi. }
        apply Hs1; [| by exists item].
        apply elem_of_sorted, elem_of_elements, elem_of_next_symbols.
        split; [done | by exists item].
      * apply Hk1. eapply Hrec; [lia | | done | done | done].
        rewrite Hmore1 in Hi. rewrite lookup_app_l in Hi; [done |].
        apply lookup_lt_Some in Est. lia.
    + intros [= <-] Hrec i st item X Hi. apply Hrec; [| done].
      apply lookup_lt_Some in Hi. apply lookup_ge_None in Est. lia.
Qed.

Lemma same_items_subset (a b : item_set) x :
  same_items a b = true -> x ∈ b -> x ∈ a.
Proof.
  unfold same_items. intros [_ H]%andb_true_iff Hx. rewrite forallb_forall in H.
  apply list_elem_of_In in Hx. specialize (H x Hx). by apply bool_decide_eq_true in H.
Qed.

Lemma build_states_spec fuel sts gt :
  _build_states fuel g first_sets = Ok (sts, gt) ->
  exists start_prod state0 more,
    start_prod ∈ productions g /\ Some (left start_prod) = start_symbol g /\
    _closure fuel g first_sets [mkItem start_prod 0 dollar] = Ok state0 /\
    sts = state0 :: more /\
    acc_ok fuel g first_sets (mkAcc sts [] gt) /\
    ((forall k, first_of first_sets k ⊆ terminals g ∪ {[eps]}) ->
     Forall (Forall (item_ok g)) sts) /\
    (forall i st item X, sts !! i = Some st -> item ∈ st ->
       get_next_symbol item = Some X -> X <> [] -> is_Some (gt !! (i, X))).
Proof.
  unfold _build_states. intros (start_prod & Hsp & H)%bind_Ok.
  apply bind_Ok in H as (state0 & Hcl0 & H). apply bind_Ok in H as (a & Hloop & [= <- <-]).
  assert (Hin : start_prod ∈ filter (fun p => Some (left p) = start_symbol g) (productions g)).
  { unfold getitem in Hsp. simpl in Hsp.
    destruct (filter _ (productions g)) as [|p ps]; [discriminate |].
    injection Hsp as <-. by left. }
  apply list_elem_of_filter in Hin as [Hstart Hprod].
  destruct (closure_loop_spec g first_sets _ _ _ Hcl0) as (Hext & Hnd & Hclosed & _).
  set (a0 := mkAcc [state0] [(state0, 0%nat)] ∅) in *.
  assert (Hok0 : acc_ok fuel g first_sets a0).
  { split; [| split].
    - constructor; [| constructor]. split; [| split; [| done]].
      + intros ->. assert (Hx : mkItem start_prod 0 dollar ∈ @nil LR1Item).
        { apply Hext. by left. }
        by apply elem_of_nil in Hx.
      + apply Hnd, NoDup_singleton.
    - intros key j [= -> ->]%list_elem_of_singleton. done.
    - intros i X j Hl. subst a0. simpl in Hl. by rewrite lookup_empty in Hl. }
  destruct (build_loop_invariant (acc_ok fuel g first_sets) _ _ _ _ _
              (fun index state symbol a1 a2 => build_symbol_ok fuel index state symbol a1 a2)
              Hok0 Hloop) as [(Hst & Hmap & Hgoto) [more Hmore]].
  exists start_prod, state0, more. split; [done |]. split; [done |]. split; [done |].
  split; [done |]. split; [| split].
  - split; [done |]. split; [| done]. intros key j Hk. by apply elem_of_nil in Hk.
  - intros Hb.
    assert (Hv0 : Forall (Forall (item_ok g)) (acc_states a0)).
    { constructor; [| constructor].
      eapply closure_loop_ok; [done | | exact Hcl0].
      constructor; [| constructor]. split; [done |]. split; [simpl; lia | set_solver]. }
    by destruct (build_loop_invariant (fun a => Forall (Forall (item_ok g)) (acc_states a))
                   _ _ _ _ _
                   (fun index state symbol a1 a2 =>
                      build_symbol_valid fuel index state symbol a1 a2 Hb)
                   Hv0 Hloop) as [Hv _].
  - apply (build_loop_records _ _ _ _ _ Hloop). intros i st item X Hlt. lia.
Qed.

End States.
Section ClosureReturns.
Context (g : Grammar) (first_sets : first_map).
Hypothesis Hdecl : forall prod, prod ∈ productions g ->
                     forall X, X ∈ right prod -> X ∈ dom first_sets.
Hypothesis Hb : forall k, first_of first_sets k ⊆ terminals g ∪ {[eps]}.

Lemma lookaheads_of_total beta la acc :
  (forall X, X ∈ beta -> X ∈ dom first_sets) ->
  exists r, lookaheads_of first_sets beta la acc = Ok r.
Proof.
  revert acc. induction beta as [|symbol beta IH]; intros acc Hk; simpl; [eauto |].
  assert (Hs : symbol ∈ dom first_sets) by (apply Hk; by left).
  apply elem_of_dom in Hs as [fs Hfs].
  unfold lookup_key. rewrite Hfs. simpl.
  destruct (decide (eps ∈ fs)); [| eauto]. apply IH. intros X HX. apply Hk. by right.
Qed.

Lemma compute_lookaheads_total item :
  production item ∈ productions g ->
  exists las, _compute_lookaheads first_sets item = Ok las.
Proof.
  intros Hp. unfold _compute_lookaheads. case_match; [eauto |].
  destruct (lookaheads_of_total (drop (dot_position item + 1) (right (production item)))
                                (lookahead item) ∅) as [r ->]; [| simpl; eauto].
  intros X HX. apply (Hdecl _ Hp).
  apply list_elem_of_lookup in HX as [i Hi]. rewrite lookup_drop in Hi.
  by eapply list_elem_of_lookup_2.
Qed.

Lemma closure_item_total res item new :
  production item ∈ productions g ->
  exists new', closure_item g first_sets res item new = Ok new'.
Proof.
  intros Hp. unfold closure_item. destruct (get_next_symbol item); [| eauto].
  case_match; [| eauto].
  destruct (compute_lookaheads_total item Hp) as [las ->]. simpl. eauto.
Qed.

Lemma closure_pass_total res items new :
  Forall (item_ok g) items ->
  exists new', for_each (closure_item g first_sets res) items new = Ok new'.
Proof.
  intros H. revert new. induction H as [|item items (Hp & _) _ IH]; intros new; simpl;
    [eauto |].
  destruct (closure_item_total res item new Hp) as [new1 ->]. simpl. apply IH.
Qed.

(** What a pass proposes is not in the set yet. *)
Lemma closure_item_fresh res item new new' y :
  closure_item g first_sets res item new = Ok new' -> y ∈ new' -> y ∈ new \/ y ∉ res.
Proof.
  unfold closure_item. destruct (get_next_symbol item) as [B|]; [| intros [= <-]; by left].
  destruct (decide (B ∈ non_terminals g)) as [HB|]; [| intros [= <-]; by left].
  intros (las & Hlas & [= <-])%bind_Ok. revert y.
  apply (foldl_invariant (fun acc : item_set => forall y, y ∈ acc -> y ∈ new \/ y ∉ res));
    [intros y Hy; by left |].
  intros acc prod _ Hacc. destruct (decide (left prod = B)); [| done].
  apply foldl_invariant; [done |].
  intros acc' la _ Hacc' y. simpl. unfold item_in at 1. case_bool_decide as Hin;
    [by apply Hacc' |].
  intros [Hy | ->]%elem_of_item_add; [by apply Hacc' | by right].
Qed.

Lemma closure_pass_fresh res items new y :
  for_each (closure_item g first_sets res) items [] = Ok new -> y ∈ new -> y ∉ res.
Proof.
  intros H Hy.
  assert (HP : forall z, z ∈ new -> z ∉ res); [| by apply HP].
  eapply (for_each_invariant (fun acc : item_set => forall z, z ∈ acc -> z ∉ res));
    [| | exact H].
  - intros z Hz. by apply elem_of_nil in Hz.
  - intros item s1 s2 _ Hs1 Hbody z Hz.
    destruct (closure_item_fresh _ _ _ _ _ Hbody Hz); [by apply Hs1 | done].
Qed.

Lemma elem_of_candidates prod la :
  prod ∈ productions g -> la ∈ terminals g ∪ {[dollar]} -> mkItem prod 0 la ∈ candidates g.
Proof.
  intros Hp Hla. unfold candidates. apply list_elem_of_In, in_flat_map.
  exists prod. split; [by apply list_elem_of_In |].
  apply in_map, list_elem_of_In. by apply elem_of_elements.
Qed.

(** The candidates that a set does not hold yet get fewer when the set
    takes one of them in. *)
Lemma missing_fewer (res res' cands : item_set) n :
  (forall x, x ∈ res -> x ∈ res') -> n ∈ cands -> n ∉ res -> n ∈ res' ->
  (length (filter (fun x => x ∉ res') cands) < length (filter (fun x => x ∉ res) cands))%nat.
Proof.
  intros Hsub. induction cands as [|c cands IH]; intros Hn Hnr Hnr'.
  - by apply elem_of_nil in Hn.
  - assert (Hle : forall l : item_set,
              (length (filter (fun x => x ∉ res') l)
               <= length (filter (fun x => x ∉ res) l))%nat).
    { induction l as [|z l IHl]; [done |]. rewrite !filter_cons.
      destruct (decide (z ∉ res')) as [Hz | Hz].
      - rewrite decide_True by (intros ?; apply Hz; by apply Hsub). simpl. lia.
      - destruct (decide (z ∉ res)); simpl; lia. }
    rewrite !filter_cons. apply elem_of_cons in Hn as [<- | Hn].
    + rewrite decide_False by (intros H; by apply H).
      rewrite decide_True by done. simpl. specialize (Hle cands). lia.
    + specialize (IH Hn Hnr Hnr').
      destruct (decide (c ∉ res')) as [Hc | Hc].
      * rewrite decide_True by (intros ?; apply Hc; by apply Hsub). simpl. lia.
      * destruct (decide (c ∉ res)); simpl; lia.
Qed.

Lemma closure_loop_returns fuel items :
  Forall (item_ok g) items ->
  (length (filter (fun x => x ∉ items) (candidates g)) < fuel)%nat ->
  exists res, closure_loop fuel g first_sets items = Ok res.
Proof.
  revert items. induction fuel as [|fuel IH]; intros items Hok Hfuel; [lia |].
  simpl. destruct (closure_pass_total items items [] Hok) as [new Hpass].
  rewrite Hpass. simpl. destruct new as [|n new]; [eauto |].
  assert (Hnew : forall y, y ∈ n :: new -> item_ok g y /\ y ∈ candidates g).
  { intros y Hy.
    assert (HP : forall z, z ∈ n :: new ->
              exists prod la, prod ∈ productions g /\ la ∈ terminals g ∪ {[dollar]} /\
                              z = mkItem prod 0 la).
    { eapply (for_each_invariant
                (fun acc : item_set => forall z, z ∈ acc ->
                   exists prod la, prod ∈ productions g /\ la ∈ terminals g ∪ {[dollar]} /\
                                   z = mkItem prod 0 la)); [| | exact Hpass].
      - intros z Hz. by apply elem_of_nil in Hz.
      - intros item s1 s2 Hitem Hs1 Hbody z Hz.
        destruct (closure_item_adds _ _ _ _ _ _ _ Hbody Hz)
          as [? | (B & las & prod & la & _ & _ & Hlas & Hp & _ & Hla & ->)];
          [by apply Hs1 |].
        exists prod, la. split; [done |]. split; [| done].
        rewrite Forall_forall in Hok. destruct (Hok item Hitem) as (_ & _ & Hl).
        by eapply compute_lookaheads_ok. }
    destruct (HP y Hy) as (prod & la & Hp & Hla & ->). split.
    - split; [done |]. split; [simpl; lia | done].
    - by apply elem_of_candidates. }
  apply IH.
  - apply Forall_forall. intros y [Hy | Hy]%elem_of_foldl_item_add.
    + rewrite Forall_forall in Hok. by apply Hok.
    + by apply Hnew.
  - assert (Hlt : (length (filter (fun x => x ∉ foldl item_add items (n :: new))
                                  (candidates g))
                   < length (filter (fun x => x ∉ items) (candidates g)))%nat).
    { apply (missing_fewer _ _ _ n).
      - intros x Hx. apply elem_of_foldl_item_add. by left.
      - apply Hnew. by left.
      - eapply closure_pass_fresh; [exact Hpass | by left].
      - apply elem_of_foldl_item_add. right. by left. }
    lia.
Qed.

End ClosureReturns.
Section Returns.
Context (g : Grammar).


(** The lookaheads [_compute_lookaheads] answers: each is the lookahead of
    the item, or a member, other than the empty-string marker, of the FIRST
    set of a symbol that stands behind the symbol after the dot.  The
    empty-string marker is never answered for an item whose own lookahead
    is not the marker, and when nothing stands behind the symbol after the
    dot the answer is the lookahead of the item alone. *)
Theorem lookaheads_come_from_first_sets (first_sets : first_map) item las :
  _compute_lookaheads first_sets item = Ok las ->
  (forall x, x ∈ las ->
     x = lookahead item \/
     (x <> eps /\ exists symbol,
        symbol ∈ drop (dot_position item + 1) (right (production item)) /\
        x ∈ first_of first_sets symbol)) /\
  (lookahead item <> eps -> eps ∉ las) /\
  ((length (right (production item)) <= dot_position item + 1)%nat ->
   las = {[lookahead item]}).
Proof.
  unfold _compute_lookaheads. intros H.
  assert (Hmem : forall x, x ∈ las ->
            x = lookahead item \/
            (x <> eps /\ exists symbol,
               symbol ∈ drop (dot_position item + 1) (right (production item)) /\
               x ∈ first_of first_sets symbol)).
  { destruct (_ <=? _).
    - injection H as <-. intros x ->%elem_of_singleton. by left.
    - apply bind_Ok in H as (first & Hf & [= <-]).
      intros x [Hx Hne]%elem_of_difference.
      destruct (lookaheads_of_members _ _ _ _ _ _ Hf Hx) as [? | [-> | (s0 & Hs0 & ?)]];
        [set_solver | by left |].
      right. split; [set_solver |]. by exists s0. }
  split; [done |]. split.
  - intros Hla Heps. destruct (Hmem eps Heps) as [? | [? _]]; congruence.
  - intros Hlen. destruct (_ <=? _) eqn:E; [by injection H as <- |].
    apply Z.leb_gt in E. unfold len in E. lia.
Qed.

End Returns.


(** The item E -> . E '+' T with the end marker as lookahead: the lookahead
    of the items it brings in is the operator. *)
Lemma lookaheads_witness :
  (forall x, x ∈ ({[u "'+'"]} : gset str) ->
     x = lookahead arith_item0 \/
     (x <> eps /\ exists symbol,
        symbol ∈ drop (dot_position arith_item0 + 1) (right (production arith_item0)) /\
        x ∈ first_of arith_first symbol)) /\
  (lookahead arith_item0 <> eps -> eps ∉ ({[u "'+'"]} : gset str)) /\
  ((length (right (production arith_item0)) <= dot_position arith_item0 + 1)%nat ->
   ({[u "'+'"]} : gset str) = {[lookahead arith_item0]}).
Proof.
  apply (lookaheads_come_from_first_sets arith_first arith_item0 {[u "'+'"]}).
  vm_compute. reflexivity.
Defined.
Section StatesReturn.
Context (g : Grammar) (first_sets : first_map).
Hypothesis Hdecl : forall prod, prod ∈ productions g ->
                     forall X, X ∈ right prod -> X ∈ dom first_sets.
Hypothesis Hb : forall k, first_of first_sets k ⊆ terminals g ∪ {[eps]}.

Lemma item_ok_all_items x : item_ok g x -> x ∈ all_items g.
Proof.
  intros (Hp & Hd & Hl). destruct x as [prod d la]; simpl in *.
  unfold all_items. apply list_elem_of_In, in_flat_map. exists prod.
  split; [by apply list_elem_of_In |]. apply in_flat_map. exists d.
  split; [apply in_seq; lia |]. apply in_map, list_elem_of_In. by apply elem_of_elements.
Qed.

Lemma length_all_vecs n : length (all_vecs n) = (2 ^ n)%nat.
Proof.
  induction n as [|n IH]; [done |]. simpl all_vecs.
  rewrite length_app, !length_map, IH, Nat.pow_succ_r'. lia.
Qed.

Lemma in_all_vecs (v : list bool) : In v (all_vecs (length v)).
Proof.
  induction v as [|b v IH]; simpl; [by left |].
  apply in_or_app. destruct b; [left | right]; by apply in_map.
Qed.

Lemma char_vec_same univ (s s' : item_set) :
  (forall x, x ∈ s -> x ∈ univ) -> (forall x, x ∈ s' -> x ∈ univ) ->
  char_vec univ s = char_vec univ s' -> same_items s s' = true.
Proof.
  intros Hs Hs' Heq.
  assert (Hiff : forall x, x ∈ univ -> item_in x s = item_in x s').
  { unfold char_vec in Heq. clear Hs Hs'. induction univ as [|y univ IH]; intros x Hx.
    - by apply elem_of_nil in Hx.
    - simpl in Heq. injection Heq as Hy Heq.
      apply elem_of_cons in Hx as [-> | Hx]; [done | by apply IH]. }
  unfold same_items. apply andb_true_iff. split; apply forallb_forall; intros x Hx;
    apply list_elem_of_In in Hx.
  - rewrite <- Hiff by (by apply Hs). by apply bool_decide_eq_true_2.
  - rewrite Hiff by (by apply Hs'). by apply bool_decide_eq_true_2.
Qed.

(** There are no more states than sets of items of the grammar. *)
Lemma states_count (sts : list item_set) :
  Forall (Forall (item_ok g)) sts -> states_distinct sts ->
  (length sts <= 2 ^ length (all_items g))%nat.
Proof.
  intros Hok Hdist.
  rewrite <- length_all_vecs, <- (length_map (char_vec (all_items g)) sts).
  apply NoDup_incl_length.
  - apply NoDup_ListNoDup, NoDup_alt. intros i j v Hi Hj.
    rewrite list_lookup_fmap in Hi, Hj.
    destruct (sts !! i) as [si|] eqn:Esi; [| discriminate].
    destruct (sts !! j) as [sj|] eqn:Esj; [| discriminate].
    simpl in Hi, Hj. injection Hi as Hi. injection Hj as Hj.
    apply (Hdist i j si sj Esi Esj). apply (char_vec_same (all_items g)).
    + intros x Hx. apply item_ok_all_items.
      rewrite Forall_forall in Hok. specialize (Hok si (list_elem_of_lookup_2 _ _ _ Esi)).
      rewrite Forall_forall in Hok. by apply Hok.
    + intros x Hx. apply item_ok_all_items.
      rewrite Forall_forall in Hok. specialize (Hok sj (list_elem_of_lookup_2 _ _ _ Esj)).
      rewrite Forall_forall in Hok. by apply Hok.
    + congruence.
  - intros v (st & <- & _)%in_map_iff.
    replace (length (all_items g)) with (length (char_vec (all_items g) st))
      by apply length_map.
    apply in_all_vecs.
Qed.

Lemma state_map_get_None state_map key st j :
  state_map_get state_map key = None -> (st, j) ∈ state_map -> same_items st key = false.
Proof.
  unfold state_map_get. destruct (find _ state_map) eqn:Ef; [discriminate |]. intros _ Hin.
  apply list_elem_of_In in Hin.
  pose proof (find_none _ _ Ef _ Hin) as H. done.
Qed.

Lemma same_items_sym (s s' : item_set) : same_items s s' = same_items s' s.
Proof. unfold same_items. apply andb_comm. Qed.

(** The body of the loop over the symbols keeps the count. *)
Lemma build_symbol_counted cfuel index state symbol a a' :
  acc_counted g a -> acc_states a !! index = Some state ->
  build_symbol cfuel g first_sets index state symbol a = Ok a' -> acc_counted g a'.
Proof.
  intros (Hok & Hcov & Hdist) Hidx Hbody.
  assert (Hok' : Forall (Forall (item_ok g)) (acc_states a'))
    by (by eapply build_symbol_valid).
  split; [done |]. revert Hbody. unfold build_symbol.
  intros (r & Hr & H)%bind_Ok. destruct r as [|x r]; [by injection H as <- |].
  destruct (state_map_get (acc_state_map a) (x :: r)) as [j|] eqn:Eget;
    injection H as <-; [done |]. simpl.
  assert (Hlen : (length (acc_states a ++ [x :: r]) - 1)%nat = length (acc_states a)).
  { rewrite length_app. simpl. lia. }
  rewrite Hlen.
  assert (Hlast : forall j (st : item_set),
            (length (acc_states a) <= j)%nat ->
            [x :: r] !! (j - length (acc_states a))%nat = Some st ->
            j = length (acc_states a) /\ st = x :: r).
  { intros j st Hge Hj. destruct (j - length (acc_states a))%nat eqn:E; [| done].
    injection Hj as <-. split; [lia | done]. }
  split.
  - intros j st [Hj | [Hge Hj]]%lookup_app_Some.
    + apply elem_of_app. left. by apply Hcov.
    + destruct (Hlast j st Hge Hj) as [-> ->]. apply elem_of_app. right. by left.
  - assert (Hnew : forall j st, acc_states a !! j = Some st ->
              same_items st (x :: r) = false).
    { intros j st Hj. eapply state_map_get_None; [done | by apply Hcov]. }
    intros i j si sj [Hi | [Hi1 Hi]]%lookup_app_Some [Hj | [Hj1 Hj]]%lookup_app_Some Hsame.
    + by eapply Hdist.
    + destruct (Hlast j sj Hj1 Hj) as [-> ->]. by rewrite (Hnew i si Hi) in Hsame.
    + destruct (Hlast i si Hi1 Hi) as [-> ->].
      rewrite same_items_sym in Hsame. by rewrite (Hnew j sj Hj) in Hsame.
    + destruct (Hlast i si Hi1 Hi) as [-> _]. by destruct (Hlast j sj Hj1 Hj) as [-> _].
Qed.

Lemma goto_returns cfuel items symbol :
  Forall (item_ok g) items -> (length (candidates g) < cfuel)%nat ->
  exists res, _goto cfuel g first_sets items symbol = Ok res.
Proof.
  intros Hok Hfuel. unfold _goto, _closure.
  apply (closure_loop_returns g first_sets Hdecl Hb).
  - apply Forall_forall. intros y (item & Hi & Hn & ->)%goto_kernel_spec.
    rewrite Forall_forall in Hok. eapply advance_ok; [by apply Hok | done].
  - eapply Nat.le_lt_trans; [apply length_filter | done].
Qed.

Lemma build_symbol_returns cfuel index state symbol a :
  Forall (item_ok g) state -> (length (candidates g) < cfuel)%nat ->
  exists a', build_symbol cfuel g first_sets index state symbol a = Ok a'.
Proof.
  intros Hok Hfuel. unfold build_symbol.
  destruct (goto_returns cfuel state symbol Hok Hfuel) as [res ->]. simpl.
  destruct res; [eauto |]. destruct (state_map_get _ _); eauto.
Qed.

Lemma build_symbols_return cfuel index state symbols a :
  Forall (item_ok g) state -> (length (candidates g) < cfuel)%nat ->
  exists a', for_each (build_symbol cfuel g first_sets index state) symbols a = Ok a'.
Proof.
  intros Hok Hfuel. revert a. induction symbols as [|symbol symbols IH]; intros a; simpl;
    [eauto |].
  destruct (build_symbol_returns cfuel index state symbol a Hok Hfuel) as [a1 ->]. simpl.
  apply IH.
Qed.

(** The loop over the states ends: every turn moves the index one state on
    and there are no more states than sets of items. *)
Lemma build_loop_returns fuel cfuel index a :
  acc_counted g a -> (length (candidates g) < cfuel)%nat ->
  (2 ^ length (all_items g) < fuel + index)%nat ->
  exists a', build_loop fuel cfuel g first_sets index a = Ok a'.
Proof.
  revert index a. induction fuel as [|fuel IH]; intros index a Hinv Hc Hfuel.
  - destruct Hinv as (Hok & _ & Hdist). pose proof (states_count _ Hok Hdist) as Hn.
    simpl. destruct (acc_states a !! index) eqn:E; [| eauto].
    apply lookup_lt_Some in E. lia.
  - simpl. destruct (acc_states a !! index) as [state|] eqn:E; [| eauto].
    assert (Hst : Forall (item_ok g) state).
    { destruct Hinv as (Hok & _). rewrite Forall_forall in Hok. apply Hok.
      by eapply list_elem_of_lookup_2. }
    destruct (build_symbols_return cfuel index state
                (sorted (elements (next_symbols state))) a Hst Hc) as [a1 H1].
    rewrite H1. simpl. apply IH; [| done | lia].
    by destruct (build_symbols_invariant g first_sets (acc_counted g) _ _ _ _ _ _
                   (fun symbol a1 a2 HP Hi => build_symbol_counted cfuel index state symbol
                                                a1 a2 HP Hi)
                   Hinv E H1) as [? _].
Qed.

Lemma build_states_returns fuel :
  start_declared g = true -> (states_bound g < fuel)%nat ->
  exists sts gt, _build_states fuel g first_sets = Ok (sts, gt).
Proof.
  intros Hstart Hfuel. unfold states_bound in Hfuel. unfold _build_states.
  unfold start_declared in Hstart. destruct (start_symbol g) as [s|] eqn:Es; [| done].
  apply andb_true_iff in Hstart as [_ Hex]. apply existsb_exists in Hex as (p0 & Hp0 & Hl0).
  apply bool_decide_eq_true in Hl0. apply list_elem_of_In in Hp0.
  assert (Hf : p0 ∈ filter (fun p => Some (left p) = Some s) (productions g)).
  { apply list_elem_of_filter. split; [by rewrite Hl0 | done]. }
  destruct (filter _ (productions g)) as [|start_prod rest] eqn:Ef;
    [by apply elem_of_nil in Hf |].
  assert (Hsp : start_prod ∈ productions g).
  { assert (H : start_prod ∈ filter (fun p => Some (left p) = Some s) (productions g))
      by (rewrite Ef; by left).
    by apply list_elem_of_filter in H as [_ ?]. }
  change (getitem (start_prod :: rest) 0) with (Ok (A:=Production) start_prod). simpl.
  assert (Hi0 : Forall (item_ok g) [mkItem start_prod 0 dollar]).
  { constructor; [| constructor]. split; [done |]. split; [simpl; lia | set_solver]. }
  destruct (closure_loop_returns g first_sets Hdecl Hb fuel [mkItem start_prod 0 dollar] Hi0)
    as [state0 H0].
  { eapply Nat.le_lt_trans; [apply length_filter | lia]. }
  unfold _closure. rewrite H0. simpl.
  destruct (build_loop_returns fuel fuel 0 (mkAcc [state0] [(state0, 0%nat)] ∅))
    as [a Ha]; [| lia | lia | rewrite Ha; simpl; eauto].
  split; [| split]; simpl.
  - constructor; [| constructor]. by eapply closure_loop_ok.
  - intros [|j] st Hj; [| done]. injection Hj as <-. by left.
  - intros [|i] [|j] si sj Hi Hj _; done.
Qed.

End StatesReturn.
Section StatesOfTheGrammar.
Context (g : Grammar) (first_sets : first_map).

(** The first state is the closure of the initial item of the first
    production of the start symbol. *)
Lemma build_states_start fuel sts gt :
  _build_states fuel g first_sets = Ok (sts, gt) ->
  exists start_prod rest state0,
    filter (fun p => Some (left p) = start_symbol g) (productions g) = start_prod :: rest /\
    _closure fuel g first_sets [mkItem start_prod 0 dollar] = Ok state0 /\
    sts !! 0%nat = Some state0.
Proof.
  unfold _build_states. intros (start_prod & Hsp & H)%bind_Ok.
  apply bind_Ok in H as (state0 & Hcl0 & H). apply bind_Ok in H as (a & Hloop & [= <- <-]).
  unfold getitem in Hsp. simpl in Hsp.
  destruct (filter _ (productions g)) as [|p rest] eqn:Ef; [discriminate |].
  injection Hsp as ->. exists start_prod, rest, state0. split; [done |]. split; [done |].
  destruct (build_loop_invariant g first_sets (fun _ => True) _ _ _ _ _
              (fun _ _ _ _ _ _ _ _ => I) I Hloop) as [_ [more ->]].
  done.
Qed.

(** No two states of the result hold the same items, and the states hold
    items of the grammar. *)
Lemma build_states_counted fuel sts gt :
  (forall k, first_of first_sets k ⊆ terminals g ∪ {[eps]}) ->
  _build_states fuel g first_sets = Ok (sts, gt) ->
  Forall (Forall (item_ok g)) sts /\ states_distinct sts.
Proof.
  intros Hb. unfold _build_states. intros (start_prod & Hsp & H)%bind_Ok.
  apply bind_Ok in H as (state0 & Hcl0 & H). apply bind_Ok in H as (a & Hloop & [= <- <-]).
  assert (Hin : start_prod ∈ filter (fun p => Some (left p) = start_symbol g) (productions g)).
  { unfold getitem in Hsp. simpl in Hsp.
    destruct (filter _ (productions g)) as [|p ps]; [discriminate |].
    injection Hsp as <-. by left. }
  apply list_elem_of_filter in Hin as [_ Hprod].
  assert (H0 : acc_counted g (mkAcc [state0] [(state0, 0%nat)] ∅)).
  { split; [| split]; simpl.
    - constructor; [| constructor]. eapply closure_loop_ok; [done | | exact Hcl0].
      constructor; [| constructor]. split; [done |]. split; [simpl; lia | set_solver].
    - intros [|j] st Hj; [| done]. injection Hj as <-. by left.
    - intros [|i] [|j] si sj Hi Hj _; done. }
  destruct (build_loop_invariant g first_sets (acc_counted g) _ _ _ _ _
              (fun index state symbol a1 a2 HP Hi =>
                 build_symbol_counted g first_sets Hb fuel index state symbol a1 a2 HP Hi)
              H0 Hloop) as [(Hok & _ & Hdist) _].
  by split.
Qed.

(** What the computed FIRST sets give the loops of [_build_states]. *)
Lemma first_sets_for_states :
  symbols_declared g = true -> _compute_first_sets g = Ok first_sets ->
  (forall prod, prod ∈ productions g -> forall X, X ∈ right prod -> X ∈ dom first_sets) /\
  (forall k, first_of first_sets k ⊆ terminals g ∪ {[eps]}).
Proof.
  intros Hsd Hfirst.
  destruct (first_sets_declared g Hsd) as (first & Hloop & _ & [Hdom Hb] & _).
  rewrite Hfirst in Hloop. injection Hloop as <-. split; [| done].
  intros prod Hp X HX. rewrite Hdom. by apply (symbols_declared_spec g Hsd prod Hp).
Qed.

(** The goto function [_build_states] returns follows the dot.  On a
    grammar whose symbols are declared and whose start symbol has a
    production, with the FIRST sets computed for it, [_build_states]
    returns when the bound on its loops exceeds the number of initial items
    plus the number of sets of items of the grammar.  In what it returns,
    every transition leads from a state of the list to a state of the list
    that holds the same items as the [_goto] of the first under the symbol,
    and that is not empty.  And every item of a state with the dot before a
    symbol has its transition: the state has a transition under the symbol,
    to a state that holds the item with the dot moved over the symbol. *)
Theorem transitions_follow_the_dot :
  symbols_declared g = true -> start_declared g = true ->
  _compute_first_sets g = Ok first_sets ->
  (forall fuel, (states_bound g < fuel)%nat ->
     exists sts gt, _build_states fuel g first_sets = Ok (sts, gt)) /\
  (forall fuel sts gt, _build_states fuel g first_sets = Ok (sts, gt) ->
     (forall i X j, gt !! (i, X) = Some j ->
        exists st tgt r, sts !! i = Some st /\ sts !! j = Some tgt /\
                         _goto fuel g first_sets st X = Ok r /\ r <> [] /\
                         same_items tgt r = true) /\
     (forall i st item X, sts !! i = Some st -> item ∈ st ->
        get_next_symbol item = Some X -> X <> [] ->
        exists j tgt, gt !! (i, X) = Some j /\ sts !! j = Some tgt /\ advance item ∈ tgt)).
Proof.
  intros Hsd Hstart Hfirst.
  destruct (first_sets_for_states Hsd Hfirst) as [Hdecl Hb]. split.
  - intros fuel Hfuel. by apply build_states_returns.
  - intros fuel sts gt H.
    destruct (build_states_spec _ _ _ _ _ H)
      as (_ & _ & _ & _ & _ & _ & _ & (_ & _ & Hgoto) & _ & Hrec).
    split; [exact Hgoto |].
    intros i st item X Hi Hitem Hn Hne.
    destruct (Hrec i st item X Hi Hitem Hn Hne) as [j Hj]. simpl in Hgoto.
    destruct (Hgoto i X j Hj) as (st' & tgt & r & Hi' & Hj' & Hr & _ & Hsame).
    exists j, tgt. split; [done |]. split; [done |].
    rewrite Hi in Hi'. injection Hi' as <-.
    eapply same_items_subset; [done |]. by eapply goto_holds_kernel.
Qed.

(** The states [_build_states] returns.  On a grammar whose symbols are
    declared and whose start symbol has a production, with the FIRST sets
    computed for it, [_build_states] returns when the bound on its loops
    exceeds the number of initial items plus the number of sets of items of
    the grammar.  In what it returns, the first state is the closure of the
    initial item of the first production of the start symbol, with the end
    marker as lookahead; no state is empty, each holds every item once and
    is closed; every item of every state is an item of the grammar, with a
    terminal or the end marker as lookahead; and no two states hold the same
    items, so that there are no more states than sets of items of the
    grammar. *)
Theorem states_hold_items_of_the_grammar :
  symbols_declared g = true -> start_declared g = true ->
  _compute_first_sets g = Ok first_sets ->
  (forall fuel, (states_bound g < fuel)%nat ->
     exists sts gt, _build_states fuel g first_sets = Ok (sts, gt)) /\
  (forall fuel sts gt, _build_states fuel g first_sets = Ok (sts, gt) ->
     (exists start_prod rest state0,
        filter (fun p => Some (left p) = start_symbol g) (productions g)
          = start_prod :: rest /\
        _closure fuel g first_sets [mkItem start_prod 0 dollar] = Ok state0 /\
        sts !! 0%nat = Some state0) /\
     Forall (fun st : item_set => st <> [] /\ NoDup st /\ closed_items g first_sets st) sts /\
     Forall (Forall (item_ok g)) sts /\
     states_distinct sts /\
     (length sts <= 2 ^ length (all_items g))%nat).
Proof.
  intros Hsd Hstart Hfirst.
  destruct (first_sets_for_states Hsd Hfirst) as [Hdecl Hb]. split.
  - intros fuel Hfuel. by apply build_states_returns.
  - intros fuel sts gt H. split; [by eapply build_states_start |].
    destruct (build_states_spec _ _ _ _ _ H)
      as (_ & _ & _ & _ & _ & _ & _ & (Hst & _) & _ & _).
    destruct (build_states_counted fuel sts gt Hb H) as [Hok Hdist].
    split; [done |]. split; [done |]. split; [done |]. by apply states_count.
Qed.

End StatesOfTheGrammar.
(** * Where the entries of the tables come from *)

Section TableEntries.
Context (g : Grammar) (goto : goto_map).

(** The loop over the symbols for state [i]: it writes the shift of every
    terminal with a transition and the goto of every other symbol with a
    transition, under keys of state [i], and nothing else. *)
Lemma table_symbols_spec (i : nat) (t : action_map * goto_map) (X : gset str) :
  let r := set_fold (table_symbol g goto i) t X in
  ((forall i' a, i' <> i -> r.1 !! (i', a) = t.1 !! (i', a)) /\
   (forall a n, a ∈ X -> a ∈ terminals g -> goto !! (i, a) = Some n ->
                r.1 !! (i, a) = Some (Shift n)) /\
   (forall a, (¬ (a ∈ X /\ a ∈ terminals g /\ is_Some (goto !! (i, a)))) ->
              r.1 !! (i, a) = t.1 !! (i, a))) /\
  ((forall i' a, i' <> i -> r.2 !! (i', a) = t.2 !! (i', a)) /\
   (forall a n, a ∈ X -> a ∉ terminals g -> goto !! (i, a) = Some n ->
                r.2 !! (i, a) = Some n) /\
   (forall a, (¬ (a ∈ X /\ (a ∉ terminals g) /\ is_Some (goto !! (i, a)))) ->
              r.2 !! (i, a) = t.2 !! (i, a))).
Proof.
  apply (set_fold_ind_L
    (fun (r : action_map * goto_map) (X : gset str) =>
       ((forall i' a, i' <> i -> r.1 !! (i', a) = t.1 !! (i', a)) /\
        (forall a n, a ∈ X -> a ∈ terminals g -> goto !! (i, a) = Some n ->
                     r.1 !! (i, a) = Some (Shift n)) /\
        (forall a, (¬ (a ∈ X /\ a ∈ terminals g /\ is_Some (goto !! (i, a)))) ->
                   r.1 !! (i, a) = t.1 !! (i, a))) /\
       ((forall i' a, i' <> i -> r.2 !! (i', a) = t.2 !! (i', a)) /\
        (forall a n, a ∈ X -> a ∉ terminals g -> goto !! (i, a) = Some n ->
                     r.2 !! (i, a) = Some n) /\
        (forall a, (¬ (a ∈ X /\ (a ∉ terminals g) /\ is_Some (goto !! (i, a)))) ->
                   r.2 !! (i, a) = t.2 !! (i, a))))).
  - repeat split; try done; set_solver.
  - intros x Y r Hx [(Ha1 & Ha2 & Ha3) (Hg1 & Hg2 & Hg3)].
    unfold table_symbol. destruct (goto !! (i, x)) as [nx|] eqn:Egx.
    + destruct (decide (x ∈ terminals g)) as [Hxt | Hxt]; simpl.
      * split; [| split; [done | split]].
        -- split; [| split].
           ++ intros i' a Hne. rewrite lookup_insert_ne by congruence. by apply Ha1.
           ++ intros a n [->%elem_of_singleton | Ha]%elem_of_union Hat Hgo.
              ** rewrite lookup_insert_eq. congruence.
              ** destruct (decide (a = x)) as [-> | Hne]; [set_solver |].
                 rewrite lookup_insert_ne by congruence. by apply Ha2.
           ++ intros a Hna. destruct (decide (a = x)) as [-> | Hne].
              ** exfalso. apply Hna. split; [set_solver |]. split; [done |].
                 rewrite Egx. eauto.
              ** rewrite lookup_insert_ne by congruence. apply Ha3. set_solver.
        -- intros a n [->%elem_of_singleton | Ha]%elem_of_union Hat Hgo; [done |].
           by apply Hg2.
        -- intros a Hna. apply Hg3. set_solver.
      * split; [split; [done | split] | split; [| split]].
        -- intros a n [->%elem_of_singleton | Ha]%elem_of_union Hat Hgo; [done |].
           by apply Ha2.
        -- intros a Hna. apply Ha3. set_solver.
        -- intros i' a Hne. rewrite lookup_insert_ne by congruence. by apply Hg1.
        -- intros a n [->%elem_of_singleton | Ha]%elem_of_union Hat Hgo.
           ++ rewrite lookup_insert_eq. congruence.
           ++ destruct (decide (a = x)) as [-> | Hne]; [set_solver |].
              rewrite lookup_insert_ne by congruence. by apply Hg2.
        -- intros a Hna. destruct (decide (a = x)) as [-> | Hne].
           ++ exfalso. apply Hna. split; [set_solver |]. split; [done |].
              rewrite Egx. eauto.
           ++ rewrite lookup_insert_ne by congruence. apply Hg3. set_solver.
    + split; [split; [done | split] | split; [done | split]].
      * intros a n [->%elem_of_singleton | Ha]%elem_of_union Hat Hgo; [congruence |].
        by apply Ha2.
      * intros a Hna. apply Ha3. intros (? & ? & ?). apply Hna. set_solver.
      * intros a n [->%elem_of_singleton | Ha]%elem_of_union Hat Hgo; [congruence |].
        by apply Hg2.
      * intros a Hna. apply Hg3. intros (? & ? & ?). apply Hna. set_solver.
Qed.

Lemma item_entry_mono items items' a e :
  (forall x, x ∈ items -> x ∈ items') -> item_entry g items a e -> item_entry g items' a e.
Proof.
  intros Hsub. destruct e as [n|p|]; simpl; [done | |].
  - intros (item & Hi & ?). exists item. split; [by apply Hsub | done].
  - intros [-> (item & Hi & ?)]. split; [done |]. exists item. split; [by apply Hsub | done].
Qed.

Lemma table_item_source (i : nat) action x a e :
  table_item g i action x !! (i, a) = Some e ->
  action !! (i, a) = Some e \/ item_entry g [x] a e.
Proof.
  unfold table_item. destruct (is_complete x) eqn:Hc; [| by left].
  destruct (decide (Some (left (production x)) = start_symbol g)) as [Hs | Hs].
  - intros [[[= <-] <-] | [_ ?]]%lookup_insert_Some; [| by left].
    right. split; [done |]. exists x. split; [by left | done].
  - assert (Hred : <[(i, lookahead x) := Reduce (production x)]> action !! (i, a) = Some e ->
                   action !! (i, a) = Some e \/ item_entry g [x] a e).
    { intros [[[= <-] <-] | [_ ?]]%lookup_insert_Some; [| by left].
      right. exists x. split; [by left | done]. }
    destruct (action !! (i, lookahead x)) as [[n|p|]|]; [by left | done | done | done].
Qed.

Lemma table_items_source (i : nat) action items a e :
  foldl (table_item g i) action items !! (i, a) = Some e ->
  action !! (i, a) = Some e \/ item_entry g items a e.
Proof.
  revert action. induction items as [|x items IH]; intros action; simpl; [by left |].
  intros [H | H]%IH.
  - apply table_item_source in H as [? | H]; [by left | right].
    eapply item_entry_mono; [| exact H]. intros y ->%list_elem_of_singleton. by left.
  - right. eapply item_entry_mono; [| exact H]. intros y ?. by right.
Qed.

(** The loop over the items leaves a shift where it is, unless the accept
    is written over it under the end marker. *)
Lemma table_items_keep_shift (i : nat) action items a n :
  action !! (i, a) = Some (Shift n) ->
  (a = dollar -> ¬ accepts g items) ->
  foldl (table_item g i) action items !! (i, a) = Some (Shift n).
Proof.
  revert action. induction items as [|x items IH]; intros action Hsh Hacc; simpl; [done |].
  apply IH.
  - unfold table_item. destruct (is_complete x) eqn:Hc; [| done].
    destruct (decide (Some (left (production x)) = start_symbol g)) as [Hs | Hs].
    + rewrite lookup_insert_ne; [done |]. intros [= <-]. apply Hacc; [done |].
      exists x. split; [by left | done].
    + destruct (decide (lookahead x = a)) as [-> | Hne]; [by rewrite Hsh |].
      destruct (action !! (i, lookahead x)) as [[?|?|]|];
        rewrite ?lookup_insert_ne by congruence; done.
  - intros Ha (item & Hi & ?). apply (Hacc Ha). exists item. split; [by right | done].
Qed.

Lemma table_state_source t (i : nat) state i' a e :
  (table_state g goto t i state).1 !! (i', a) = Some e ->
  t.1 !! (i', a) = Some e \/ (i' = i /\ entry_source g goto i state a e).
Proof.
  destruct (decide (i' = i)) as [-> | Hne]; [| rewrite table_state_other by done; by left].
  unfold table_state. cbn [fst].
  destruct (table_symbols_spec i t (terminals g ∪ non_terminals g))
    as [(_ & Hsh & Hkeep) _].
  intros [H | H]%table_items_source.
  - destruct (decide (a ∈ terminals g ∪ non_terminals g /\ a ∈ terminals g /\
                      is_Some (goto !! (i, a)))) as [(Ha & Hat & [n Hn]) | Hno].
    + rewrite (Hsh a n Ha Hat Hn) in H. injection H as <-. right. by split.
    + rewrite (Hkeep a Hno) in H. by left.
  - right. split; [done |]. by destruct e.
Qed.

Lemma table_state_shift t (i : nat) state a n :
  a ∈ terminals g -> goto !! (i, a) = Some n ->
  (a = dollar -> ¬ accepts g state) ->
  (table_state g goto t i state).1 !! (i, a) = Some (Shift n).
Proof.
  intros Hat Hn Hacc. unfold table_state. cbn [fst].
  destruct (table_symbols_spec i t (terminals g ∪ non_terminals g))
    as [(_ & Hsh & _) _].
  apply table_items_keep_shift; [| done]. apply Hsh; [set_solver | done | done].
Qed.

Lemma table_state_goto t (i : nat) state :
  (forall i' a, i' <> i ->
     (table_state g goto t i state).2 !! (i', a) = t.2 !! (i', a)) /\
  (forall a n, a ∈ non_terminals g -> a ∉ terminals g -> goto !! (i, a) = Some n ->
     (table_state g goto t i state).2 !! (i, a) = Some n) /\
  (forall a, (¬ (a ∈ non_terminals g /\ (a ∉ terminals g) /\ is_Some (goto !! (i, a)))) ->
     (table_state g goto t i state).2 !! (i, a) = t.2 !! (i, a)).
Proof.
  unfold table_state. cbn [snd].
  destruct (table_symbols_spec i t (terminals g ∪ non_terminals g))
    as [_ (Hother & Hset & Hkeep)].
  split; [done |]. split.
  - intros a n Ha Hat Hn. apply Hset; [set_solver | done | done].
  - intros a Hno. apply Hkeep. intros (Ha & Hat & Hn). apply Hno. set_solver.
Qed.

Lemma table_states_goto_earlier j states t (i : nat) a :
  (i < j)%nat -> (table_states g goto j states t).2 !! (i, a) = t.2 !! (i, a).
Proof.
  revert j t. induction states as [|state states IH]; intros j t Hlt; [done |].
  simpl. rewrite IH by lia. destruct (table_state_goto t j state) as (Ho & _).
  apply Ho. lia.
Qed.

(** The tables after the loop over the states, from the state with index
    [j] on. *)
Lemma table_states_spec j states t :
  let r := table_states g goto j states t in
  (forall i a e, r.1 !! (i, a) = Some e ->
     t.1 !! (i, a) = Some e \/
     exists k st, states !! k = Some st /\ i = (j + k)%nat /\ entry_source g goto i st a e) /\
  (forall k st a n, states !! k = Some st -> a ∈ terminals g ->
     goto !! ((j + k)%nat, a) = Some n -> (a = dollar -> ¬ accepts g st) ->
     r.1 !! ((j + k)%nat, a) = Some (Shift n)) /\
  (forall i a n, r.2 !! (i, a) = Some n ->
     t.2 !! (i, a) = Some n \/
     ((j <= i < j + length states)%nat /\ a ∈ non_terminals g /\ (a ∉ terminals g) /\
      goto !! (i, a) = Some n)) /\
  (forall i a n, (j <= i < j + length states)%nat -> a ∈ non_terminals g ->
     a ∉ terminals g -> goto !! (i, a) = Some n -> r.2 !! (i, a) = Some n).
Proof.
  revert j t. induction states as [|state states IH]; intros j t; simpl.
  - split; [by left |]. split; [done |]. split; [by left |]. intros i a n Hi. lia.
  - destruct (IH (S j) (table_state g goto t j state)) as (Hsrc & Hsh & Hg1 & Hg2).
    destruct (table_state_goto t j state) as (Hgo & Hgs & Hgk).
    split; [| split; [| split]].
    + intros i a e [H | (k & st & Hk & -> & Hs)]%Hsrc.
      * apply table_state_source in H as [? | [-> Hs]]; [by left | right].
        exists 0%nat, state. rewrite Nat.add_0_r. by repeat split.
      * right. exists (S k), st. split; [done |]. split; [lia | done].
    + intros [|k] st a n Hk Hat Hn Hacc; simpl in Hk.
      * injection Hk as <-. rewrite Nat.add_0_r in *.
        rewrite table_states_earlier by lia. by apply table_state_shift.
      * replace (j + S k)%nat with (S j + k)%nat in * by lia. by eapply Hsh.
    + intros i a n [H | (Hi & Ha & Hat & Hn)]%Hg1.
      * destruct (decide (i = j)) as [-> | Hne].
        -- destruct (decide (a ∈ non_terminals g /\ (a ∉ terminals g) /\
                             is_Some (goto !! (j, a)))) as [(Ha & Hat & [m Hm]) | Hno].
           ++ rewrite (Hgs a m Ha Hat Hm) in H. injection H as <-. right.
              split; [lia | done].
           ++ rewrite (Hgk a Hno) in H. by left.
        -- rewrite Hgo in H by done. by left.
      * right. split; [lia | done].
    + intros i a n Hi Ha Hat Hn. destruct (decide (i = j)) as [-> | Hne].
      * rewrite table_states_goto_earlier by lia. by apply Hgs.
      * apply Hg2; [lia | done | done | done].
Qed.

(** Every entry of ACTION has a source in the state of its key: a shift
    stands under a terminal and leads where the transition of the state
    under it leads; a reduce is by the production of a complete item of the
    state, not of the start symbol, whose lookahead is the key; the accept
    stands under the end marker in a state with a complete item of the start
    symbol. *)
Theorem action_entries_have_a_source states i a e :
  (_build_parsing_tables g states goto).1 !! (i, a) = Some e ->
  exists st, states !! i = Some st /\ entry_source g goto i st a e.
Proof.
  unfold _build_parsing_tables. intros H.
  destruct (table_states_spec 0 states (∅, ∅)) as (Hsrc & _).
  destruct (Hsrc i a e H) as [Hold | (k & st & Hk & -> & Hs)].
  - simpl in Hold. by rewrite lookup_empty in Hold.
  - by exists st.
Qed.

(** Shift is preferred: when a state has a transition under a terminal, the
    entry of ACTION under it is that shift, whatever reduces the complete
    items of the state propose.  The one exception is the accept, which is
    written over a shift under the end marker. *)
Theorem shift_is_preferred states i st a n :
  states !! i = Some st -> a ∈ terminals g -> goto !! (i, a) = Some n ->
  (a = dollar -> ¬ accepts g st) ->
  (_build_parsing_tables g states goto).1 !! (i, a) = Some (Shift n).
Proof.
  unfold _build_parsing_tables. intros Hi Hat Hn Hacc.
  destruct (table_states_spec 0 states (∅, ∅)) as (_ & Hsh & _).
  by apply (Hsh i st a n).
Qed.

(** The GOTO table is the goto function on the symbols that are
    non-terminals and not terminals, for the states of the list: a symbol
    that is both gets a shift in ACTION and no entry in the GOTO table. *)
Theorem goto_table_is_goto_on_nonterminals states i a n :
  (_build_parsing_tables g states goto).2 !! (i, a) = Some n <->
  (i < length states)%nat /\ a ∈ non_terminals g /\ (a ∉ terminals g) /\
  goto !! (i, a) = Some n.
Proof.
  unfold _build_parsing_tables.
  destruct (table_states_spec 0 states (∅, ∅)) as (_ & _ & Hg1 & Hg2). split.
  - intros [Hold | (Hi & ?)]%Hg1; [simpl in Hold; by rewrite lookup_empty in Hold |].
    split; [lia | done].
  - intros (Hi & Ha & Hat & Hn). apply Hg2; [lia | done | done | done].
Qed.

End TableEntries.
Section Conflicts.
Context (g : Grammar) (goto : goto_map).

Lemma accepting_spec items : accepting g items = true <-> accepts g items.
Proof.
  unfold accepting, accepts. rewrite existsb_exists. split.
  - intros (x & Hx & [Hc Hs]%andb_true_iff). exists x.
    split; [by apply list_elem_of_In |]. split; [done | by apply bool_decide_eq_true in Hs].
  - intros (x & Hx & Hc & Hs). exists x. split; [by apply list_elem_of_In |].
    rewrite Hc. by apply bool_decide_eq_true_2.
Qed.

(** What the loop over the items leaves under a key at which no item visited
    proposes a reduce: the accept when one of them writes it, the entry that
    was there otherwise. *)
Lemma table_items_no_reduce (i : nat) action items a :
  Forall (fun x => proposes_reduce g a x = false) items ->
  foldl (table_item g i) action items !! (i, a)
  = if bool_decide (a = dollar) && accepting g items then Some Accept
    else action !! (i, a).
Proof.
  induction items as [|x items IH] using rev_ind; intros Hno.
  - simpl. by rewrite andb_false_r.
  - apply Forall_app in Hno as [Hno Hx]. apply Forall_inv in Hx.
    rewrite foldl_app. simpl. unfold accepting. rewrite existsb_app. simpl.
    rewrite orb_false_r. fold (accepting g items).
    set (action' := foldl (table_item g i) action items) in *.
    specialize (IH Hno). unfold table_item. unfold proposes_reduce in Hx.
    destruct (is_complete x) eqn:Hc; simpl.
    2: { by rewrite orb_false_r. }
    destruct (decide (Some (left (production x)) = start_symbol g)) as [Hs | Hs].
    + rewrite (bool_decide_eq_true_2 _ Hs). simpl. rewrite orb_true_r.
      destruct (bool_decide (a = dollar)) eqn:Ea; simpl.
      * apply bool_decide_eq_true in Ea. subst a. by rewrite lookup_insert_eq.
      * apply bool_decide_eq_false in Ea. rewrite lookup_insert_ne by congruence.
        rewrite IH. done.
    + rewrite (bool_decide_eq_false_2 _ Hs). simpl. rewrite orb_false_r.
      rewrite (bool_decide_eq_false_2 _ Hs) in Hx. simpl in Hx.
      rewrite andb_true_r in Hx.
      apply bool_decide_eq_false in Hx.
      destruct (action' !! (i, lookahead x)) as [[n|p|]|];
        rewrite ?lookup_insert_ne by congruence; done.
Qed.

(** The loop over the items writes no shift. *)
Lemma table_items_no_new_shift (i : nat) action items a n :
  foldl (table_item g i) action items !! (i, a) = Some (Shift n) ->
  action !! (i, a) = Some (Shift n).
Proof.
  intros [H | H]%table_items_source; [done | destruct H].
Qed.

(** An accept written under the end marker removes the shift for good. *)
Lemma table_items_accept_over_shift (i : nat) action items n :
  accepting g items = true ->
  foldl (table_item g i) action items !! (i, dollar) <> Some (Shift n).
Proof.
  induction items as [|x items IH] using rev_ind; [done |].
  unfold accepting. rewrite existsb_app, foldl_app. simpl. rewrite orb_false_r.
  fold (accepting g items). set (action' := foldl (table_item g i) action items) in *.
  intros Hacc Hsh.
  assert (Hprev : action' !! (i, dollar) = Some (Shift n)).
  { by apply (table_items_no_new_shift i action' [x] dollar n). }
  apply orb_true_iff in Hacc as [Hacc | [Hc Hs]%andb_true_iff]; [by apply IH |].
  apply bool_decide_eq_true in Hs. unfold table_item in Hsh.
  rewrite Hc, decide_True in Hsh by done. by rewrite lookup_insert_eq in Hsh.
Qed.

(** The entry of state [i] under [a] before the loop over the items of the
    state, when nothing is written under state [i] yet. *)
Lemma table_symbols_entry (i : nat) t a :
  t.1 !! (i, a) = None ->
  (set_fold (table_symbol g goto i) t (terminals g ∪ non_terminals g)).1 !! (i, a)
  = Shift <$> shift_entered g goto i a.
Proof.
  intros Hnone.
  destruct (table_symbols_spec g goto i t (terminals g ∪ non_terminals g))
    as [(_ & Hsh & Hkeep) _].
  unfold shift_entered. destruct (decide (a ∈ terminals g)) as [Hat | Hat].
  - destruct (goto !! (i, a)) as [n|] eqn:En; simpl.
    + apply Hsh; [set_solver | done | done].
    + rewrite Hkeep; [done |]. intros (_ & _ & [? ?]). congruence.
  - simpl. rewrite Hkeep; [done |]. by intros (_ & ? & _).
Qed.

(** The entry the loop over the items of a state leaves under a lookahead
    for which two items of the state propose reduces. *)
Lemma table_items_conflict (i : nat) action before item2 post a :
  action !! (i, a) = Shift <$> shift_entered g goto i a ->
  proposes_reduce g a item2 = true ->
  Forall (fun x => proposes_reduce g a x = false) post ->
  foldl (table_item g i) action (before ++ item2 :: post) !! (i, a)
  = Some (conflict_winner g goto i a before item2 post).
Proof.
  intros Hstart H2 Hpost. rewrite foldl_app. simpl.
  rewrite (table_items_no_reduce i _ post a Hpost). unfold conflict_winner.
  destruct (bool_decide (a = dollar) && accepting g post); [done |].
  set (action' := foldl (table_item g i) action before).
  unfold proposes_reduce in H2.
  apply andb_true_iff in H2 as [[Hc Hla]%andb_true_iff Hs].
  apply bool_decide_eq_true in Hla. apply negb_true_iff, bool_decide_eq_false in Hs.
  assert (Hitem : table_item g i action' item2 !! (i, a)
                  = Some match action' !! (i, a) with
                         | Some (Shift n) => Shift n
                         | _ => Reduce (production item2)
                         end).
  { unfold table_item. rewrite Hc, decide_False, Hla by done.
    destruct (action' !! (i, a)) as [[n|p|]|] eqn:He; by rewrite ?lookup_insert_eq. }
  rewrite Hitem. f_equal.
  destruct (shift_entered g goto i a) as [n|] eqn:Esh; simpl in Hstart.
  - destruct (bool_decide (a = dollar) && accepting g before) eqn:Eacc.
    + apply andb_true_iff in Eacc as [->%bool_decide_eq_true Hacc].
      destruct (action' !! (i, dollar)) as [[m|p|]|] eqn:He; try done.
      by apply (table_items_accept_over_shift i action before m) in Hacc.
    + assert (He : action' !! (i, a) = Some (Shift n)); [| by rewrite He].
      apply table_items_keep_shift; [done |].
      intros -> Hacc%accepting_spec. rewrite Hacc in Eacc.
      by rewrite bool_decide_eq_true_2 in Eacc.
  - destruct (action' !! (i, a)) as [[m|p|]|] eqn:He; try done.
    apply table_items_no_new_shift in He. congruence.
Qed.

Lemma table_states_conflict j states t k before item2 post a :
  (forall i' b, (j <= i')%nat -> t.1 !! (i', b) = None) ->
  states !! k = Some (before ++ item2 :: post) ->
  proposes_reduce g a item2 = true ->
  Forall (fun x => proposes_reduce g a x = false) post ->
  (table_states g goto j states t).1 !! ((j + k)%nat, a)
  = Some (conflict_winner g goto (j + k) a before item2 post).
Proof.
  revert j t k. induction states as [|s states IH]; intros j t k Hnone Hk H2 Hpost;
    [done |].
  destruct k as [|k]; simpl in *.
  - injection Hk as ->. rewrite Nat.add_0_r, table_states_earlier by lia.
    unfold table_state. cbn [fst].
    apply table_items_conflict; [| done | done].
    apply table_symbols_entry. by apply Hnone.
  - replace (j + S k)%nat with (S j + k)%nat by lia. apply IH; try done.
    intros i' b Hi'. rewrite table_state_other by lia. apply Hnone. lia.
Qed.

(** C2 (as amended): a reduce-reduce conflict does not stop the construction
    of the tables, and the table that is built has one entry for the state
    and the lookahead of the conflict.  Let two complete items of a state,
    of different productions that are not of the start symbol, have the same
    lookahead, and let the second be the last item of the state, in the
    order in which the loop visits them, that proposes a reduce under that
    lookahead.  Then the entry is the accept, if the lookahead is the end
    marker and a complete item of the start symbol is visited behind the
    second item; otherwise the shift entered for the state under the
    lookahead, if there is one and no accept was written over it before the
    second item; otherwise the reduce of the second item.  It is never the
    reduce of the first item: the later item overwrites it. *)
Theorem C2_reduce_reduce_conflict_keeps_one_entry states i pre item1 mid item2 post a :
  states !! i = Some (pre ++ item1 :: mid ++ item2 :: post) ->
  is_complete item1 = true -> is_complete item2 = true ->
  lookahead item1 = a -> lookahead item2 = a ->
  Some (left (production item1)) <> start_symbol g ->
  Some (left (production item2)) <> start_symbol g ->
  production item1 <> production item2 ->
  Forall (fun x => proposes_reduce g a x = false) post ->
  (_build_parsing_tables g states goto).1 !! (i, a)
  = Some (conflict_winner g goto i a (pre ++ item1 :: mid) item2 post) /\
  conflict_winner g goto i a (pre ++ item1 :: mid) item2 post
  <> Reduce (production item1).
Proof.
  intros Hi _ Hc2 _ Hl2 _ Hs2 Hne Hpost. split.
  - unfold _build_parsing_tables.
    replace (pre ++ item1 :: mid ++ item2 :: post)
      with ((pre ++ item1 :: mid) ++ item2 :: post) in Hi
      by (by rewrite <- app_assoc).
    apply (table_states_conflict 0 states (∅, ∅) i); try done.
    unfold proposes_reduce. rewrite Hc2, (bool_decide_eq_true_2 _ Hl2). simpl.
    by rewrite (bool_decide_eq_false_2 _ Hs2).
  - unfold conflict_winner. repeat case_match; congruence.
Qed.

End Conflicts.

(** C2 (counterexample): the grammar with the rules A -> 'a' and B -> 'a'
    gets its tables.  State 1 holds the two complete items with the
    lookahead $ , and the entry of state 1 under $ is the reduce of one of
    them. *)
Lemma C2_reduce_reduce_conflict_builds_tables :
  exists p,
    LR1Parser_new ascii_only rr_file = Ok p /\
    grammar p = G_rr /\
    states p !! 1%nat = Some [mkItem prod_A 1 dollar; mkItem prod_B 1 dollar] /\
    (action_table p !! (1%nat, dollar) = Some (Reduce prod_A) \/
     action_table p !! (1%nat, dollar) = Some (Reduce prod_B)).
Proof.
  eexists. split; [vm_compute; reflexivity |]. split; [vm_compute; reflexivity |].
  split; [reflexivity |]. right. vm_compute. reflexivity.
Qed.

(** The amended C2 on the automaton of that grammar, at state 1 and the
    lookahead $ : the reduce of B -> 'a', whose item is visited last. *)
Lemma C2_reduce_reduce_conflict_witness :
  (_build_parsing_tables G_rr rr_automaton.1 rr_automaton.2).1 !! (1%nat, dollar)
  = Some (conflict_winner G_rr rr_automaton.2 1 dollar
            ([] ++ mkItem prod_A 1 dollar :: []) (mkItem prod_B 1 dollar) []) /\
  conflict_winner G_rr rr_automaton.2 1 dollar
    ([] ++ mkItem prod_A 1 dollar :: []) (mkItem prod_B 1 dollar) []
  <> Reduce (production (mkItem prod_A 1 dollar)).
Proof.
  apply (C2_reduce_reduce_conflict_keeps_one_entry G_rr rr_automaton.2 rr_automaton.1 1
           [] (mkItem prod_A 1 dollar) [] (mkItem prod_B 1 dollar) [] dollar);
    first [ by vm_compute | discriminate | by repeat constructor ].
Defined.
(** * Properties of the parse driver *)

Section Driver.
Context (p : LR1Parser).

Lemma getitem_map {A B} (f : A -> B) (l : list A) (i : Z) :
  getitem (map f l) i = (getitem l i ≫= fun a => Ok (f a)).
Proof.
  unfold getitem, len. rewrite length_map. cbv zeta.
  set (j := if i <? 0 then _ else i). destruct (j <? 0); [done |].
  rewrite nth_error_map. by destruct (nth_error l _).
Qed.

Lemma getitem_nil {A} (i : Z) : getitem (@nil A) i = Raise IndexError.
Proof.
  unfold getitem. cbv zeta. set (j := if i <? 0 then _ else i).
  destruct (j <? 0); [done |]. by destruct (Z.to_nat j).
Qed.

Lemma parse_loop_shape fuel tokens input_tokens stack pos b errs :
  parse_loop fuel p tokens input_tokens stack [] pos = Ok (b, errs) ->
  (b = true /\ errs = []) \/
  (b = false /\
   exists k current_token t,
     getitem input_tokens k = Ok current_token /\
     getitem tokens (if k <? len tokens then k else -1) = Ok t /\
     errs = [syntax_error_message t.1.1 current_token]).
Proof.
  revert stack pos. induction fuel as [|fuel IH]; intros stack pos; simpl; [discriminate |].
  intros (top & Htop & H)%bind_Ok. apply bind_Ok in H as (cur & Hcur & H).
  destruct (action_table p !! (top.1, cur)) as [[n|prod|]|].
  - by apply IH in H.
  - apply bind_Ok in H as (stack1 & _ & H). apply bind_Ok in H as (prev & _ & H).
    apply bind_Ok in H as (gs & _ & H). by apply IH in H.
  - injection H as <- <-. by left.
  - apply bind_Ok in H as (line_no & Hline & [= <- <-]). right. split; [done |].
    destruct (pos <? len tokens) eqn:E;
      apply bind_Ok in Hline as (t & Ht & [= <-]); exists pos, cur, t; by rewrite E.
Qed.

Lemma parse_loop_empty fuel input_tokens stack pos b errs :
  parse_loop fuel p [] input_tokens stack [] pos = Ok (b, errs) -> b = true /\ errs = [].
Proof.
  intros [? | (_ & k & cur & t & _ & Ht & _)]%parse_loop_shape; [done |].
  by rewrite getitem_nil in Ht.
Qed.

(** On the empty token list [parse] never returns a syntax error: when it
    returns, it returns success.  The message of a syntax error needs the
    line of a token and there is none, so when state 0 has no action under
    the end marker the look at the last token raises IndexError. *)
Theorem empty_input_is_accepted_or_raises fuel :
  (forall b errs, parse fuel p [] = Ok (b, errs) -> b = true /\ errs = []) /\
  (action_table p !! (0%nat, dollar) = None -> parse (S fuel) p [] = Raise IndexError).
Proof.
  split.
  - intros b errs. unfold parse. apply parse_loop_empty.
  - intros H. unfold parse. simpl. by rewrite H.
Qed.

Lemma parse_loop_same_lines fuel tokens tokens' input_tokens stack errors pos :
  map (fun t : ptoken => t.1.1) tokens = map (fun t : ptoken => t.1.1) tokens' ->
  parse_loop fuel p tokens input_tokens stack errors pos
  = parse_loop fuel p tokens' input_tokens stack errors pos.
Proof.
  intros Hlines.
  assert (Hlen : len tokens = len tokens').
  { unfold len. by rewrite <- (length_map (fun t : ptoken => t.1.1) tokens), Hlines,
      length_map. }
  assert (Hget : forall i, (getitem tokens i ≫= fun t => Ok t.1.1)
                           = (getitem tokens' i ≫= fun t => Ok t.1.1)).
  { intros i. by rewrite <- !(getitem_map (fun t : ptoken => t.1.1)), Hlines. }
  revert stack pos errors. induction fuel as [|fuel IH]; intros stack pos errors; [done |].
  simpl. destruct (getitem stack (-1)) as [top|]; simpl; [| done].
  destruct (getitem input_tokens pos) as [cur|]; simpl; [| done].
  destruct (action_table p !! (top.1, cur)) as [[n|prod|]|].
  - apply IH.
  - destruct (pop_n _ stack) as [stack1|]; simpl; [| done].
    destruct (getitem stack1 (-1)) as [prev|]; simpl; [| done].
    destruct (lookup_key _ _); simpl; [apply IH | done].
  - done.
  - rewrite Hlen. destruct (pos <? len tokens'); by rewrite Hget.
Qed.

(** The driver reads of the tokens their lines and the symbols the token
    bridge makes of them, and nothing else: the names of the identifiers and
    the values of the constants do not matter to its result. *)
Theorem parse_sees_symbols_and_lines fuel tokens tokens' :
  map (fun t : ptoken => t.1.1) tokens = map (fun t : ptoken => t.1.1) tokens' ->
  _convert_tokens tokens = _convert_tokens tokens' ->
  parse fuel p tokens = parse fuel p tokens'.
Proof.
  intros Hlines Hconv. unfold parse. rewrite Hconv. by apply parse_loop_same_lines.
Qed.

End Driver.

(** The parser of the rule S -> ε accepts the empty token list. *)
Lemma empty_input_accepted : parse scenario_fuel eps_parser [] = Ok (true, []).
Proof. vm_compute. reflexivity. Qed.

(** The parser of the arithmetic grammar has no action for the end marker
    in state 0. *)
Lemma empty_input_raises_witness :
  parse (S scenario_fuel) arith_parser [] = Raise IndexError.
Proof.
  apply (proj2 (empty_input_is_accepted_or_raises arith_parser scenario_fuel)).
  vm_compute. reflexivity.
Defined.

(** The tokens ID '+' '+' ID with two choices of the identifiers. *)
Lemma parse_sees_symbols_witness :
  parse scenario_fuel arith_parser (tokens_S6 (u "a") (u "b"))
  = parse scenario_fuel arith_parser (tokens_S6 (u "total") (u "x1")).
Proof.
  apply (parse_sees_symbols_and_lines arith_parser scenario_fuel
           (tokens_S6 (u "a") (u "b")) (tokens_S6 (u "total") (u "x1")));
    reflexivity.
Defined.
Section DriverRuns.
Context (p : LR1Parser).

(** The loop of [parse] returns exactly the result of the first turn that
    ends the parse, when the bound on its turns reaches that turn. *)
Lemma parse_loop_run fuel tokens input_tokens stack pos b errs :
  parse_loop fuel p tokens input_tokens stack [] pos = Ok (b, errs) <->
  exists n c, (n < fuel)%nat /\
              parse_after n p input_tokens (stack, pos) = Some c /\
              parse_ends p tokens input_tokens c b errs.
Proof.
  revert stack pos. induction fuel as [|fuel IH]; intros stack pos.
  - simpl. split; [discriminate | intros (n & c & Hn & _); lia].
  - simpl parse_loop. split.
    + intros (top & Htop & H)%bind_Ok. apply bind_Ok in H as (cur & Hcur & H).
      assert (Hnext : forall c1 n c,
                parse_next p input_tokens (stack, pos) = Some c1 ->
                (n < fuel)%nat /\ parse_after n p input_tokens c1 = Some c /\
                parse_ends p tokens input_tokens c b errs ->
                exists n c, (n < S fuel)%nat /\
                            parse_after n p input_tokens (stack, pos) = Some c /\
                            parse_ends p tokens input_tokens c b errs).
      { intros c1 n c H1 (Hn & Hrun & Hend). exists (S n), c.
        split; [lia |]. split; [| done]. simpl. by rewrite H1. }
      destruct (action_table p !! (top.1, cur)) as [[v|prod|]|] eqn:Ea.
      * apply IH in H as (n & c & Hn). eapply Hnext; [| exact Hn].
        unfold parse_next. simpl. by rewrite Htop, Hcur, Ea.
      * apply bind_Ok in H as (stack1 & Hpop & H). apply bind_Ok in H as (prev & Hprev & H).
        apply bind_Ok in H as (gs & Hgs & H).
        apply IH in H as (n & c & Hn). eapply Hnext; [| exact Hn].
        unfold parse_next. simpl. rewrite Htop, Hcur, Ea, Hpop. simpl.
        rewrite Hprev. simpl. by rewrite Hgs.
      * injection H as <- <-. exists 0%nat, (stack, pos). split; [lia |].
        split; [done |]. exists top, cur. split; [done |]. split; [done |]. by left.
      * apply bind_Ok in H as (line_no & Hline & [= <- <-]).
        exists 0%nat, (stack, pos). split; [lia |]. split; [done |].
        exists top, cur. split; [done |]. split; [done |]. right.
        split; [done |]. split; [done |]. simpl.
        destruct (pos <? len tokens);
          apply bind_Ok in Hline as (t & Ht & [= <-]); by exists t.
    + intros (n & c & Hn & Hrun & Hend). destruct n as [|n].
      * injection Hrun as <-.
        destruct Hend as (top & cur & Htop & Hcur & Hend). simpl in Htop, Hcur.
        rewrite Htop, Hcur. simpl.
        destruct Hend as [(-> & -> & Ha) | (-> & Ha & t & Ht & ->)]; rewrite Ha; [done |].
        simpl in Ht. destruct (pos <? len tokens); by rewrite Ht.
      * simpl in Hrun.
        destruct (parse_next p input_tokens (stack, pos)) as [c1|] eqn:Hnext;
          [| discriminate].
        assert (Hrest : parse_loop fuel p tokens input_tokens c1.1 [] c1.2 = Ok (b, errs)).
        { apply IH. exists n, c. split; [lia |]. split; [by destruct c1 | done]. }
        unfold parse_next in Hnext. simpl in Hnext.
        destruct (getitem stack (-1)) as [top|]; [| discriminate].
        destruct (getitem input_tokens pos) as [cur|]; [| discriminate]. simpl.
        destruct (action_table p !! (top.1, cur)) as [[v|prod|]|]; try discriminate.
        -- by injection Hnext as <-.
        -- destruct (pop_n _ stack) as [stack1|]; simpl in *; [| discriminate].
           destruct (getitem stack1 (-1)) as [prev|]; simpl in *; [| discriminate].
           destruct (lookup_key _ _) as [gs|]; simpl in *; [| discriminate].
           by injection Hnext as <-.
Qed.

(** [parse] reports at most one error, and only where the table has no
    entry.  For every bound on the turns of its loop, [parse] returns a
    result exactly when, within the bound, the loop reaches a turn that ends
    the parse: a turn at an accept entry, where it returns success and no
    error, or a turn at which the state on top of the stack has no entry
    under the current symbol, where it returns failure and exactly one
    message, for that symbol, with the line of the token at the position, or
    of the last token when the symbol is the end marker.  A run that reaches
    no such turn returns nothing, whatever the bound.  So a result holds at
    most one error, it is a success exactly when it holds none, and every
    larger bound gives the same result. *)
Theorem parse_reports_at_most_one_error fuel tokens b errs :
  (parse fuel p tokens = Ok (b, errs) <->
   exists n c, (n < fuel)%nat /\
               parse_after n p (_convert_tokens tokens ++ [dollar]) ([(0%nat, dollar)], 0)
                 = Some c /\
               parse_ends p tokens (_convert_tokens tokens ++ [dollar]) c b errs) /\
  (parse fuel p tokens = Ok (b, errs) ->
   (length errs <= 1)%nat /\ (b = true <-> errs = []) /\
   forall fuel', (fuel <= fuel')%nat -> parse fuel' p tokens = Ok (b, errs)).
Proof.
  unfold parse. split; [apply parse_loop_run |].
  intros (n & c & Hn & Hrun & Hend)%parse_loop_run.
  assert (Hshape : (length errs <= 1)%nat /\ (b = true <-> errs = [])).
  { destruct Hend as (top & cur & _ & _ & [(-> & -> & _) | (-> & _ & t & _ & ->)]);
      simpl; (split; [lia | done]). }
  destruct Hshape as [Hlen Hb]. split; [done |]. split; [done |].
  intros fuel' Hle. apply parse_loop_run. exists n, c. split; [lia | done].
Qed.

End DriverRuns.

(** The parser of the arithmetic grammar on ID '+' ID: the run ends at the
    operator, for which the state on top of the stack has no entry. *)
Lemma parse_reports_witness :
  exists n c,
    (n < scenario_fuel)%nat /\
    parse_after n arith_parser
                (_convert_tokens [(1, IDENTIFIER, u "a"); (1, OPERATOR, u "+");
                                  (2, IDENTIFIER, u "b")] ++ [dollar])
                ([(0%nat, dollar)], 0) = Some c /\
    parse_ends arith_parser
               [(1, IDENTIFIER, u "a"); (1, OPERATOR, u "+"); (2, IDENTIFIER, u "b")]
               (_convert_tokens [(1, IDENTIFIER, u "a"); (1, OPERATOR, u "+");
                                 (2, IDENTIFIER, u "b")] ++ [dollar])
               c false [syntax_error_message 1 (quoted (u "+"))].
Proof.
  apply (proj1 (proj1 (parse_reports_at_most_one_error arith_parser scenario_fuel
                         [(1, IDENTIFIER, u "a"); (1, OPERATOR, u "+");
                          (2, IDENTIFIER, u "b")]
                         false [syntax_error_message 1 (quoted (u "+"))]))).
  vm_compute. reflexivity.
Defined.
(** * The theorems on the automata of the scenarios *)

(** The closure of the initial item of the arithmetic grammar. *)
Lemma closure_witness :
  (forall x, x ∈ [arith_item0] -> x ∈ arith_state0) /\
  closed_items G_arith arith_first arith_state0 /\
  (NoDup [arith_item0] -> NoDup arith_state0) /\
  ((forall k, first_of arith_first k ⊆ terminals G_arith ∪ {[eps]}) ->
   Forall (item_ok G_arith) [arith_item0] -> Forall (item_ok G_arith) arith_state0).
Proof.
  apply (closure_holds_and_is_closed G_arith arith_first scenario_fuel
           [arith_item0] arith_state0).
  vm_compute. reflexivity.
Defined.

(** The transition of the first state of the arithmetic grammar under ID. *)
Lemma goto_witness :
  (forall item, item ∈ arith_state0 -> get_next_symbol item = Some (u "ID") ->
                advance item ∈ arith_goto_ID) /\
  closed_items G_arith arith_first arith_goto_ID /\ NoDup arith_goto_ID /\
  (arith_goto_ID = [] <->
   forall item, item ∈ arith_state0 -> get_next_symbol item <> Some (u "ID")).
Proof.
  apply (goto_moves_the_dot G_arith arith_first scenario_fuel arith_state0 (u "ID")
           arith_goto_ID).
  vm_compute. reflexivity.
Defined.

(** The automaton of the arithmetic grammar, which [_build_states] returns
    within the bound of the scenarios. *)
Lemma transitions_witness :
  _build_states scenario_fuel G_arith arith_first
    = Ok (arith_automaton.1, arith_automaton.2) /\
  ((forall fuel, (states_bound G_arith < fuel)%nat ->
      exists sts gt, _build_states fuel G_arith arith_first = Ok (sts, gt)) /\
   (forall fuel sts gt, _build_states fuel G_arith arith_first = Ok (sts, gt) ->
      (forall i X j, gt !! (i, X) = Some j ->
         exists st tgt r, sts !! i = Some st /\ sts !! j = Some tgt /\
                          _goto fuel G_arith arith_first st X = Ok r /\ r <> [] /\
                          same_items tgt r = true) /\
      (forall i st item X, sts !! i = Some st -> item ∈ st ->
         get_next_symbol item = Some X -> X <> [] ->
         exists j tgt, gt !! (i, X) = Some j /\ sts !! j = Some tgt /\
                       advance item ∈ tgt))).
Proof.
  split.
  - exact (@eq_refl _ (Ok (arith_automaton.1, arith_automaton.2))
           <: _build_states scenario_fuel G_arith arith_first
              = Ok (arith_automaton.1, arith_automaton.2)).
  - apply (transitions_follow_the_dot G_arith arith_first); vm_compute; reflexivity.
Defined.

(** The states of that automaton. *)
Lemma states_witness :
  _build_states scenario_fuel G_arith arith_first
    = Ok (arith_automaton.1, arith_automaton.2) /\
  ((forall fuel, (states_bound G_arith < fuel)%nat ->
      exists sts gt, _build_states fuel G_arith arith_first = Ok (sts, gt)) /\
   (forall fuel sts gt, _build_states fuel G_arith arith_first = Ok (sts, gt) ->
      (exists start_prod rest state0,
         filter (fun p => Some (left p) = start_symbol G_arith) (productions G_arith)
           = start_prod :: rest /\
         _closure fuel G_arith arith_first [mkItem start_prod 0 dollar] = Ok state0 /\
         sts !! 0%nat = Some state0) /\
      Forall (fun st : item_set =>
                st <> [] /\ NoDup st /\ closed_items G_arith arith_first st) sts /\
      Forall (Forall (item_ok G_arith)) sts /\
      states_distinct sts /\
      (length sts <= 2 ^ length (all_items G_arith))%nat)).
Proof.
  split.
  - exact (@eq_refl _ (Ok (arith_automaton.1, arith_automaton.2))
           <: _build_states scenario_fuel G_arith arith_first
              = Ok (arith_automaton.1, arith_automaton.2)).
  - apply (states_hold_items_of_the_grammar G_arith arith_first); vm_compute; reflexivity.
Defined.

(** The reduce under the end marker in state 1 of the grammar with the
    reduce-reduce conflict. *)
Lemma action_source_witness :
  exists st, rr_automaton.1 !! 1%nat = Some st /\
             entry_source G_rr rr_automaton.2 1 st dollar (Reduce prod_B).
Proof.
  apply (action_entries_have_a_source G_rr rr_automaton.2 rr_automaton.1 1 dollar
           (Reduce prod_B)).
  vm_compute. reflexivity.
Defined.

(** The shift of state 0 of that grammar under its terminal. *)
Lemma shift_witness :
  (_build_parsing_tables G_rr rr_automaton.1 rr_automaton.2).1 !! (0%nat, u "'a'")
  = Some (Shift 1).
Proof.
  apply (shift_is_preferred G_rr rr_automaton.2 rr_automaton.1 0 rr_state0 (u "'a'") 1).
  - vm_compute. reflexivity.
  - vm_compute. reflexivity.
  - vm_compute. reflexivity.
  - intros H. discriminate H.
Defined.

(** State 0 of that grammar, whose items do not compete, in two orders. *)
Lemma order_witness :
  _build_parsing_tables G_rr [List.rev rr_state0] rr_automaton.2
  = _build_parsing_tables G_rr [rr_state0] rr_automaton.2.
Proof.
  apply (tables_order_irrelevant G_rr rr_automaton.2 [rr_state0] [List.rev rr_state0]).
  - constructor; [| constructor]. apply Permutation_rev.
  - vm_compute. reflexivity.
Defined.
